(** * simple-lock-free-queue: MPSC_Queue and MPMC_Queue

    A shallow embedding of the two class templates of the library,
    [MPSC_Queue<T>] and [MPMC_Queue<T>], together with the properties stated
    about them.

    The C++ methods are transcribed once, as programs over the atomic
    memory actions they perform ([new], [delete], loads, stores, the tail
    exchange and the head compare-and-swap).  A program can then be
    - run to completion by one caller ([run]), which is the meaning of a
      method call on a quiescent queue, or
    - advanced one atomic action at a time ([step]), several programs being
      interleaved by a schedule ([interleave]), which is the meaning of
      concurrent calls.
    Memory orders are not represented: every interleaving is sequentially
    consistent. *)

From stdpp Require Import gmap list fin_maps.
From Stdlib Require Import ZArith Lia.

Set Default Proof Using "Type".

(** ** Memory model *)

(** Addresses of heap nodes and of queue objects.  A C++ [Node*] is either
    [nullptr] or the address of a node. *)
Definition addr := positive.
Definition qref := positive.
Definition ptr := option addr.
Definition nullptr : ptr := None.

(** The ways a run can leave defined behaviour, or fail to return. *)
Inductive fault : Type :=
| NullDeref                 (* member access through nullptr *)
| UseAfterFree (a : addr)   (* member access to a node that is not live *)
| InvalidFree (a : addr)    (* delete of a node that is not live *)
| NoObject (q : qref)       (* read of a queue object that was never written *)
| OutOfFuel.                (* the loop did not finish within its fuel *)

Section Model.

(** The element type [T] of the class templates. *)
Context {T : Type}.

(** [struct Node { std::unique_ptr<T> data; std::atomic<Node*> next; }].
    A [unique_ptr<T>] is empty or owns one [T]. *)
Record Node : Type := mkNode { data : option T; next : ptr }.

(** The two pointer members of a queue object.  [MPSC_Queue] declares
    [std::atomic<Node*> tail; Node* head;], [MPMC_Queue] declares both
    atomic; the members and their meaning are the same. *)
Record Queue : Type := mkQueue { tail : ptr; head : ptr }.

(** The machine state: the live nodes, the queue objects, and the outcomes
    the environment has in store for [compare_exchange_weak], which may
    fail spuriously ([true] is a spurious failure; once the list is used up
    no further failure is spurious). *)
Record State : Type := mkState {
  nodes : gmap addr Node;
  objs : gmap qref Queue;
  spurious : list bool
}.

Definition set_nodes (f : gmap addr Node → gmap addr Node) (m : State) : State :=
  mkState (f (nodes m)) (objs m) (spurious m).
Definition set_objs (f : gmap qref Queue → gmap qref Queue) (m : State) : State :=
  mkState (nodes m) (f (objs m)) (spurious m).

Definition empty_state : State := mkState ∅ ∅ [].

Inductive result (A : Type) : Type :=
| Ok (a : A) (m : State)
| Fault (f : fault).
Global Arguments Ok {A} a m.
Global Arguments Fault {A} f.

(** ** Atomic actions *)

Inductive op : Type → Type :=
| NewNode (d : option T) : op addr          (* new Node() / new Node(value) *)
| DeleteNode (p : ptr) : op unit            (* delete p *)
| LoadNext (p : ptr) : op ptr               (* p->next.load(..) *)
| StoreNext (p v : ptr) : op unit           (* p->next.store(v, ..) *)
| MoveData (p : ptr) : op (option T)        (* std::move(p->data) *)
| LoadHead (q : qref) : op ptr              (* q.head / q.head.load(..) *)
| StoreHead (q : qref) (v : ptr) : op unit  (* q.head = v / q.head.store(v, ..) *)
| LoadTail (q : qref) : op ptr              (* q.tail.load(..) *)
| StoreTail (q : qref) (v : ptr) : op unit  (* q.tail.store(v, ..) *)
| ExchangeTail (q : qref) (v : ptr) : op ptr   (* q.tail.exchange(v, ..) *)
| CasHead (q : qref) (expected desired : ptr) : op bool.
    (* q.head.compare_exchange_weak(expected, desired, ..): true when head
       held [expected] and now holds [desired]; the callers reload [head]
       after a failure and do not use the value written back *)

(** Access to the node behind a pointer. *)
Definition deref (p : ptr) (m : State) : fault + (addr * Node) :=
  match p with
  | None => inl NullDeref
  | Some a =>
      match nodes m !! a with
      | Some n => inr (a, n)
      | None => inl (UseAfterFree a)
      end
  end.

(** A member of a queue object that was never assigned has no value to
    read. *)
Definition read_obj (q : qref) (m : State) : fault + Queue :=
  match objs m !! q with
  | Some o => inr o
  | None => inl (NoObject q)
  end.

(** Assigning a member of an object whose other member was never assigned
    leaves that other member unset; it is represented by [nullptr]. *)
Definition write_obj (q : qref) (f : Queue → Queue) (m : State) : State :=
  set_objs (λ os, <[q := f (default (mkQueue None None) (os !! q))]> os) m.

Definition with_head (v : ptr) (o : Queue) : Queue := mkQueue (tail o) v.
Definition with_tail (v : ptr) (o : Queue) : Queue := mkQueue v (head o).

(** What an atomic action does to the state and what it returns.  [new]
    returns an address that is not live; the address of a deleted node may
    be handed out again.  A member access through a null pointer or to a
    node that is not live, and the delete of such a node, are faults;
    [delete nullptr] does nothing. *)
Definition exec_op {X} (e : op X) (m : State) : result X :=
  match e in op X return result X with
  | NewNode d =>
      let a := fresh (dom (nodes m)) in
      Ok a (set_nodes (insert a (mkNode d None)) m)
  | DeleteNode p =>
      match p with
      | None => Ok tt m
      | Some a =>
          match nodes m !! a with
          | Some _ => Ok tt (set_nodes (delete a) m)
          | None => Fault (InvalidFree a)
          end
      end
  | LoadNext p =>
      match deref p m with
      | inr (_, n) => Ok (next n) m
      | inl f => Fault f
      end
  | StoreNext p v =>
      match deref p m with
      | inr (a, n) => Ok tt (set_nodes (insert a (mkNode (data n) v)) m)
      | inl f => Fault f
      end
  | MoveData p =>
      match deref p m with
      | inr (a, n) => Ok (data n) (set_nodes (insert a (mkNode None (next n))) m)
      | inl f => Fault f
      end
  | LoadHead q =>
      match read_obj q m with
      | inr o => Ok (head o) m
      | inl f => Fault f
      end
  | StoreHead q v => Ok tt (write_obj q (with_head v) m)
  | LoadTail q =>
      match read_obj q m with
      | inr o => Ok (tail o) m
      | inl f => Fault f
      end
  | StoreTail q v => Ok tt (write_obj q (with_tail v) m)
  | ExchangeTail q v =>
      match read_obj q m with
      | inr o => Ok (tail o) (write_obj q (with_tail v) m)
      | inl f => Fault f
      end
  | CasHead q expected desired =>
      match read_obj q m with
      | inr o =>
          let fails := default false (hd_error (spurious m)) in
          let m' := mkState (nodes m) (objs m) (tl (spurious m)) in
          if bool_decide (head o = expected) && negb fails
          then Ok true (write_obj q (with_head desired) m')
          else Ok false m'
      | inl f => Fault f
      end
  end.

(** ** Programs *)

Inductive prog (A : Type) : Type :=
| Ret (a : A)
| Spin                                       (* a loop that ran out of fuel *)
| Vis {X : Type} (e : op X) (k : X → prog A).
Global Arguments Ret {A} a.
Global Arguments Spin {A}.
Global Arguments Vis {A X} e k.

Fixpoint bind {A B} (p : prog A) (f : A → prog B) : prog B :=
  match p with
  | Ret a => f a
  | Spin => Spin
  | Vis e k => Vis e (λ x, bind (k x) f)
  end.

Definition act {X} (e : op X) : prog X := Vis e Ret.

(** One caller running a program to its end. *)
Fixpoint run {A} (p : prog A) (m : State) : result A :=
  match p with
  | Ret a => Ok a m
  | Spin => Fault OutOfFuel
  | Vis e k =>
      match exec_op e m with
      | Ok x m' => run (k x) m'
      | Fault f => Fault f
      end
  end.

(** The atomic actions a run performs, in order, each with its operands
    (and, for [new] and the compare-and-swap, its outcome). *)
Inductive event : Type :=
| EvNew (a : addr)
| EvDelete (p : ptr)
| EvLoadNext (p : ptr)
| EvStoreNext (p v : ptr)
| EvMoveData (p : ptr)
| EvLoadHead (q : qref)
| EvStoreHead (q : qref) (v : ptr)
| EvLoadTail (q : qref)
| EvStoreTail (q : qref) (v : ptr)
| EvExchangeTail (q : qref) (v : ptr)
| EvCasHead (q : qref) (expected desired : ptr) (success : bool).

Definition event_of {X} (e : op X) : X → event :=
  match e in op X return X → event with
  | NewNode _ => λ a, EvNew a
  | DeleteNode p => λ _, EvDelete p
  | LoadNext p => λ _, EvLoadNext p
  | StoreNext p v => λ _, EvStoreNext p v
  | MoveData p => λ _, EvMoveData p
  | LoadHead q => λ _, EvLoadHead q
  | StoreHead q v => λ _, EvStoreHead q v
  | LoadTail q => λ _, EvLoadTail q
  | StoreTail q v => λ _, EvStoreTail q v
  | ExchangeTail q v => λ _, EvExchangeTail q v
  | CasHead q e d => λ b, EvCasHead q e d b
  end.

Fixpoint trace {A} (p : prog A) (m : State) : list event :=
  match p with
  | Ret _ | Spin => []
  | Vis e k =>
      match exec_op e m with
      | Ok x m' => event_of e x :: trace (k x) m'
      | Fault _ => []
      end
  end.

(** Concurrent callers: each thread is the rest of its program, and a
    schedule names the thread that performs its next atomic action.  A
    thread that has returned, and a name outside the pool, take no step. *)
Definition step {A} (p : prog A) (m : State) : result (prog A) :=
  match p with
  | Vis e k =>
      match exec_op e m with
      | Ok x m' => Ok (k x) m'
      | Fault f => Fault f
      end
  | _ => Ok p m
  end.

Fixpoint interleave {A} (sched : list nat) (ts : list (prog A)) (m : State)
  : result (list (prog A)) :=
  match sched with
  | [] => Ok ts m
  | i :: sched' =>
      match ts !! i with
      | None => interleave sched' ts m
      | Some p =>
          match step p m with
          | Ok p' m' => interleave sched' (<[i := p']> ts) m'
          | Fault f => Fault f
          end
      end
  end.

Definition step_event {A} (p : prog A) (m : State) : list event :=
  match p with
  | Vis e k =>
      match exec_op e m with
      | Ok x _ => [event_of e x]
      | Fault _ => []
      end
  | _ => []
  end.

(** The atomic actions of an interleaved run, in the order of the
    schedule. *)
Fixpoint interleave_trace {A} (sched : list nat) (ts : list (prog A)) (m : State)
  : list event :=
  match sched with
  | [] => []
  | i :: sched' =>
      match ts !! i with
      | None => interleave_trace sched' ts m
      | Some p =>
          match step p m with
          | Ok p' m' => step_event p m ++ interleave_trace sched' (<[i := p']> ts) m'
          | Fault _ => []
          end
      end
  end.

(** The same actions, each with the thread that performed it. *)
Fixpoint interleave_log {A} (sched : list nat) (ts : list (prog A)) (m : State)
  : list (nat * event) :=
  match sched with
  | [] => []
  | i :: sched' =>
      match ts !! i with
      | None => interleave_log sched' ts m
      | Some p =>
          match step p m with
          | Ok p' m' =>
              (pair i <$> step_event p m) ++ interleave_log sched' (<[i := p']> ts) m'
          | Fault _ => []
          end
      end
  end.

End Model.

Global Arguments Node : clear implicits.
Global Arguments Queue : clear implicits.
Global Arguments State : clear implicits.
Global Arguments result : clear implicits.
Global Arguments op : clear implicits.
Global Arguments prog : clear implicits.

Global Instance prog_ret {T} : MRet (prog T) := λ A a, Ret a.
Global Instance prog_bind {T} : MBind (prog T) := λ A B f p, bind p f.

(** ** The [int] counter of [size_approx] *)

(** [int] is 32 bits wide on the targets of this library.  ISO C++ leaves
    signed overflow undefined; two's complement hardware wraps, which is
    what is written out here. *)
Definition INT_MAX : Z := 2 ^ 31 - 1.
Definition INT_MIN : Z := - 2 ^ 31.
Definition int_wrap (z : Z) : Z := (z + 2 ^ 31) mod 2 ^ 32 - 2 ^ 31.
(** [++count] *)
Definition int_incr (count : Z) : Z := int_wrap (count + 1).

Lemma int_wrap_small (z : Z) : (INT_MIN ≤ z ≤ INT_MAX)%Z → int_wrap z = z.
Proof.
  unfold INT_MIN, INT_MAX, int_wrap. intros Hz.
  rewrite Z.mod_small; lia.
Qed.

Lemma int_incr_wrap (z : Z) : int_incr (int_wrap z) = int_wrap (z + 1).
Proof.
  unfold int_incr, int_wrap.
  replace ((z + 2 ^ 31) mod 2 ^ 32 - 2 ^ 31 + 1 + 2 ^ 31)%Z
    with ((z + 2 ^ 31) mod 2 ^ 32 + 1)%Z by lia.
  rewrite Z.add_mod_idemp_l by lia.
  by replace (z + 2 ^ 31 + 1)%Z with (z + 1 + 2 ^ 31)%Z by lia.
Qed.

(** [n] increments of a counter that starts at zero. *)
Lemma iter_int_incr (n : nat) : Nat.iter n int_incr 0%Z = int_wrap (Z.of_nat n).
Proof.
  induction n as [| n IH]; [done |].
  rewrite Nat.iter_succ, IH, int_incr_wrap. f_equal. lia.
Qed.

(** ** [MPSC_Queue]: many producers, one consumer *)

Module MPSC_Queue.
Section Methods.
Context {T : Type}.

(** The loop of [clean_nodes]: [while (current) { ... }]. *)
Fixpoint clean_loop (fuel : nat) (current : ptr) : prog T unit :=
  match current with
  | None => Ret tt
  | Some _ =>
      match fuel with
      | O => Spin
      | S fuel' =>
          next_node ← act (LoadNext current);
          _ ← act (DeleteNode current);
          clean_loop fuel' next_node
      end
  end.

Definition clean_nodes (fuel : nat) (this : qref) : prog T unit :=
  current ← act (LoadHead this);
  clean_loop fuel current.

(** The loop of [size_approx]: [while (current != tail_node) { ... }]. *)
Fixpoint size_loop (fuel : nat) (count : Z) (current tail_node : ptr) : prog T Z :=
  if bool_decide (current = tail_node) then Ret count
  else
    match fuel with
    | O => Spin
    | S fuel' =>
        next ← act (LoadNext current);
        match next with
        | None => Ret count
        | Some _ => size_loop fuel' (int_incr count) next tail_node
        end
    end.

Definition size_approx (fuel : nat) (this : qref) : prog T Z :=
  current ← act (LoadHead this);
  tail_node ← act (LoadTail this);
  size_loop fuel 0%Z current tail_node.

Definition enqueue (this : qref) (value : T) : prog T unit :=
  new_node ← act (NewNode (Some value));
  prev_tail ← act (ExchangeTail this (Some new_node));
  act (StoreNext prev_tail (Some new_node)).

Definition dequeue (this : qref) : prog T (option T) :=
  h ← act (LoadHead this);
  next_node ← act (LoadNext h);
  match next_node with
  | None => Ret None
  | Some _ =>
      result ← act (MoveData next_node);
      h' ← act (LoadHead this);
      _ ← act (DeleteNode h');
      _ ← act (StoreHead this next_node);
      Ret result
  end.

Definition is_empty (this : qref) : prog T bool :=
  current_head ← act (LoadHead this);
  next_node ← act (LoadNext current_head);
  Ret (bool_decide (next_node = nullptr)).

(** [operator=(MPSC_Queue&& other)] *)
Definition move_assign (fuel : nat) (this other : qref) : prog T unit :=
  if bool_decide (this ≠ other) then
    _ ← clean_nodes fuel this;
    t ← act (LoadTail other);
    _ ← act (StoreTail this t);
    h ← act (LoadHead other);
    _ ← act (StoreHead this h);
    _ ← act (StoreTail other nullptr);
    act (StoreHead other nullptr)
  else Ret tt.

(** [MPSC_Queue(MPSC_Queue&& other)] *)
Definition move_construct (this other : qref) : prog T unit :=
  t ← act (LoadTail other);
  _ ← act (StoreTail this t);
  h ← act (LoadHead other);
  _ ← act (StoreHead this h);
  _ ← act (StoreTail other nullptr);
  act (StoreHead other nullptr).

(** [MPSC_Queue()] *)
Definition construct (this : qref) : prog T unit :=
  dummy ← act (NewNode None);
  _ ← act (StoreHead this (Some dummy));
  act (StoreTail this (Some dummy)).

(** [~MPSC_Queue()] *)
Definition destroy (fuel : nat) (this : qref) : prog T unit :=
  clean_nodes fuel this.

End Methods.
End MPSC_Queue.

(** ** [MPMC_Queue]: many producers, many consumers *)

Module MPMC_Queue.
Section Methods.
Context {T : Type}.

Fixpoint clean_loop (fuel : nat) (node : ptr) : prog T unit :=
  match node with
  | None => Ret tt
  | Some _ =>
      match fuel with
      | O => Spin
      | S fuel' =>
          next ← act (LoadNext node);
          _ ← act (DeleteNode node);
          clean_loop fuel' next
      end
  end.

Definition clean_nodes (fuel : nat) (this : qref) : prog T unit :=
  node ← act (LoadHead this);
  clean_loop fuel node.

Definition enqueue (this : qref) (value : T) : prog T unit :=
  new_node ← act (NewNode (Some value));
  _ ← act (StoreNext (Some new_node) nullptr);
  prev_tail ← act (ExchangeTail this (Some new_node));
  act (StoreNext prev_tail (Some new_node)).

(** [while (true) { ... }]: one unit of fuel per attempt. *)
Fixpoint dequeue (fuel : nat) (this : qref) : prog T (option T) :=
  match fuel with
  | O => Spin
  | S fuel' =>
      old_head ← act (LoadHead this);
      next_node ← act (LoadNext old_head);
      match next_node with
      | None => Ret None
      | Some _ =>
          ok ← act (CasHead this old_head next_node);
          if ok : bool then
            result ← act (MoveData next_node);
            _ ← act (DeleteNode old_head);
            Ret result
          else dequeue fuel' this
      end
  end.

Definition is_empty (this : qref) : prog T bool :=
  current_head ← act (LoadHead this);
  next_node ← act (LoadNext current_head);
  Ret (bool_decide (next_node = nullptr)).

Fixpoint size_loop (fuel : nat) (count : Z) (current tail_node : ptr) : prog T Z :=
  if bool_decide (current = tail_node) then Ret count
  else
    match fuel with
    | O => Spin
    | S fuel' =>
        next ← act (LoadNext current);
        match next with
        | None => Ret count
        | Some _ => size_loop fuel' (int_incr count) next tail_node
        end
    end.

Definition size_approx (fuel : nat) (this : qref) : prog T Z :=
  current ← act (LoadHead this);
  tail_node ← act (LoadTail this);
  size_loop fuel 0%Z current tail_node.

(** [operator=(MPMC_Queue&& other)] *)
Definition move_assign (fuel : nat) (this other : qref) : prog T unit :=
  if bool_decide (this ≠ other) then
    _ ← clean_nodes fuel this;
    h ← act (LoadHead other);
    _ ← act (StoreHead this h);
    t ← act (LoadTail other);
    _ ← act (StoreTail this t);
    _ ← act (StoreHead other nullptr);
    act (StoreTail other nullptr)
  else Ret tt.

(** [MPMC_Queue(MPMC_Queue&& other)] *)
Definition move_construct (this other : qref) : prog T unit :=
  h ← act (LoadHead other);
  _ ← act (StoreHead this h);
  t ← act (LoadTail other);
  _ ← act (StoreTail this t);
  _ ← act (StoreHead other nullptr);
  act (StoreTail other nullptr).

(** [MPMC_Queue()] *)
Definition construct (this : qref) : prog T unit :=
  dummy ← act (NewNode None);
  _ ← act (StoreHead this (Some dummy));
  act (StoreTail this (Some dummy)).

(** [~MPMC_Queue()] *)
Definition destroy (fuel : nat) (this : qref) : prog T unit :=
  clean_nodes fuel this.

End Methods.
End MPMC_Queue.

(** The nodes a run released, in order. *)
Fixpoint deleted (tr : list event) : list addr :=
  match tr with
  | [] => []
  | EvDelete (Some a) :: tr' => a :: deleted tr'
  | _ :: tr' => deleted tr'
  end.

(** The nodes a run made the tail, in order. *)
Fixpoint exchanged (tr : list event) : list addr :=
  match tr with
  | [] => []
  | EvExchangeTail _ (Some a) :: tr' => a :: exchanged tr'
  | _ :: tr' => exchanged tr'
  end.

(** The tail exchanges of a log, in order: the thread that performed each
    and the node it made the tail. *)
Fixpoint exchanges (log : list (nat * event)) : list (nat * addr) :=
  match log with
  | [] => []
  | (i, EvExchangeTail _ (Some a)) :: log' => (i, a) :: exchanges log'
  | _ :: log' => exchanges log'
  end.

(** What the tail exchanges of a log put behind the chain, in their order:
    the node of each exchange, with the value the thread that performed it
    was enqueuing. *)
Definition enqueued_by {T} (value_of : nat → option T) (log : list (nat * event))
  : list (addr * T) :=
  omap (λ ia, pair ia.2 <$> value_of ia.1) (exchanges log).

(** The value each thread is enqueuing, in a pool whose thread 0 is the
    consumer and whose threads 1, 2, ... enqueue the values of [vs]. *)
Definition behind_consumer {T} (vs : list T) (j : nat) : option T :=
  match j with
  | O => None
  | S i => vs !! i
  end.

(** The actions of one thread in a log. *)
Definition events_of (i : nat) (log : list (nat * event)) : list event :=
  (filter (λ ie, ie.1 = i) log).*2.

(** ** Running programs: basic facts *)

Section RunFacts.
Context {T : Type}.
Implicit Types (m : State T) (q this : qref) (a s : addr) (p : ptr).

Lemma run_bind {A B} (c : prog T A) (f : A → prog T B) m :
  run (c ≫= f) m =
  match run c m with
  | Ok x m' => run (f x) m'
  | Fault e => Fault e
  end.
Proof.
  unfold mbind, prog_bind.
  revert m. induction c as [x | | X e k IH]; intros m; simpl; try done.
  destruct (exec_op e m) as [x m' | e']; [apply IH | done].
Qed.

Lemma trace_bind {A B} (c : prog T A) (f : A → prog T B) m :
  trace (c ≫= f) m =
  trace c m ++
  match run c m with
  | Ok x m' => trace (f x) m'
  | Fault _ => []
  end.
Proof.
  unfold mbind, prog_bind.
  revert m. induction c as [x | | X e k IH]; intros m; simpl; try done.
  destruct (exec_op e m) as [x m' | e']; [| done].
  simpl. by rewrite IH.
Qed.

(** A program run alone is the same program stepped alone. *)
Lemma run_step {A} (c c' : prog T A) m m' :
  step c m = Ok c' m' → run c m = run c' m'.
Proof.
  destruct c as [x | | X e k]; simpl.
  - by intros [= <- <-].
  - by intros [= <- <-].
  - destruct (exec_op e m) as [x m1 | e']; [by intros [= <- <-] | done].
Qed.

Lemma step_fault {A} (c : prog T A) m e :
  step c m = Fault e → run c m = Fault e.
Proof.
  destruct c as [x | | X e' k]; simpl; try done.
  destruct (exec_op e' m); [done | by intros [= ->]].
Qed.

(** A run that returns is the interleaved run of the program alone, given
    enough turns. *)
Lemma run_interleave_alone {A} (c : prog T A) m (r : A) m' :
  run c m = Ok r m' → ∃ n, interleave (replicate n 0) [c] m = Ok [Ret r] m'.
Proof.
  revert m. induction c as [x | | X e k IH]; intros m; simpl.
  - intros [= -> ->]. by exists 0.
  - done.
  - destruct (exec_op e m) as [x m1 | e'] eqn:He; [| done].
    intros Hrun. destruct (IH x m1 Hrun) as [n Hn].
    exists (S n). simpl. by rewrite He.
Qed.

End RunFacts.

(** ** The chain of a quiescent queue *)

Section Chain.
Context {T : Type}.
Implicit Types (h : gmap addr (Node T)) (a s p : addr) (d : option T)
  (xs : list (addr * T)).

(** [lseg h p d xs]: in the heap [h] the node at [p] holds [d], the nodes
    after it are those of [xs], in order and each holding its element, and
    the last next-link is null. *)
Fixpoint lseg h p d xs : Prop :=
  match xs with
  | [] => h !! p = Some (mkNode d None)
  | (a, v) :: xs' => h !! p = Some (mkNode d (Some a)) ∧ lseg h a (Some v) xs'
  end.

Fixpoint last_addr p xs : addr :=
  match xs with
  | [] => p
  | (a, _) :: xs' => last_addr a xs'
  end.

Definition first_ptr xs : ptr :=
  match xs with
  | [] => None
  | (a, _) :: _ => Some a
  end.

Lemma lseg_lookup h p d xs :
  lseg h p d xs → h !! p = Some (mkNode d (first_ptr xs)).
Proof. destruct xs as [| [a v] xs]; simpl; tauto. Qed.

Lemma lseg_length h p d d' xs ys :
  lseg h p d xs → lseg h p d' ys → length xs = length ys.
Proof.
  revert p d d' ys. induction xs as [| [a v] xs IH]; intros p d d' [| [b w] ys]; simpl;
    try congruence.
  - intros H1 [H2 _]. congruence.
  - intros [H1 _] H2. congruence.
  - intros [H1 Hx] [H2 Hy]. f_equal.
    assert (a = b) as -> by congruence. eauto.
Qed.

Lemma lseg_suffix h p d xs b :
  lseg h p d xs → b ∈ xs.*1 →
  ∃ d' zs, lseg h b d' zs ∧ length zs < length xs.
Proof.
  revert p d. induction xs as [| [a v] xs IH]; intros p d; simpl.
  - intros _ Hb. by apply elem_of_nil in Hb.
  - intros [_ Hx] Hb. apply elem_of_cons in Hb as [-> | Hb].
    + exists (Some v), xs. split; [done | lia].
    + destruct (IH _ _ Hx Hb) as (d' & zs & Hz & Hlen).
      exists d', zs. split; [done | lia].
Qed.

Lemma lseg_not_in h p d xs : lseg h p d xs → p ∉ xs.*1.
Proof.
  intros Hp Hin. destruct (lseg_suffix _ _ _ _ _ Hp Hin) as (d' & zs & Hz & Hlen).
  pose proof (lseg_length _ _ _ _ _ _ Hp Hz). lia.
Qed.

Lemma lseg_NoDup h p d xs : lseg h p d xs → NoDup (p :: xs.*1).
Proof.
  revert p d. induction xs as [| [a v] xs IH]; intros p d Hp.
  - apply NoDup_singleton.
  - apply NoDup_cons. split; [by eapply lseg_not_in |].
    destruct Hp as [_ Hx]. by eapply IH.
Qed.

Lemma last_addr_in p xs : last_addr p xs ∈ p :: xs.*1.
Proof.
  revert p. induction xs as [| [a v] xs IH]; intros p; simpl.
  - apply list_elem_of_singleton. done.
  - apply elem_of_cons. right. apply IH.
Qed.

Lemma last_addr_snoc p xs a v : last_addr p (xs ++ [(a, v)]) = a.
Proof. revert p. induction xs as [| [b w] xs IH]; intros p; simpl; [done | apply IH]. Qed.

(** The last node of a chain has a null next-link. *)
Lemma lseg_last h p d xs :
  lseg h p d xs → ∃ d', h !! last_addr p xs = Some (mkNode d' None).
Proof.
  revert p d. induction xs as [| [a v] xs IH]; intros p d; simpl.
  - eauto.
  - intros [_ Hx]. eauto.
Qed.

(** Every node after the first holds its element. *)
Lemma lseg_data h p d xs a v :
  lseg h p d xs → (a, v) ∈ xs → ∃ nx, h !! a = Some (mkNode (Some v) nx).
Proof.
  revert p d. induction xs as [| [b w] xs IH]; intros p d; simpl.
  - intros _ Hin. by apply elem_of_nil in Hin.
  - intros [_ Hx] Hin. apply elem_of_cons in Hin as [[= -> ->] | Hin].
    + apply lseg_lookup in Hx. eauto.
    + eauto.
Qed.

(** A chain only depends on its own nodes. *)
Lemma lseg_agree h h' p d xs :
  (∀ b, b ∈ p :: xs.*1 → h' !! b = h !! b) → lseg h p d xs → lseg h' p d xs.
Proof.
  revert p d. induction xs as [| [a v] xs IH]; intros p d Hag; simpl.
  - intros <-. apply Hag. apply list_elem_of_singleton. done.
  - intros [Hp Hx]. split.
    + rewrite <- Hp. apply Hag. apply elem_of_cons. by left.
    + apply IH; [| done]. intros b Hb. apply Hag. simpl. apply elem_of_cons. by right.
Qed.

Lemma lseg_insert_ne h p d xs b n :
  b ∉ p :: xs.*1 → lseg h p d xs → lseg (<[b := n]> h) p d xs.
Proof.
  intros Hb. apply lseg_agree. intros c Hc. apply lookup_insert_ne. congruence.
Qed.

Lemma lseg_delete_ne h p d xs b :
  b ∉ p :: xs.*1 → lseg h p d xs → lseg (delete b h) p d xs.
Proof.
  intros Hb. apply lseg_agree. intros c Hc. apply lookup_delete_ne. congruence.
Qed.

(** Replacing what the first node holds. *)
Lemma lseg_set_data h p d d' xs :
  lseg h p d xs → lseg (<[p := mkNode d' (first_ptr xs)]> h) p d' xs.
Proof.
  intros Hp. pose proof (lseg_not_in _ _ _ _ Hp) as Hni.
  destruct xs as [| [a v] xs]; simpl in *.
  - apply lookup_insert_eq.
  - destruct Hp as [Hp Hx]. split; [apply lookup_insert_eq |].
    apply lseg_insert_ne; [| done].
    apply lseg_NoDup in Hx. intros Hin. apply Hni. done.
Qed.

(** Linking a node that is not part of the chain behind its last node. *)
Lemma lseg_snoc h p d xs a v d' :
  lseg h p d xs → a ∉ p :: xs.*1 →
  h !! last_addr p xs = Some (mkNode d' None) →
  lseg (<[last_addr p xs := mkNode d' (Some a)]> (<[a := mkNode (Some v) None]> h))
    p d (xs ++ [(a, v)]).
Proof.
  revert p d. induction xs as [| [b w] xs IH]; intros p d; simpl.
  - intros Hp Ha Hl. assert (d' = d) as -> by congruence.
    split; [apply lookup_insert_eq |].
    rewrite lookup_insert_ne, lookup_insert_eq; [done |].
    intros ->. apply Ha. apply list_elem_of_singleton. done.
  - intros [Hp Hx] Ha Hl. split.
    + rewrite !lookup_insert_ne; [done | |].
      * intros ->. apply Ha. apply elem_of_cons. by left.
      * intros <-. pose proof (lseg_not_in _ _ _ ((b, w) :: xs) (conj Hp Hx)) as Hni.
        apply Hni. apply (last_addr_in b xs).
    + apply IH; [done | | done].
      intros Hin. apply Ha. apply elem_of_cons. by right.
Qed.

(** The nodes that traversal from a node arrives at, following next-links
    through live nodes. *)
Inductive reaches h : addr → addr → Prop :=
| reaches_here a : reaches h a a
| reaches_next a n c b :
    h !! a = Some n → next n = Some c → reaches h c b → reaches h a b.

Lemma lseg_reaches h s d xs b :
  lseg h s d xs → reaches h s b ↔ b ∈ s :: xs.*1.
Proof.
  intros Hch. split.
  - intros Hr. revert d xs Hch. induction Hr as [a | a n c b Hn Hnext Hr IH];
      intros d xs Hch.
    + apply elem_of_cons. by left.
    + apply lseg_lookup in Hch as Ha. rewrite Hn in Ha. injection Ha as ->.
      simpl in Hnext. destruct xs as [| [c' v] xs]; [done |].
      injection Hnext as ->. destruct Hch as [_ Hch].
      apply elem_of_cons. right. by eapply IH.
  - revert s d Hch. induction xs as [| [a v] xs IH]; intros s d Hch Hin.
    + apply list_elem_of_singleton in Hin as ->. constructor.
    + apply elem_of_cons in Hin as [-> | Hin]; [constructor |].
      destruct Hch as [Hs Hch]. eapply reaches_next; [exact Hs | done |].
      by eapply IH.
Qed.

End Chain.

(** ** Quiescent queues *)

Section Quiescent.
Context {T : Type}.
Implicit Types (m : State T) (q this : qref) (a s : addr) (p : ptr)
  (xs : list (addr * T)).

(** [is_queue m this s xs]: the object [this] is a queue at rest whose
    sentinel is the node [s] and whose elements are those of [xs], oldest
    first, each with the node that carries it. *)
Record is_queue m this s xs : Prop := IsQueue {
  iq_obj : objs m !! this = Some (mkQueue (Some (last_addr s xs)) (Some s));
  iq_chain : lseg (nodes m) s None xs
}.

(** [m'] differs from [m] at most in the objects [qs] and the nodes [bs]. *)
Definition same_except m m' (qs : list qref) (bs : list addr) : Prop :=
  (∀ q, q ∉ qs → objs m' !! q = objs m !! q) ∧
  (∀ b, b ∉ bs → nodes m' !! b = nodes m !! b).

Lemma is_queue_frame m m' qs bs q s xs :
  same_except m m' qs bs → q ∉ qs → (∀ b, b ∈ s :: xs.*1 → b ∉ bs) →
  is_queue m q s xs → is_queue m' q s xs.
Proof.
  intros [Ho Hn] Hq Hb [Hobj Hch]. split.
  - by rewrite Ho.
  - eapply lseg_agree; [| done]. intros b Hin. apply Hn. by apply Hb.
Qed.

Lemma exec_LoadHead m q o :
  objs m !! q = Some o → exec_op (LoadHead q) m = Ok (head o) m.
Proof. intros H. simpl. unfold read_obj. by rewrite H. Qed.

Lemma exec_LoadTail m q o :
  objs m !! q = Some o → exec_op (LoadTail q) m = Ok (tail o) m.
Proof. intros H. simpl. unfold read_obj. by rewrite H. Qed.

Lemma exec_ExchangeTail m q o v :
  objs m !! q = Some o →
  exec_op (ExchangeTail q v) m = Ok (tail o) (write_obj q (with_tail v) m).
Proof. intros H. simpl. unfold read_obj. by rewrite H. Qed.

Lemma exec_LoadNext m a n :
  nodes m !! a = Some n → exec_op (LoadNext (Some a)) m = Ok (next n) m.
Proof. intros H. simpl. by rewrite H. Qed.

Lemma exec_StoreNext m a n v :
  nodes m !! a = Some n →
  exec_op (StoreNext (Some a) v) m =
  Ok tt (set_nodes (insert a (mkNode (data n) v)) m).
Proof. intros H. simpl. by rewrite H. Qed.

Lemma exec_MoveData m a n :
  nodes m !! a = Some n →
  exec_op (MoveData (Some a)) m =
  Ok (data n) (set_nodes (insert a (mkNode None (next n))) m).
Proof. intros H. simpl. by rewrite H. Qed.

Lemma exec_DeleteNode m a n :
  nodes m !! a = Some n →
  exec_op (DeleteNode (Some a)) m = Ok tt (set_nodes (delete a) m).
Proof. intros H. simpl. by rewrite H. Qed.

Lemma exec_NewNode m d :
  exec_op (NewNode d) m =
  Ok (fresh (dom (nodes m)))
     (set_nodes (insert (fresh (dom (nodes m))) (mkNode d None)) m).
Proof. done. Qed.

Lemma exec_StoreHead m q v :
  exec_op (StoreHead q v) m = Ok tt (write_obj q (with_head v) m).
Proof. done. Qed.

Lemma exec_StoreTail m q v :
  exec_op (StoreTail q v) m = Ok tt (write_obj q (with_tail v) m).
Proof. done. Qed.

Lemma objs_write_obj m q f :
  objs (write_obj q f m) =
  <[q := f (default (mkQueue None None) (objs m !! q))]> (objs m).
Proof. done. Qed.

(** A fresh address is none of the nodes of a live chain. *)
Lemma fresh_not_in_chain m s d xs :
  lseg (nodes m) s d xs → fresh (dom (nodes m)) ∉ s :: xs.*1.
Proof.
  intros Hch Hin.
  assert (is_Some (nodes m !! fresh (dom (nodes m)))) as Hs.
  { apply elem_of_cons in Hin as [-> | Hin].
    - apply lseg_lookup in Hch. rewrite Hch. eauto.
    - apply list_elem_of_fmap in Hin as ([b w] & -> & Hin).
      destruct (lseg_data _ _ _ _ _ _ Hch Hin) as [nx Hb]. simpl. rewrite Hb. eauto. }
  apply elem_of_dom in Hs. by apply is_fresh in Hs.
Qed.

End Quiescent.

Ltac prog_simpl :=
  cbn [mbind prog_bind mret prog_ret bind act run trace event_of
       tail head data next];
  repeat (first [rewrite exec_StoreHead | rewrite exec_StoreTail
                | rewrite exec_NewNode];
          cbn [mbind prog_bind mret prog_ret bind act run trace event_of
               tail head data next]).

(** ** Calls on a quiescent [MPSC_Queue] *)

Section MPSC_calls.
Context {T : Type}.
Implicit Types (m : State T) (q this : qref) (a s : addr) (p : ptr)
  (xs : list (addr * T)).

Lemma mpsc_construct_spec m this :
  let s := fresh (dom (nodes m)) in
  ∃ m', run (MPSC_Queue.construct this) m = Ok tt m' ∧
        is_queue m' this s [] ∧
        same_except m m' [this] [s] ∧ spurious m' = spurious m.
Proof.
  intros s. eexists. split; [reflexivity |]. split; [| split; [split |]].
  - split; simpl.
    + rewrite lookup_insert_eq. simpl. by rewrite lookup_insert_eq.
    + apply lookup_insert_eq.
  - intros q Hq. simpl. rewrite !lookup_insert_ne; [done | |];
      intros ->; apply Hq, list_elem_of_singleton; done.
  - intros b Hb. simpl. rewrite lookup_insert_ne; [done |].
    intros <-. apply Hb, list_elem_of_singleton. done.
  - done.
Qed.

Lemma mpsc_enqueue_spec m this s xs v :
  is_queue m this s xs →
  let a := fresh (dom (nodes m)) in
  ∃ m', run (MPSC_Queue.enqueue this v) m = Ok tt m' ∧
        trace (MPSC_Queue.enqueue this v) m =
          [EvNew a; EvExchangeTail this (Some a);
           EvStoreNext (Some (last_addr s xs)) (Some a)] ∧
        is_queue m' this s (xs ++ [(a, v)]) ∧
        same_except m m' [this] [a; last_addr s xs] ∧ spurious m' = spurious m.
Proof.
  intros [Hobj Hch] a.
  pose proof (fresh_not_in_chain _ _ _ _ Hch) as Hfresh. fold a in Hfresh.
  destruct (lseg_last _ _ _ _ Hch) as [d' Hl].
  assert (a ≠ last_addr s xs) as Hne.
  { intros Heq. apply Hfresh. rewrite Heq. apply last_addr_in. }
  unfold MPSC_Queue.enqueue. prog_simpl. fold a.
  rewrite (exec_ExchangeTail (set_nodes _ m) this _ (Some a) Hobj). prog_simpl.
  erewrite exec_StoreNext; last first.
  { simpl. rewrite lookup_insert_ne; [exact Hl | done]. }
  prog_simpl.
  eexists. split; [reflexivity |]. split; [reflexivity |].
  split; [split | split; [split |]]; simpl.
  - rewrite lookup_insert_eq, Hobj. simpl. by rewrite last_addr_snoc.
  - by apply lseg_snoc.
  - intros q Hq. rewrite lookup_insert_ne; [done |].
    intros ->. apply Hq, list_elem_of_singleton. done.
  - intros b Hb. rewrite !lookup_insert_ne; [done | |];
      intros <-; apply Hb; repeat constructor.
  - done.
Qed.

Lemma mpsc_dequeue_empty m this s :
  is_queue m this s [] →
  run (MPSC_Queue.dequeue this) m = Ok None m ∧
  trace (MPSC_Queue.dequeue this) m = [EvLoadHead this; EvLoadNext (Some s)].
Proof.
  intros [Hobj Hch]. simpl in Hch.
  unfold MPSC_Queue.dequeue. prog_simpl.
  rewrite (exec_LoadHead _ _ _ Hobj). prog_simpl.
  rewrite (exec_LoadNext _ _ _ Hch). prog_simpl. done.
Qed.

Lemma mpsc_dequeue_cons m this s a v xs :
  is_queue m this s ((a, v) :: xs) →
  ∃ m', run (MPSC_Queue.dequeue this) m = Ok (Some v) m' ∧
        trace (MPSC_Queue.dequeue this) m =
          [EvLoadHead this; EvLoadNext (Some s); EvMoveData (Some a);
           EvLoadHead this; EvDelete (Some s); EvStoreHead this (Some a)] ∧
        is_queue m' this a xs ∧
        same_except m m' [this] [s; a] ∧ nodes m' !! s = None ∧
        spurious m' = spurious m.
Proof.
  intros [Hobj Hch].
  pose proof (lseg_not_in _ _ _ _ Hch) as Hs.
  destruct Hch as [Hhead Hch]. pose proof (lseg_lookup _ _ _ _ Hch) as Ha.
  assert (s ≠ a) as Hsa.
  { intros ->. apply Hs. simpl. apply elem_of_cons. by left. }
  unfold MPSC_Queue.dequeue. prog_simpl.
  rewrite (exec_LoadHead _ _ _ Hobj). prog_simpl.
  rewrite (exec_LoadNext _ _ _ Hhead). prog_simpl.
  rewrite (exec_MoveData _ _ _ Ha). prog_simpl.
  rewrite (exec_LoadHead (set_nodes _ m) _ _ Hobj). prog_simpl.
  erewrite exec_DeleteNode; last first.
  { simpl. rewrite lookup_insert_ne; [exact Hhead | done]. }
  prog_simpl.
  eexists. split; [reflexivity |]. split; [reflexivity |].
  split; [split | split; [split | split]]; simpl.
  - by rewrite lookup_insert_eq, Hobj.
  - apply lseg_delete_ne; [done |]. by apply (lseg_set_data _ _ (Some v)).
  - intros q Hq. rewrite lookup_insert_ne; [done |].
    intros ->. apply Hq, list_elem_of_singleton. done.
  - intros b Hb. rewrite lookup_delete_ne, lookup_insert_ne; [done | |];
      intros <-; apply Hb; repeat constructor.
  - apply lookup_delete_eq.
  - done.
Qed.

Lemma mpsc_is_empty_spec m this s xs :
  is_queue m this s xs →
  run (MPSC_Queue.is_empty this) m = Ok (bool_decide (xs = [])) m ∧
  trace (MPSC_Queue.is_empty this) m = [EvLoadHead this; EvLoadNext (Some s)].
Proof.
  intros [Hobj Hch]. apply lseg_lookup in Hch.
  unfold MPSC_Queue.is_empty. prog_simpl.
  rewrite (exec_LoadHead _ _ _ Hobj). prog_simpl.
  rewrite (exec_LoadNext _ _ _ Hch). prog_simpl.
  split; [| done]. f_equal. by destruct xs as [| [a v] xs].
Qed.

(** The counting loop: one increment per link up to the tail snapshot. *)
Lemma mpsc_size_loop_spec m fuel count s d xs :
  lseg (nodes m) s d xs → length xs ≤ fuel →
  run (MPSC_Queue.size_loop fuel count (Some s) (Some (last_addr s xs))) m =
  Ok (Nat.iter (length xs) int_incr count) m.
Proof.
  revert fuel count s d. induction xs as [| [a v] xs IH]; intros fuel count s d Hch Hfuel.
  - destruct fuel; simpl; by rewrite bool_decide_eq_true_2.
  - pose proof (lseg_not_in _ _ _ _ Hch) as Hs. destruct Hch as [Hhead Hch].
    destruct fuel as [| fuel]; [simpl in Hfuel; lia |].
    cbn [MPSC_Queue.size_loop last_addr].
    rewrite bool_decide_eq_false_2; last first.
    { intros [= Heq]. apply Hs. rewrite Heq. apply (last_addr_in a xs). }
    prog_simpl. rewrite (exec_LoadNext _ _ _ Hhead). prog_simpl.
    rewrite (IH fuel _ a (Some v)); [| done | simpl in Hfuel; lia].
    f_equal. cbn [length]. by rewrite Nat.iter_succ_r.
Qed.

Lemma mpsc_size_approx_spec m fuel this s xs :
  is_queue m this s xs → length xs ≤ fuel →
  run (MPSC_Queue.size_approx fuel this) m =
  Ok (Nat.iter (length xs) int_incr 0%Z) m.
Proof.
  intros [Hobj Hch] Hfuel. unfold MPSC_Queue.size_approx. prog_simpl.
  rewrite (exec_LoadHead _ _ _ Hobj). prog_simpl.
  rewrite (exec_LoadTail _ _ _ Hobj). prog_simpl.
  by eapply mpsc_size_loop_spec.
Qed.

(** A moved-from object: both members are null. *)
Definition moved_from m q : Prop := objs m !! q = Some (mkQueue nullptr nullptr).

Lemma mpsc_clean_loop_spec m fuel s d xs :
  lseg (nodes m) s d xs → length xs < fuel →
  ∃ m', run (MPSC_Queue.clean_loop fuel (Some s)) m = Ok tt m' ∧
        deleted (trace (MPSC_Queue.clean_loop fuel (Some s)) m) = s :: xs.*1 ∧
        (∀ b, nodes m' !! b = if decide (b ∈ s :: xs.*1) then None else nodes m !! b) ∧
        objs m' = objs m ∧ spurious m' = spurious m.
Proof.
  revert m fuel s d. induction xs as [| [a v] xs IH]; intros m fuel s d Hch Hfuel;
    (destruct fuel as [| fuel]; [simpl in Hfuel; lia |]).
  - simpl in Hch. cbn [MPSC_Queue.clean_loop]. prog_simpl.
    rewrite (exec_LoadNext _ _ _ Hch). prog_simpl.
    rewrite (exec_DeleteNode _ _ _ Hch). prog_simpl.
    destruct fuel; prog_simpl;
      (eexists; split; [reflexivity |]; split; [reflexivity |];
       split; [| done]; intros b; simpl;
       destruct (decide (b ∈ [s])) as [Hin | Hin];
       [apply list_elem_of_singleton in Hin as ->; apply lookup_delete_eq
       | apply lookup_delete_ne; intros <-; apply Hin, list_elem_of_singleton; done]).
  - pose proof (lseg_not_in _ _ _ _ Hch) as Hs. destruct Hch as [Hhead Hch].
    cbn [MPSC_Queue.clean_loop]. prog_simpl.
    rewrite (exec_LoadNext _ _ _ Hhead). prog_simpl.
    rewrite (exec_DeleteNode _ _ _ Hhead). prog_simpl.
    destruct (IH (set_nodes (delete s) m) fuel a (Some v))
      as (m' & Hrun & Htr & Hn & Ho & Hsp).
    { simpl. by apply lseg_delete_ne. }
    { simpl in Hfuel. lia. }
    exists m'. split; [done |]. split; [cbn [deleted]; by rewrite Htr |].
    split; [| done].
    intros b. rewrite Hn. simpl.
    destruct (decide (b ∈ a :: xs.*1)) as [Hin | Hin].
    + rewrite decide_True; [done |]. apply elem_of_cons. by right.
    + destruct (decide (b = s)) as [-> | Hbs].
      * rewrite decide_True; [apply lookup_delete_eq |]. apply elem_of_cons. by left.
      * rewrite decide_False; [by apply lookup_delete_ne |].
        intros [-> | Hin']%elem_of_cons; done.
Qed.

Lemma mpsc_clean_nodes_spec m fuel this s xs :
  is_queue m this s xs → length xs < fuel →
  ∃ m', run (MPSC_Queue.clean_nodes fuel this) m = Ok tt m' ∧
        deleted (trace (MPSC_Queue.clean_nodes fuel this) m) = s :: xs.*1 ∧
        (∀ b, nodes m' !! b = if decide (b ∈ s :: xs.*1) then None else nodes m !! b) ∧
        objs m' = objs m ∧ spurious m' = spurious m.
Proof.
  intros [Hobj Hch] Hfuel. unfold MPSC_Queue.clean_nodes. prog_simpl.
  rewrite (exec_LoadHead _ _ _ Hobj). prog_simpl.
  by eapply mpsc_clean_loop_spec.
Qed.

(** On a moved-from object there is nothing to release. *)
Lemma mpsc_clean_nodes_moved m fuel this :
  moved_from m this →
  run (MPSC_Queue.clean_nodes fuel this) m = Ok tt m ∧
  trace (MPSC_Queue.clean_nodes fuel this) m = [EvLoadHead this].
Proof.
  intros Hobj. unfold MPSC_Queue.clean_nodes. prog_simpl.
  rewrite (exec_LoadHead _ _ _ Hobj). prog_simpl. by destruct fuel.
Qed.

(** The pointer hand-over of the move operations, once the destination
    has released what it held. *)
Lemma mpsc_move_assign_after_clean m m1 fuel this other s' ys :
  this ≠ other →
  run (MPSC_Queue.clean_nodes fuel this) m = Ok tt m1 →
  is_queue m1 other s' ys →
  ∃ m', run (MPSC_Queue.move_assign fuel this other) m = Ok tt m' ∧
        is_queue m' this s' ys ∧ moved_from m' other ∧
        nodes m' = nodes m1 ∧ spurious m' = spurious m1 ∧
        (∀ q, q ≠ this → q ≠ other → objs m' !! q = objs m1 !! q).
Proof.
  intros Hne Hclean [Hobj Hch].
  unfold MPSC_Queue.move_assign. rewrite bool_decide_eq_true_2 by done.
  rewrite run_bind, Hclean. prog_simpl.
  rewrite (exec_LoadTail _ _ _ Hobj). prog_simpl.
  erewrite exec_LoadHead; last first.
  { simpl. rewrite lookup_insert_ne by done. exact Hobj. }
  prog_simpl.
  eexists. split; [reflexivity |].
  split; [split | split; [| split; [| split]]]; simpl; try done.
  - rewrite lookup_insert_ne, lookup_insert_ne by done.
    rewrite lookup_insert_eq. simpl. by rewrite lookup_insert_eq.
  - unfold moved_from. simpl. rewrite lookup_insert_eq. simpl.
    by rewrite lookup_insert_eq.
  - intros q Hq1 Hq2. by rewrite !lookup_insert_ne.
Qed.

Lemma mpsc_move_construct_spec m this other s' ys :
  this ≠ other → is_queue m other s' ys →
  ∃ m', run (MPSC_Queue.move_construct this other) m = Ok tt m' ∧
        is_queue m' this s' ys ∧ moved_from m' other ∧
        nodes m' = nodes m ∧ spurious m' = spurious m ∧
        (∀ q, q ≠ this → q ≠ other → objs m' !! q = objs m !! q).
Proof.
  intros Hne [Hobj Hch].
  unfold MPSC_Queue.move_construct. prog_simpl.
  rewrite (exec_LoadTail _ _ _ Hobj). prog_simpl.
  erewrite exec_LoadHead; last first.
  { simpl. rewrite lookup_insert_ne by done. exact Hobj. }
  prog_simpl.
  eexists. split; [reflexivity |].
  split; [split | split; [| split; [| split]]]; simpl; try done.
  - rewrite lookup_insert_ne, lookup_insert_ne by done.
    rewrite lookup_insert_eq. simpl. by rewrite lookup_insert_eq.
  - unfold moved_from. simpl. rewrite lookup_insert_eq. simpl.
    by rewrite lookup_insert_eq.
  - intros q Hq1 Hq2. by rewrite !lookup_insert_ne.
Qed.

(** What a moved-from object does when used. *)
Lemma mpsc_moved_from_calls m this v fuel :
  moved_from m this →
  run (MPSC_Queue.enqueue this v) m = Fault NullDeref ∧
  run (MPSC_Queue.dequeue this) m = Fault NullDeref ∧
  run (MPSC_Queue.is_empty this) m = Fault NullDeref ∧
  run (MPSC_Queue.size_approx fuel this) m = Ok 0%Z m ∧
  run (MPSC_Queue.destroy fuel this) m = Ok tt m.
Proof.
  intros Hobj. repeat split.
  - unfold MPSC_Queue.enqueue. prog_simpl.
    by rewrite (exec_ExchangeTail (set_nodes _ m) this _ _ Hobj).
  - unfold MPSC_Queue.dequeue. prog_simpl. by rewrite (exec_LoadHead _ _ _ Hobj).
  - unfold MPSC_Queue.is_empty. prog_simpl. by rewrite (exec_LoadHead _ _ _ Hobj).
  - unfold MPSC_Queue.size_approx. prog_simpl.
    rewrite (exec_LoadHead _ _ _ Hobj). prog_simpl.
    rewrite (exec_LoadTail _ _ _ Hobj). prog_simpl. by destruct fuel.
  - by apply mpsc_clean_nodes_moved.
Qed.

(** The counting loop when the tail snapshot is not a node of the chain
    that starts at [head]: it stops at the null next-link. *)
Lemma mpsc_size_loop_early m fuel count s d xs (t : ptr) :
  lseg (nodes m) s d xs → (∀ b, b ∈ s :: xs.*1 → t ≠ Some b) → length xs < fuel →
  run (MPSC_Queue.size_loop fuel count (Some s) t) m =
  Ok (Nat.iter (length xs) int_incr count) m.
Proof.
  revert fuel count s d. induction xs as [| [a v] xs IH];
    intros fuel count s d Hch Ht Hfuel;
    (destruct fuel as [| fuel]; [simpl in Hfuel; lia |]);
    cbn [MPSC_Queue.size_loop];
    (rewrite bool_decide_eq_false_2;
      [| intros Heq; apply (Ht s); [apply elem_of_cons; by left | done]]).
  - simpl in Hch. prog_simpl. by rewrite (exec_LoadNext _ _ _ Hch).
  - destruct Hch as [Hhead Hch].
    prog_simpl. rewrite (exec_LoadNext _ _ _ Hhead). prog_simpl.
    rewrite (IH fuel _ a (Some v)); [| done | | simpl in Hfuel; lia].
    + f_equal. cbn [length]. by rewrite Nat.iter_succ_r.
    + intros b Hb. apply Ht. apply elem_of_cons. by right.
Qed.

(** Two queues whose chains share no node stay that way, and a call on one
    leaves the other as it is. *)
Lemma mpsc_enqueue_other m this q s xs s' ys v :
  is_queue m this s xs → is_queue m q s' ys → q ≠ this →
  (∀ b, b ∈ s :: xs.*1 → b ∉ s' :: ys.*1) →
  ∃ m' a, run (MPSC_Queue.enqueue this v) m = Ok tt m' ∧
          is_queue m' this s (xs ++ [(a, v)]) ∧ is_queue m' q s' ys ∧
          (∀ b, b ∈ s :: (xs ++ [(a, v)]).*1 → b ∉ s' :: ys.*1).
Proof.
  intros Hq Hother Hne Hdisj.
  destruct (mpsc_enqueue_spec _ _ _ _ v Hq) as (m' & Hrun & _ & Hq' & Hframe & _).
  pose proof (fresh_not_in_chain _ _ _ _ (iq_chain _ _ _ _ Hother)) as Hfresh.
  exists m', (fresh (dom (nodes m))). split; [done |]. split; [done |]. split.
  - eapply is_queue_frame; [exact Hframe | | | exact Hother].
    + by intros ->%list_elem_of_singleton.
    + intros b Hb [-> | [-> | []%elem_of_nil]%elem_of_cons]%elem_of_cons; [done |].
      by apply (Hdisj (last_addr s xs) (last_addr_in s xs)).
  - intros b Hb. rewrite fmap_app in Hb. simpl in Hb.
    apply elem_of_cons in Hb as [-> | Hb]; [apply Hdisj; apply elem_of_cons; by left |].
    apply elem_of_app in Hb as [Hb | ->%list_elem_of_singleton]; [| done].
    apply Hdisj. apply elem_of_cons. by right.
Qed.

Lemma mpsc_dequeue_other m this q s a v xs s' ys :
  is_queue m this s ((a, v) :: xs) → is_queue m q s' ys → q ≠ this →
  (∀ b, b ∈ s :: ((a, v) :: xs).*1 → b ∉ s' :: ys.*1) →
  ∃ m', run (MPSC_Queue.dequeue this) m = Ok (Some v) m' ∧
        is_queue m' this a xs ∧ is_queue m' q s' ys ∧
        (∀ b, b ∈ a :: xs.*1 → b ∉ s' :: ys.*1).
Proof.
  intros Hq Hother Hne Hdisj.
  destruct (mpsc_dequeue_cons _ _ _ _ _ _ Hq) as (m' & Hrun & _ & Hq' & Hframe & _).
  exists m'. split; [done |]. split; [done |]. split.
  - eapply is_queue_frame; [exact Hframe | | | exact Hother].
    + by intros ->%list_elem_of_singleton.
    + intros b Hb [-> | [-> | []%elem_of_nil]%elem_of_cons]%elem_of_cons.
      * apply (Hdisj s); [apply elem_of_cons; by left | done].
      * apply (Hdisj a); [| done]. apply elem_of_cons. right. apply elem_of_cons. by left.
  - intros b Hb. apply Hdisj. apply elem_of_cons. by right.
Qed.

End MPSC_calls.

(** ** Calls on a quiescent [MPMC_Queue] *)

(** The spurious failures the next compare-and-swap calls will meet before
    one can succeed. *)
Fixpoint leading_failures (l : list bool) : nat :=
  match l with
  | true :: l' => S (leading_failures l')
  | _ => O
  end.

Section MPMC_calls.
Context {T : Type}.
Implicit Types (m : State T) (q this : qref) (a s : addr) (p : ptr)
  (xs : list (addr * T)).

(** The methods that are written alike in both classes are the same
    programs. *)
Lemma mpmc_same_programs :
  @MPMC_Queue.clean_nodes T = MPSC_Queue.clean_nodes ∧
  @MPMC_Queue.destroy T = MPSC_Queue.destroy ∧
  @MPMC_Queue.construct T = MPSC_Queue.construct ∧
  @MPMC_Queue.is_empty T = MPSC_Queue.is_empty ∧
  @MPMC_Queue.size_approx T = MPSC_Queue.size_approx.
Proof. repeat split. Qed.

(** [MPMC_Queue::enqueue] stores null into the next-link of the node it has
    just allocated, which is null already. *)
Lemma mpmc_enqueue_run m this v :
  run (MPMC_Queue.enqueue this v) m = run (MPSC_Queue.enqueue this v) m.
Proof.
  unfold MPMC_Queue.enqueue, MPSC_Queue.enqueue. prog_simpl.
  erewrite exec_StoreNext; last first.
  { simpl. apply lookup_insert_eq. }
  prog_simpl.
  replace (set_nodes _ (set_nodes _ m))
    with (set_nodes (insert (fresh (dom (nodes m))) (mkNode (Some v) None)) m);
    [done |].
  unfold set_nodes. simpl. by rewrite insert_insert_eq.
Qed.

Lemma mpmc_enqueue_trace m this s xs v :
  is_queue m this s xs →
  let a := fresh (dom (nodes m)) in
  trace (MPMC_Queue.enqueue this v) m =
    [EvNew a; EvStoreNext (Some a) nullptr; EvExchangeTail this (Some a);
     EvStoreNext (Some (last_addr s xs)) (Some a)].
Proof.
  intros [Hobj Hch] a.
  pose proof (fresh_not_in_chain _ _ _ _ Hch) as Hfresh. fold a in Hfresh.
  destruct (lseg_last _ _ _ _ Hch) as [d' Hl].
  assert (a ≠ last_addr s xs) as Hne.
  { intros Heq. apply Hfresh. rewrite Heq. apply last_addr_in. }
  unfold MPMC_Queue.enqueue. prog_simpl. fold a.
  erewrite exec_StoreNext; last first.
  { simpl. apply lookup_insert_eq. }
  prog_simpl.
  rewrite (exec_ExchangeTail (set_nodes _ (set_nodes _ m)) this _ (Some a) Hobj).
  prog_simpl.
  erewrite exec_StoreNext; last first.
  { simpl. rewrite insert_insert_eq, lookup_insert_ne; [exact Hl | done]. }
  done.
Qed.

Lemma exec_CasHead_ok m q o e d :
  objs m !! q = Some o → head o = e → leading_failures (spurious m) = O →
  exec_op (CasHead q e d) m =
  Ok true (write_obj q (with_head d)
             (mkState (nodes m) (objs m) (tl (spurious m)))).
Proof.
  intros Hobj <- Hsp. simpl. unfold read_obj. rewrite Hobj.
  rewrite bool_decide_eq_true_2 by done.
  by destruct (spurious m) as [| [] l].
Qed.

Lemma exec_CasHead_spurious m q o e d :
  objs m !! q = Some o → leading_failures (spurious m) ≠ O →
  exec_op (CasHead q e d) m = Ok false (mkState (nodes m) (objs m) (tl (spurious m))).
Proof.
  intros Hobj Hsp. simpl. unfold read_obj. rewrite Hobj.
  destruct (spurious m) as [| [] l]; simpl in *; try done.
  by rewrite andb_false_r.
Qed.

Lemma mpmc_dequeue_empty m fuel this s :
  is_queue m this s [] →
  run (MPMC_Queue.dequeue (S fuel) this) m = Ok None m ∧
  trace (MPMC_Queue.dequeue (S fuel) this) m = [EvLoadHead this; EvLoadNext (Some s)].
Proof.
  intros [Hobj Hch]. simpl in Hch.
  cbn [MPMC_Queue.dequeue]. prog_simpl.
  rewrite (exec_LoadHead _ _ _ Hobj). prog_simpl.
  rewrite (exec_LoadNext _ _ _ Hch). prog_simpl. done.
Qed.

Lemma mpmc_dequeue_cons m fuel this s a v xs :
  is_queue m this s ((a, v) :: xs) → leading_failures (spurious m) < fuel →
  ∃ m', run (MPMC_Queue.dequeue fuel this) m = Ok (Some v) m' ∧
        is_queue m' this a xs ∧
        same_except m m' [this] [s; a] ∧ nodes m' !! s = None ∧
        spurious m' = drop (S (leading_failures (spurious m))) (spurious m).
Proof.
  revert m. induction fuel as [| fuel IH]; intros m Hq Hfuel; [lia |].
  pose proof Hq as [Hobj Hch].
  pose proof (lseg_not_in _ _ _ _ Hch) as Hs.
  destruct Hch as [Hhead Hch]. pose proof (lseg_lookup _ _ _ _ Hch) as Ha.
  assert (s ≠ a) as Hsa.
  { intros ->. apply Hs. simpl. apply elem_of_cons. by left. }
  cbn [MPMC_Queue.dequeue]. prog_simpl.
  rewrite (exec_LoadHead _ _ _ Hobj). prog_simpl.
  rewrite (exec_LoadNext _ _ _ Hhead). prog_simpl.
  destruct (decide (leading_failures (spurious m) = O)) as [Hz | Hnz].
  - rewrite (exec_CasHead_ok _ _ _ (Some s) (Some a) Hobj eq_refl Hz). prog_simpl.
    erewrite exec_MoveData; last first.
    { simpl. exact Ha. }
    prog_simpl.
    erewrite exec_DeleteNode; last first.
    { simpl. rewrite lookup_insert_ne; [exact Hhead | done]. }
    prog_simpl.
    eexists. split; [reflexivity |].
    split; [split | split; [split | split]]; simpl.
    + by rewrite lookup_insert_eq, Hobj.
    + apply lseg_delete_ne; [done |]. by apply (lseg_set_data _ _ (Some v)).
    + intros q Hq'. rewrite lookup_insert_ne; [done |].
      intros ->. apply Hq', list_elem_of_singleton. done.
    + intros b Hb. rewrite lookup_delete_ne, lookup_insert_ne; [done | |];
        intros <-; apply Hb; repeat constructor.
    + apply lookup_delete_eq.
    + rewrite Hz. by destruct (spurious m).
  - rewrite (exec_CasHead_spurious _ _ _ _ _ Hobj Hnz). prog_simpl.
    destruct (spurious m) as [| [] l] eqn:Hsp; simpl in Hnz, Hfuel; try done.
    destruct (IH (mkState (nodes m) (objs m) l)) as (m' & Hrun & Hq' & Hfr & Hfree & Hsp').
    { by split. }
    { simpl. lia. }
    exists m'. simpl in *. by rewrite Hrun.
Qed.

(** The move operations of the two classes assign the same members, in a
    different order. *)
Lemma move_pointers_run m this other :
  this ≠ other →
  run (h ← act (LoadHead other);
       _ ← act (StoreHead this h);
       t ← act (LoadTail other);
       _ ← act (StoreTail this t);
       _ ← act (StoreHead other nullptr);
       act (StoreTail other nullptr)) m =
  run (t ← act (LoadTail other);
       _ ← act (StoreTail this t);
       h ← act (LoadHead other);
       _ ← act (StoreHead this h);
       _ ← act (StoreTail other nullptr);
       act (StoreHead other nullptr)) m.
Proof.
  intros Hne. prog_simpl.
  destruct (objs m !! other) as [o |] eqn:Hother; last first.
  { cbn [exec_op]. unfold read_obj. by rewrite Hother. }
  rewrite (exec_LoadHead _ _ _ Hother), (exec_LoadTail _ _ _ Hother). prog_simpl.
  erewrite exec_LoadTail; last first.
  { simpl. rewrite lookup_insert_ne by done. exact Hother. }
  erewrite exec_LoadHead; last first.
  { simpl. rewrite lookup_insert_ne by done. exact Hother. }
  prog_simpl.
  f_equal. unfold write_obj, set_objs. simpl. f_equal.
  rewrite !lookup_insert_eq. simpl.
  rewrite !(lookup_insert_ne _ this other) by done.
  rewrite ?lookup_insert_eq. simpl.
  by rewrite !insert_insert_eq.
Qed.

Lemma mpmc_move_assign_run m fuel this other :
  run (MPMC_Queue.move_assign fuel this other) m =
  run (MPSC_Queue.move_assign fuel this other) m.
Proof.
  unfold MPMC_Queue.move_assign, MPSC_Queue.move_assign.
  case_bool_decide as Hne; [| done].
  rewrite !run_bind. change (@MPMC_Queue.clean_nodes T) with (@MPSC_Queue.clean_nodes T).
  destruct (run (MPSC_Queue.clean_nodes fuel this) m) as [[] m1 | e]; [| done].
  by apply move_pointers_run.
Qed.

Lemma mpmc_move_construct_run m this other :
  this ≠ other →
  run (MPMC_Queue.move_construct this other) m =
  run (MPSC_Queue.move_construct this other) m.
Proof. apply move_pointers_run. Qed.

End MPMC_calls.

(** ** Sequences of calls by one caller *)

(** A call of a client of the queue. *)
Inductive call (T : Type) : Type :=
| Enq (v : T)
| Deq.
Global Arguments Enq {T} v.
Global Arguments Deq {T}.

(** What a first-in-first-out queue holding [contents] answers to the
    [Deq] calls of [cs], and what it holds afterwards. *)
Fixpoint fifo {T} (contents : list T) (cs : list (call T)) : list (option T) :=
  match cs with
  | [] => []
  | Enq v :: cs' => fifo (contents ++ [v]) cs'
  | Deq :: cs' =>
      match contents with
      | [] => None :: fifo [] cs'
      | x :: rest => Some x :: fifo rest cs'
      end
  end.

Fixpoint fifo_contents {T} (contents : list T) (cs : list (call T)) : list T :=
  match cs with
  | [] => contents
  | Enq v :: cs' => fifo_contents (contents ++ [v]) cs'
  | Deq :: cs' => fifo_contents (tl contents) cs'
  end.

Section Clients.
Context {T : Type}.
Variable enq : qref → T → prog T unit.
Variable deq : qref → prog T (option T).

Fixpoint enqueue_all (this : qref) (vs : list T) : prog T unit :=
  match vs with
  | [] => Ret tt
  | v :: vs' => _ ← enq this v; enqueue_all this vs'
  end.

Fixpoint dequeue_n (this : qref) (n : nat) : prog T (list (option T)) :=
  match n with
  | O => Ret []
  | S n' => r ← deq this; rs ← dequeue_n this n'; Ret (r :: rs)
  end.

(** The calls of [cs] one after the other; the answers of the [Deq]s. *)
Fixpoint perform (this : qref) (cs : list (call T)) : prog T (list (option T)) :=
  match cs with
  | [] => Ret []
  | Enq v :: cs' => _ ← enq this v; perform this cs'
  | Deq :: cs' => r ← deq this; rs ← perform this cs'; Ret (r :: rs)
  end.

(** What the lemmas below need of the two methods; [ok] is what a caller
    must keep true of the state for [deq] to return. *)
Variable ok : State T → Prop.
Hypothesis enq_spec : ∀ m this s xs v,
  ok m → is_queue m this s xs →
  ∃ m' a, run (enq this v) m = Ok tt m' ∧ ok m' ∧ is_queue m' this s (xs ++ [(a, v)]).
Hypothesis deq_empty : ∀ m this s,
  ok m → is_queue m this s [] → run (deq this) m = Ok None m.
Hypothesis deq_cons : ∀ m this s a v xs,
  ok m → is_queue m this s ((a, v) :: xs) →
  ∃ m', run (deq this) m = Ok (Some v) m' ∧ ok m' ∧ is_queue m' this a xs.

Lemma perform_spec m this s xs cs :
  ok m → is_queue m this s xs →
  ∃ m' s' xs', run (perform this cs) m = Ok (fifo xs.*2 cs) m' ∧
               ok m' ∧ is_queue m' this s' xs' ∧ xs'.*2 = fifo_contents xs.*2 cs.
Proof using enq_spec deq_empty deq_cons.
  revert m s xs. induction cs as [| [v |] cs IH]; intros m s xs Hok Hq.
  - exists m, s, xs. done.
  - destruct (enq_spec _ _ _ _ v Hok Hq) as (m1 & a & Hrun & Hok1 & Hq1).
    destruct (IH _ _ _ Hok1 Hq1) as (m' & s' & xs' & Hrun' & Hok' & Hq' & Hc).
    exists m', s', xs'. cbn [perform fifo fifo_contents].
    rewrite run_bind, Hrun, Hrun'.
    rewrite fmap_app in Hc |- *. done.
  - destruct xs as [| [a v] xs].
    + pose proof (deq_empty _ _ _ Hok Hq) as Hrun.
      destruct (IH _ _ _ Hok Hq) as (m' & s' & xs' & Hrun' & Hok' & Hq' & Hc).
      exists m', s', xs'. cbn [perform fifo fifo_contents].
      rewrite run_bind, Hrun, run_bind, Hrun'. done.
    + destruct (deq_cons _ _ _ _ _ _ Hok Hq) as (m1 & Hrun & Hok1 & Hq1).
      destruct (IH _ _ _ Hok1 Hq1) as (m' & s' & xs' & Hrun' & Hok' & Hq' & Hc).
      exists m', s', xs'. cbn [perform fifo fifo_contents].
      rewrite run_bind, Hrun, run_bind, Hrun'. done.
Qed.

Lemma enqueue_all_spec m this s xs vs :
  ok m → is_queue m this s xs →
  ∃ m' ys, run (enqueue_all this vs) m = Ok tt m' ∧ ok m' ∧
           is_queue m' this s (xs ++ ys) ∧ ys.*2 = vs.
Proof using enq_spec.
  revert m xs. induction vs as [| v vs IH]; intros m xs Hok Hq.
  - exists m, []. rewrite app_nil_r. done.
  - destruct (enq_spec _ _ _ _ v Hok Hq) as (m1 & a & Hrun & Hok1 & Hq1).
    destruct (IH _ _ Hok1 Hq1) as (m' & ys & Hrun' & Hok' & Hq' & Hys).
    exists m', ((a, v) :: ys). cbn [enqueue_all].
    rewrite run_bind, Hrun, Hrun'. rewrite <- app_assoc in Hq'.
    split; [done |]. split; [done |]. split; [done |]. by rewrite fmap_cons, Hys.
Qed.

(** Draining: as many [dequeue]s as there are elements, and then some. *)
Lemma dequeue_n_spec m this s xs k :
  ok m → is_queue m this s xs →
  ∃ m', run (dequeue_n this (length xs + k)) m =
          Ok ((Some <$> xs.*2) ++ replicate k None) m' ∧
        ok m' ∧ is_queue m' this (last_addr s xs) [].
Proof using deq_empty deq_cons.
  revert m s. induction xs as [| [a v] xs IH]; intros m s Hok Hq.
  - simpl. induction k as [| k IHk].
    + exists m. done.
    + destruct IHk as (m' & Hrun' & Hok' & Hq').
      exists m'. cbn [dequeue_n replicate].
      rewrite run_bind, (deq_empty _ _ _ Hok Hq), run_bind, Hrun'. done.
  - destruct (deq_cons _ _ _ _ _ _ Hok Hq) as (m1 & Hrun & Hok1 & Hq1).
    destruct (IH _ _ Hok1 Hq1) as (m' & Hrun' & Hok' & Hq').
    exists m'. cbn [length Nat.add dequeue_n].
    rewrite run_bind, Hrun, run_bind, Hrun'. done.
Qed.

End Clients.

(** ** The two classes as clients see them *)

Section Instances.
Context {T : Type}.
Implicit Types (m : State T) (q this : qref) (a s : addr)
  (xs : list (addr * T)).

Lemma leading_failures_le (l : list bool) : leading_failures l ≤ length l.
Proof. induction l as [| [] l IH]; simpl; lia. Qed.

Lemma length_drop_le {A} (l : list A) n : length (drop n l) ≤ length l.
Proof. rewrite length_drop. lia. Qed.

Definition always (m : State T) : Prop := True.

(** A caller of [MPMC_Queue::dequeue] gives every call more attempts than
    there are spurious failures in store. *)
Definition enough_fuel (fuel : nat) (m : State T) : Prop :=
  length (spurious m) < fuel.

Lemma mpsc_enq_ok m this s xs v :
  always m → is_queue m this s xs →
  ∃ m' a, run (MPSC_Queue.enqueue this v) m = Ok tt m' ∧ always m' ∧
          is_queue m' this s (xs ++ [(a, v)]).
Proof.
  intros _ Hq. destruct (mpsc_enqueue_spec _ _ _ _ v Hq) as (m' & Hrun & _ & Hq' & _).
  by exists m', (fresh (dom (nodes m))).
Qed.

Lemma mpsc_deq_empty_ok m this s :
  always m → is_queue m this s [] → run (MPSC_Queue.dequeue this) m = Ok None m.
Proof. intros _ Hq. by apply mpsc_dequeue_empty in Hq as [? _]. Qed.

Lemma mpsc_deq_cons_ok m this s a v xs :
  always m → is_queue m this s ((a, v) :: xs) →
  ∃ m', run (MPSC_Queue.dequeue this) m = Ok (Some v) m' ∧ always m' ∧
        is_queue m' this a xs.
Proof.
  intros _ Hq. destruct (mpsc_dequeue_cons _ _ _ _ _ _ Hq) as (m' & Hrun & _ & Hq' & _).
  by exists m'.
Qed.

Lemma mpmc_enq_ok fuel m this s xs v :
  enough_fuel fuel m → is_queue m this s xs →
  ∃ m' a, run (MPMC_Queue.enqueue this v) m = Ok tt m' ∧ enough_fuel fuel m' ∧
          is_queue m' this s (xs ++ [(a, v)]).
Proof.
  intros Hok Hq.
  destruct (mpsc_enqueue_spec _ _ _ _ v Hq) as (m' & Hrun & _ & Hq' & _ & Hsp).
  exists m', (fresh (dom (nodes m))). rewrite mpmc_enqueue_run.
  unfold enough_fuel in *. by rewrite Hsp.
Qed.

Lemma mpmc_deq_empty_ok fuel m this s :
  enough_fuel fuel m → is_queue m this s [] →
  run (MPMC_Queue.dequeue fuel this) m = Ok None m.
Proof.
  unfold enough_fuel. intros Hok Hq.
  destruct fuel as [| fuel]; [lia |]. by apply (mpmc_dequeue_empty _ fuel) in Hq as [? _].
Qed.

Lemma mpmc_deq_cons_ok fuel m this s a v xs :
  enough_fuel fuel m → is_queue m this s ((a, v) :: xs) →
  ∃ m', run (MPMC_Queue.dequeue fuel this) m = Ok (Some v) m' ∧
        enough_fuel fuel m' ∧ is_queue m' this a xs.
Proof.
  unfold enough_fuel. intros Hok Hq.
  pose proof (leading_failures_le (spurious m)) as Hle.
  destruct (mpmc_dequeue_cons _ fuel _ _ _ _ _ Hq) as (m' & Hrun & Hq' & _ & _ & Hsp);
    [lia |].
  exists m'. split; [done |]. split; [| done].
  rewrite Hsp. pose proof (length_drop_le (spurious m) (S (leading_failures (spurious m)))).
  lia.
Qed.

(** Any sequence of calls by one caller is answered as a first-in-first-out
    queue answers it. *)
Lemma mpsc_refines_fifo m this s xs cs :
  is_queue m this s xs →
  ∃ m' s' xs',
    run (perform MPSC_Queue.enqueue MPSC_Queue.dequeue this cs) m =
      Ok (fifo xs.*2 cs) m' ∧
    is_queue m' this s' xs' ∧ xs'.*2 = fifo_contents xs.*2 cs.
Proof.
  intros Hq.
  destruct (perform_spec _ _ always mpsc_enq_ok mpsc_deq_empty_ok mpsc_deq_cons_ok
              m this s xs cs I Hq) as (m' & s' & xs' & Hrun & _ & Hq' & Hc).
  by exists m', s', xs'.
Qed.

Lemma mpmc_refines_fifo fuel m this s xs cs :
  length (spurious m) < fuel → is_queue m this s xs →
  ∃ m' s' xs',
    run (perform MPMC_Queue.enqueue (MPMC_Queue.dequeue fuel) this cs) m =
      Ok (fifo xs.*2 cs) m' ∧
    is_queue m' this s' xs' ∧ xs'.*2 = fifo_contents xs.*2 cs.
Proof.
  intros Hok Hq.
  destruct (perform_spec _ _ (enough_fuel fuel) (mpmc_enq_ok fuel)
              (mpmc_deq_empty_ok fuel) (mpmc_deq_cons_ok fuel)
              m this s xs cs Hok Hq) as (m' & s' & xs' & Hrun & _ & Hq' & Hc).
  by exists m', s', xs'.
Qed.

(** What an object holds before it is assigned to: the chain of a queue,
    or nothing when it has been moved from. *)
Definition holds_chain m this (chain : list addr) : Prop :=
  (∃ s xs, is_queue m this s xs ∧ chain = s :: xs.*1) ∨
  (moved_from m this ∧ chain = []).

Lemma clean_nodes_holds_chain m fuel this chain :
  holds_chain m this chain → length chain ≤ fuel →
  ∃ m', run (MPSC_Queue.clean_nodes fuel this) m = Ok tt m' ∧
        (∀ b, b ∉ chain → nodes m' !! b = nodes m !! b) ∧
        (∀ b, b ∈ chain → nodes m' !! b = None) ∧
        objs m' = objs m ∧ spurious m' = spurious m.
Proof.
  intros [(s & xs & Hq & ->) | [Hmoved ->]] Hfuel.
  - destruct (mpsc_clean_nodes_spec _ fuel _ _ _ Hq) as (m' & Hrun & _ & Hn & Ho & Hsp).
    { simpl in Hfuel. rewrite length_fmap in Hfuel. lia. }
    exists m'. split; [done |]. split; [| split; [| done]]; intros b Hb; rewrite Hn.
    + by rewrite decide_False.
    + by rewrite decide_True.
  - exists m. split; [by apply mpsc_clean_nodes_moved |].
    split; [done |]. split; [| done]. intros b Hb. by apply elem_of_nil in Hb.
Qed.

Lemma mpmc_moved_from_dequeue m this fuel :
  moved_from m this → run (MPMC_Queue.dequeue (S fuel) this) m = Fault NullDeref.
Proof.
  intros Hobj. cbn [MPMC_Queue.dequeue]. prog_simpl.
  by rewrite (exec_LoadHead _ _ _ Hobj).
Qed.

End Instances.

(** ** Concurrent producers *)

(** Between the tail exchange of an [enqueue] and its store to the
    next-link of the previous tail, the new node is the tail but is not yet
    linked.  [pchain h U p d xs] is the chain in the order of the tail
    exchanges, in which the nodes of [U] are not linked yet: the next-link
    before each of them is still null. *)
Section Pending.
Context {T : Type}.
Implicit Types (h : gmap addr (Node T)) (U : list addr) (a s p : addr)
  (d : option T) (xs : list (addr * T)).

Fixpoint pchain h U p d xs : Prop :=
  match xs with
  | [] => h !! p = Some (mkNode d None)
  | (a, v) :: xs' =>
      h !! p = Some (mkNode d (if decide (a ∈ U) then None else Some a)) ∧
      pchain h U a (Some v) xs'
  end.

Lemma pchain_nil h p d xs : pchain h [] p d xs ↔ lseg h p d xs.
Proof.
  revert p d. induction xs as [| [a v] xs IH]; intros p d; simpl; [done |].
  by rewrite IH.
Qed.

Lemma pchain_ext h U U' p d xs :
  (∀ a, a ∈ xs.*1 → a ∈ U ↔ a ∈ U') → pchain h U p d xs → pchain h U' p d xs.
Proof.
  revert p d. induction xs as [| [a v] xs IH]; intros p d HU; simpl; [done |].
  intros [Hp Hx]. split.
  - rewrite Hp. repeat f_equal.
    assert (a ∈ U ↔ a ∈ U') as Ha by (apply HU; simpl; apply elem_of_cons; by left).
    destruct (decide (a ∈ U)), (decide (a ∈ U')); tauto.
  - apply IH; [| done]. intros b Hb. apply HU. simpl. apply elem_of_cons. by right.
Qed.

Lemma pchain_agree h h' U p d xs :
  (∀ b, b ∈ p :: xs.*1 → h' !! b = h !! b) → pchain h U p d xs → pchain h' U p d xs.
Proof.
  revert p d. induction xs as [| [a v] xs IH]; intros p d Hag; simpl.
  - intros <-. apply Hag. apply list_elem_of_singleton. done.
  - intros [Hp Hx]. split.
    + rewrite <- Hp. apply Hag. apply elem_of_cons. by left.
    + apply IH; [| done]. intros b Hb. apply Hag. simpl. apply elem_of_cons. by right.
Qed.

Lemma pchain_live h U p d xs b :
  pchain h U p d xs → b ∈ p :: xs.*1 → is_Some (h !! b).
Proof.
  revert p d. induction xs as [| [a v] xs IH]; intros p d; simpl.
  - intros Hp ->%list_elem_of_singleton. eauto.
  - intros [Hp Hx] [-> | Hb]%elem_of_cons; [eauto |]. by eapply IH.
Qed.

Lemma pchain_last h U p d xs :
  pchain h U p d xs → ∃ d', h !! last_addr p xs = Some (mkNode d' None).
Proof.
  revert p d. induction xs as [| [a v] xs IH]; intros p d; simpl.
  - eauto.
  - intros [_ Hx]. eauto.
Qed.

(** The tail exchange puts the new node behind the chain, not linked. *)
Lemma pchain_snoc h U U' p d xs a v :
  pchain h U p d xs →
  h !! a = Some (mkNode (Some v) None) →
  (∀ b, b ∈ xs.*1 → b ∈ U ↔ b ∈ U') → a ∈ U' →
  pchain h U' p d (xs ++ [(a, v)]).
Proof.
  revert p d. induction xs as [| [b w] xs IH]; intros p d; simpl.
  - intros Hp Ha _ HaU. by rewrite decide_True.
  - intros [Hp Hx] Ha HU HaU. split.
    + rewrite Hp. repeat f_equal.
      assert (b ∈ U ↔ b ∈ U') as Hb by (apply HU; apply elem_of_cons; by left).
      destruct (decide (b ∈ U)), (decide (b ∈ U')); tauto.
    + apply IH; [done | done | | done].
      intros c Hc. apply HU. apply elem_of_cons. by right.
Qed.

(** The store to the next-link of the previous tail links the node. *)
Lemma pchain_link h U U' p d l1 a v l2 dp :
  pchain h U p d (l1 ++ (a, v) :: l2) →
  NoDup (p :: (l1 ++ (a, v) :: l2).*1) →
  h !! last_addr p l1 = Some (mkNode dp None) →
  (∀ b, b ≠ a → b ∈ U ↔ b ∈ U') → a ∉ U' →
  pchain (<[last_addr p l1 := mkNode dp (Some a)]> h) U' p d (l1 ++ (a, v) :: l2).
Proof.
  revert p d. induction l1 as [| [b w] l1 IH]; intros p d; simpl.
  - intros [Hp Hx] Hnd Hl HU HaU. rewrite decide_False by done.
    assert (d = dp) as -> by congruence.
    split; [apply lookup_insert_eq |].
    apply NoDup_cons in Hnd as [Hp_notin Hnd].
    eapply pchain_agree; [| eapply pchain_ext; [| exact Hx]].
    + intros c Hc. apply lookup_insert_ne. intros <-. done.
    + intros c Hc. apply HU. intros ->.
      apply NoDup_cons in Hnd as [Ha_notin _]. done.
  - intros [Hp Hx] Hnd Hl HU HaU.
    apply NoDup_cons in Hnd as [Hp_notin Hnd].
    assert (b ≠ a) as Hba.
    { intros ->. apply NoDup_cons in Hnd as [Hb _]. apply Hb.
      rewrite fmap_app. apply elem_of_app. right. simpl. apply elem_of_cons. by left. }
    split.
    + rewrite lookup_insert_ne; last first.
      { intros <-. apply Hp_notin. simpl.
        pose proof (last_addr_in b l1) as Hin. apply elem_of_cons in Hin as [-> | Hin].
        - apply elem_of_cons. by left.
        - apply elem_of_cons. right. rewrite fmap_app. apply elem_of_app. by left. }
      rewrite Hp. repeat f_equal.
      assert (b ∈ U ↔ b ∈ U') as Hb by (by apply HU).
      destruct (decide (b ∈ U)), (decide (b ∈ U')); tauto.
    + by apply IH.
Qed.

(** The node before a node that is not linked yet has a null next-link. *)
Lemma pchain_before_pending h U p d l1 a v l2 :
  pchain h U p d (l1 ++ (a, v) :: l2) → a ∈ U →
  ∃ dp, h !! last_addr p l1 = Some (mkNode dp None).
Proof.
  revert p d. induction l1 as [| [b w] l1 IH]; intros p d; simpl.
  - intros [Hp _] Ha. rewrite decide_True in Hp by done. eauto.
  - intros [_ Hx] Ha. eauto.
Qed.

(** The next-link of the first node: null when the chain ends there or the
    node behind it is not linked yet. *)
Definition pfirst U xs : ptr :=
  match xs with
  | [] => None
  | (a, _) :: _ => if decide (a ∈ U) then None else Some a
  end.

Lemma pchain_lookup h U p d xs :
  pchain h U p d xs → h !! p = Some (mkNode d (pfirst U xs)).
Proof. destruct xs as [| [a v] xs]; simpl; tauto. Qed.

Lemma pchain_set_data h U p d d' xs :
  pchain h U p d xs → p ∉ xs.*1 →
  pchain (<[p := mkNode d' (pfirst U xs)]> h) U p d' xs.
Proof.
  intros Hp Hni. destruct xs as [| [a v] xs]; simpl in *.
  - apply lookup_insert_eq.
  - destruct Hp as [Hp Hx]. split; [apply lookup_insert_eq |].
    eapply pchain_agree; [| exact Hx].
    intros b Hb. apply lookup_insert_ne. intros <-. done.
Qed.

End Pending.

Section ListUpdate.
Context {A B : Type} (f : A → option B).

Lemma omap_lookup_split (l : list A) i x :
  l !! i = Some x →
  omap f l = omap f (take i l) ++ option_list (f x) ++ omap f (drop (S i) l).
Proof.
  intros Hi. rewrite <- (take_drop_middle l i x Hi) at 1.
  rewrite omap_app. simpl. by destruct (f x).
Qed.

Lemma omap_insert_split (l : list A) i x y :
  l !! i = Some x →
  omap f (<[i := y]> l) =
  omap f (take i l) ++ option_list (f y) ++ omap f (drop (S i) l).
Proof.
  intros Hi. rewrite insert_take_drop by (by eapply lookup_lt_Some).
  rewrite omap_app. simpl. by destruct (f y).
Qed.

Lemma omap_insert_same (l : list A) i x y :
  l !! i = Some x → f y = f x → omap f (<[i := y]> l) = omap f l.
Proof.
  intros Hi Hf.
  by rewrite (omap_insert_split l i x y Hi), (omap_lookup_split l i x Hi), Hf.
Qed.

Lemma omap_insert_gain (l : list A) i x y b :
  l !! i = Some x → f x = None → f y = Some b →
  omap f (<[i := y]> l) ≡ₚ b :: omap f l.
Proof.
  intros Hi Hx Hy.
  rewrite (omap_insert_split l i x y Hi), (omap_lookup_split l i x Hi), Hx, Hy.
  simpl. by rewrite Permutation_middle.
Qed.

Lemma omap_insert_lose (l : list A) i x y b :
  l !! i = Some x → f x = Some b → f y = None →
  omap f l ≡ₚ b :: omap f (<[i := y]> l).
Proof.
  intros Hi Hx Hy.
  rewrite (omap_insert_split l i x y Hi), (omap_lookup_split l i x Hi), Hx, Hy.
  simpl. by rewrite Permutation_middle.
Qed.

End ListUpdate.

Lemma elem_of_insert_inv {A} (l : list A) i y z :
  z ∈ <[i := y]> l → z = y ∨ z ∈ l.
Proof.
  intros Hz. apply list_elem_of_lookup in Hz as [j Hj].
  apply list_lookup_insert_Some in Hj as [(-> & -> & _) | [_ Hj]]; [by left |].
  right. by eapply list_elem_of_lookup_2.
Qed.

Lemma exchanged_app (tr1 tr2 : list event) :
  exchanged (tr1 ++ tr2) = exchanged tr1 ++ exchanged tr2.
Proof.
  induction tr1 as [| e tr1 IH]; [done |].
  destruct e as [| | | | | | | | | q [a |] |]; simpl; by rewrite ?IH.
Qed.

Lemma exchanges_app (log1 log2 : list (nat * event)) :
  exchanges (log1 ++ log2) = exchanges log1 ++ exchanges log2.
Proof.
  induction log1 as [| [i e] log1 IH]; [done |].
  destruct e as [| | | | | | | | | q [a |] |]; simpl; by rewrite ?IH.
Qed.

Lemma exchanges_pair (i : nat) (tr : list event) :
  exchanges (pair i <$> tr) = pair i <$> exchanged tr.
Proof.
  induction tr as [| e tr IH]; [done |]. rewrite fmap_cons.
  destruct e as [| | | | | | | | | q [a |] |]; cbn [exchanges exchanged];
    by rewrite ?fmap_cons, IH.
Qed.

Lemma exchanges_nodes (log : list (nat * event)) : (exchanges log).*2 = exchanged log.*2.
Proof.
  induction log as [| [i e] log IH]; [done |]. rewrite fmap_cons.
  destruct e as [| | | | | | | | | q [a |] |]; cbn [exchanges exchanged snd];
    by rewrite ?fmap_cons, IH.
Qed.

Lemma events_of_app (i : nat) (log1 log2 : list (nat * event)) :
  events_of i (log1 ++ log2) = events_of i log1 ++ events_of i log2.
Proof. unfold events_of. by rewrite filter_app, fmap_app. Qed.

Lemma events_of_own (i : nat) (tr : list event) : events_of i (pair i <$> tr) = tr.
Proof.
  unfold events_of. induction tr as [| e tr IH]; [done |].
  rewrite fmap_cons, filter_cons_True by reflexivity.
  rewrite fmap_cons. cbn [snd]. by rewrite IH.
Qed.

Lemma events_of_other (i j : nat) (tr : list event) :
  j ≠ i → events_of i (pair j <$> tr) = [].
Proof.
  intros Hne. unfold events_of. induction tr as [| e tr IH]; [done |].
  rewrite fmap_cons, filter_cons_False by (simpl; congruence). exact IH.
Qed.

Section Logs.
Context {T A : Type}.
Implicit Types (ts : list (prog T A)) (m : State T).

(** The log is the trace, with the threads. *)
Lemma interleave_log_trace sched ts m :
  (interleave_log sched ts m).*2 = interleave_trace sched ts m.
Proof.
  revert ts m. induction sched as [| i sched IH]; intros ts m; [done |].
  cbn [interleave_log interleave_trace].
  destruct (ts !! i) as [p |]; [| apply IH].
  destruct (step p m) as [p' m' |]; [| done].
  rewrite fmap_app, IH, <- list_fmap_compose. f_equal.
  by rewrite list_fmap_id.
Qed.

(** A schedule neither adds threads to the pool nor removes any. *)
Lemma interleave_length sched ts m ts' m' :
  interleave sched ts m = Ok ts' m' → length ts' = length ts.
Proof.
  revert ts m. induction sched as [| i sched IH]; intros ts m; simpl.
  - by intros [= <- _].
  - destruct (ts !! i) as [p |]; [| apply IH].
    destruct (step p m) as [p' m1 |]; [| done].
    intros Hrun. apply IH in Hrun. by rewrite length_insert in Hrun.
Qed.

End Logs.

(** The number of turns a schedule gives to thread [i]. *)
Fixpoint turns_of (i : nat) (sched : list nat) : nat :=
  match sched with
  | [] => 0
  | j :: sched' => (if decide (j = i) then 1 else 0) + turns_of i sched'
  end.

Section Producers.
Context {T : Type}.
Variable this : qref.
Implicit Types (m : State T) (a s : addr) (xs : list (addr * T)).

(** Where a producer is in its call of [enqueue]: before the allocation,
    between the allocation and the tail exchange, between the exchange and
    the store to the previous tail, or back from the call. *)
Inductive pstate : Type :=
| PStart (v : T)
| PAlloc (a : addr) (v : T)
| PLink (prev : ptr) (a : addr)
| PDone.

(** What is left of [MPSC_Queue.enqueue this v] at each point. *)
Definition prog_of (st : pstate) : prog T unit :=
  match st with
  | PStart v => MPSC_Queue.enqueue this v
  | PAlloc a v =>
      prev_tail ← act (ExchangeTail this (Some a));
      act (StoreNext prev_tail (Some a))
  | PLink prev a => act (StoreNext prev (Some a))
  | PDone => Ret tt
  end.

Definition private_of (st : pstate) : option addr :=
  match st with PAlloc a _ => Some a | _ => None end.
Definition linking_of (st : pstate) : option addr :=
  match st with PLink _ a => Some a | _ => None end.
Definition waiting_of (st : pstate) : option T :=
  match st with PStart v | PAlloc _ v => Some v | _ => None end.

(** The atomic actions a producer has left to perform. *)
Definition turns_left (st : pstate) : nat :=
  match st with PStart _ => 3 | PAlloc _ _ => 2 | PLink _ _ => 1 | PDone => 0 end.

(** The action a program is about to perform, by name. *)
Definition next_action {A} (p : prog T A) : nat :=
  match p with
  | Ret _ => 0
  | Spin => 1
  | Vis e _ =>
      match e with
      | NewNode _ => 2 | DeleteNode _ => 3 | LoadNext _ => 4 | StoreNext _ _ => 5
      | MoveData _ => 6 | LoadHead _ => 7 | StoreHead _ _ => 8 | LoadTail _ => 9
      | StoreTail _ _ => 10 | ExchangeTail _ _ => 11 | CasHead _ _ _ => 12
      end
  end.

Lemma prog_of_turns_left st st' :
  prog_of st = prog_of st' → turns_left st = turns_left st'.
Proof.
  intros Heq. apply (f_equal next_action) in Heq. by destruct st, st'.
Qed.

(** Every atomic action of a producer is one of the three of its call. *)
Lemma producer_step_turns st st' m m' :
  step (prog_of st) m = Ok (prog_of st') m' →
  turns_left st' = pred (turns_left st).
Proof.
  destruct st as [v | a v | prev a |]; simpl.
  - intros [= Heq _].
    by rewrite <- (prog_of_turns_left (PAlloc (fresh (dom (nodes m))) v) st' Heq).
  - destruct (read_obj this m) as [| o]; [done |]. intros [= Heq _].
    by rewrite <- (prog_of_turns_left (PLink (tail o) a) st' Heq).
  - destruct (deref prev m) as [| [b n]]; [done |]. intros [= Heq _].
    by rewrite <- (prog_of_turns_left PDone st' Heq).
  - intros [= Heq _]. by rewrite <- (prog_of_turns_left PDone st' Heq).
Qed.

(** The invariant of a queue with producers at work: the chain in the
    order of the tail exchanges starts at the node [s] and ends at the
    tail, whatever [head] holds. *)
Record conc_inv m (hd : ptr) s xs (sts : list pstate) : Prop := ConcInv {
  ci_obj : objs m !! this = Some (mkQueue (Some (last_addr s xs)) hd);
  ci_chain : pchain (nodes m) (omap linking_of sts) s None xs;
  ci_nodup : NoDup ((s :: xs.*1) ++ omap private_of sts);
  ci_nodup_link : NoDup (omap linking_of sts);
  ci_private : ∀ a v, PAlloc a v ∈ sts → nodes m !! a = Some (mkNode (Some v) None);
  ci_link : ∀ prev a, PLink prev a ∈ sts →
            ∃ l1 v l2, xs = l1 ++ (a, v) :: l2 ∧ prev = Some (last_addr s l1)
}.

(** What one atomic action of a producer adds to the chain, and to the
    values still to be enqueued. *)
Definition progress xs (sts : list pstate) (tr : list event) xs'
    (sts' : list pstate) : Prop :=
  ∃ added : list (addr * T),
    xs' = xs ++ added ∧
    added.*2 ++ omap waiting_of sts' ≡ₚ omap waiting_of sts ∧
    added.*1 = exchanged tr.

(** What an atomic action of a producer leaves alone: live nodes stay
    live, the nodes of the chain and those the producers hold privately are
    joined by newly allocated ones only, and only a privately held node can
    become a node that is still to be linked. *)
Definition undisturbed m s xs (sts : list pstate) m' xs' (sts' : list pstate) : Prop :=
  (∀ x, is_Some (nodes m !! x) → is_Some (nodes m' !! x)) ∧
  (∀ x, x ∈ (s :: xs'.*1) ++ omap private_of sts' →
        x ∈ (s :: xs.*1) ++ omap private_of sts ∨ nodes m !! x = None) ∧
  (∀ x, x ∈ omap linking_of sts' →
        x ∈ omap linking_of sts ∨ x ∈ omap private_of sts).

(** How the elements put behind the chain come from the log: each tail
    exchange of the log, in order, is the action of a producer, thread
    [shift + i] for the producer at [sts !! i], and puts its node there,
    with the value that producer was about to enqueue. *)
Definition placed (shift : nat) (sts : list pstate) (log : list (nat * event))
    (added : list (addr * T)) : Prop :=
  Forall2 (λ ja bv, ja.2 = bv.1 ∧
                    ∃ i st, ja.1 = shift + i ∧ sts !! i = Some st ∧
                            waiting_of st = Some bv.2)
          (exchanges log) added.

(** What the action of the producer at [i] adds, and what it still has to
    enqueue afterwards, is what it had to enqueue before. *)
Lemma waiting_turn sts i st st' (added : list T) v :
  sts !! i = Some st →
  added ++ omap waiting_of (<[i := st']> sts) ≡ₚ omap waiting_of sts →
  v ∈ added ++ option_list (waiting_of st') → waiting_of st = Some v.
Proof.
  intros Hi Hw Hv.
  rewrite (omap_insert_split waiting_of sts i st st' Hi),
    (omap_lookup_split waiting_of sts i st Hi) in Hw.
  assert (added ++ option_list (waiting_of st') ≡ₚ option_list (waiting_of st)) as Hperm.
  { apply (Permutation_app_inv_l (omap waiting_of (take i sts))).
    apply (Permutation_app_inv_r (omap waiting_of (drop (S i) sts))).
    rewrite <- !app_assoc. rewrite <- Hw.
    rewrite !app_assoc. do 2 f_equiv. apply Permutation_app_comm. }
  rewrite Hperm in Hv. destruct (waiting_of st); simpl in Hv.
  - apply list_elem_of_singleton in Hv. by subst.
  - by apply elem_of_nil in Hv.
Qed.

Lemma placed_nil shift sts : placed shift sts [] [].
Proof. constructor. Qed.

(** An action that is no tail exchange places nothing. *)
Lemma placed_quiet shift sts j tr log added :
  exchanged tr = [] → placed shift sts log added →
  placed shift sts ((pair j <$> tr) ++ log) added.
Proof.
  intros Hev Hpl. unfold placed. by rewrite exchanges_app, exchanges_pair, Hev.
Qed.

Lemma placed_turn shift sts i st st' tr log (added1 added : list (addr * T)) :
  sts !! i = Some st →
  added1.*2 ++ omap waiting_of (<[i := st']> sts) ≡ₚ omap waiting_of sts →
  added1.*1 = exchanged tr →
  placed shift (<[i := st']> sts) log added →
  placed shift sts ((pair (shift + i) <$> tr) ++ log) (added1 ++ added).
Proof.
  intros Hi Hw He Hpl. unfold placed.
  rewrite exchanges_app, exchanges_pair, <- He. apply Forall2_app.
  - assert (∀ bv, bv ∈ added1 → waiting_of st = Some bv.2) as Hall.
    { intros bv Hbv. apply (waiting_turn sts i st st' added1.*2 _ Hi Hw).
      apply elem_of_app. left. by apply list_elem_of_fmap_2. }
    clear Hw He. induction added1 as [| [b v] added1 IH]; [constructor |].
    rewrite !fmap_cons. constructor.
    + split; [done |]. exists i, st. split; [done |]. split; [done |].
      apply (Hall (b, v)). apply elem_of_cons. by left.
    + apply IH. intros bv Hbv. apply Hall. apply elem_of_cons. by right.
  - eapply Forall2_impl; [exact Hpl |].
    intros [j a] [b v] (Hab & k & st1 & Hj & Hk & Hwait). split; [done |].
    destruct (decide (k = i)) as [-> | Hne].
    + rewrite list_lookup_insert_eq in Hk by (by eapply lookup_lt_Some).
      injection Hk as <-. exists i, st. split; [done |]. split; [done |].
      apply (waiting_turn sts i st st' added1.*2 _ Hi Hw).
      apply elem_of_app. right. rewrite Hwait. by apply list_elem_of_singleton.
    + rewrite list_lookup_insert_ne in Hk by done. by exists k, st1.
Qed.

(** From producers that are all about to start, the elements placed are
    those [enqueued_by] computes from the log. *)
Lemma placed_enqueued_by shift (vs : list T) (value_of : nat → option T) log ys :
  placed shift (PStart <$> vs) log ys →
  (∀ i, value_of (shift + i) = vs !! i) →
  enqueued_by value_of log = ys.
Proof.
  intros Hpl Hval. unfold enqueued_by. unfold placed in Hpl.
  induction Hpl as [| [j a] [b v] l ys' (Hab & i & st & Hj & Hi & Hw) _ IH]; [done |].
  simpl in Hab, Hj, Hw. subst j b. cbn [omap list_omap fst snd]. rewrite Hval.
  rewrite list_lookup_fmap in Hi. destruct (vs !! i) as [w |]; [| done].
  injection Hi as <-. simpl in Hw. injection Hw as ->. simpl. by rewrite IH.
Qed.

Lemma insert_keeps_live (h : gmap addr (Node T)) a n x :
  is_Some (h !! x) → is_Some (<[a := n]> h !! x).
Proof.
  intros Hx. destruct (decide (a = x)) as [-> | Hne].
  - rewrite lookup_insert_eq. eauto.
  - by rewrite lookup_insert_ne.
Qed.

Lemma conc_inv_live m hd s xs sts b :
  conc_inv m hd s xs sts → b ∈ (s :: xs.*1) ++ omap private_of sts →
  is_Some (nodes m !! b).
Proof.
  intros Hinv [Hb | Hb]%elem_of_app.
  - eapply pchain_live; [apply (ci_chain _ _ _ _ _ Hinv) | done].
  - apply list_elem_of_omap in Hb as (st & Hst & Hpriv).
    destruct st as [| a v | |]; try done. injection Hpriv as ->.
    rewrite (ci_private _ _ _ _ _ Hinv _ _ Hst). eauto.
Qed.

Lemma producer_step_alloc m hd s xs sts i v :
  conc_inv m hd s xs sts → sts !! i = Some (PStart v) →
  ∃ st' m', step (prog_of (PStart v)) m = Ok (prog_of st') m' ∧
            conc_inv m' hd s xs (<[i := st']> sts) ∧
            progress xs sts (step_event (prog_of (PStart v)) m) xs (<[i := st']> sts) ∧
            undisturbed m s xs sts m' xs (<[i := st']> sts).
Proof.
  intros Hinv Hi. set (a := fresh (dom (nodes m))).
  assert (∀ b, is_Some (nodes m !! b) → b ≠ a) as Hfresh.
  { intros b Hb ->. apply elem_of_dom in Hb. by apply is_fresh in Hb. }
  exists (PAlloc a v), (set_nodes (insert a (mkNode (Some v) None)) m).
  split; [reflexivity |]. split; [| split].
  - split; simpl.
    + apply (ci_obj _ _ _ _ _ Hinv).
    + rewrite (omap_insert_same linking_of sts i _ _ Hi) by done.
      eapply pchain_agree; [| apply (ci_chain _ _ _ _ _ Hinv)].
      intros b Hb. apply lookup_insert_ne. apply not_eq_sym, Hfresh.
      eapply conc_inv_live; [done |]. apply elem_of_app. by left.
    + rewrite (omap_insert_gain private_of sts i _ _ a Hi) by done.
      change (NoDup ((s :: xs.*1) ++ a :: omap private_of sts)).
      rewrite <- Permutation_middle. apply NoDup_cons.
      split; [| apply (ci_nodup _ _ _ _ _ Hinv)].
      intros Hin. by apply (Hfresh a (conc_inv_live _ _ _ _ _ _ Hinv Hin)).
    + rewrite (omap_insert_same linking_of sts i _ _ Hi) by done.
      apply (ci_nodup_link _ _ _ _ _ Hinv).
    + intros b w [[= -> ->] | Hin]%elem_of_insert_inv; [apply lookup_insert_eq |].
      pose proof (ci_private _ _ _ _ _ Hinv _ _ Hin) as Hb.
      rewrite lookup_insert_ne; [done |]. apply not_eq_sym, Hfresh. rewrite Hb. eauto.
    + intros prev b [? | Hin]%elem_of_insert_inv; [done |].
      apply (ci_link _ _ _ _ _ Hinv _ _ Hin).
  - exists []. rewrite app_nil_r. split; [done |]. split; [| done]. simpl.
    by rewrite (omap_insert_same waiting_of sts i _ _ Hi).
  - split; [| split].
    + intros x Hx. simpl. by apply insert_keeps_live.
    + intros x Hx. rewrite (omap_insert_gain private_of sts i _ _ a Hi) in Hx by done.
      apply elem_of_app in Hx as [Hx | Hx]; [left; apply elem_of_app; by left |].
      apply elem_of_cons in Hx as [-> | Hx]; [| left; apply elem_of_app; by right].
      right. apply not_elem_of_dom. apply is_fresh.
    + intros x. rewrite (omap_insert_same linking_of sts i _ _ Hi) by done. tauto.
Qed.

Lemma producer_step_exchange m hd s xs sts i a v :
  conc_inv m hd s xs sts → sts !! i = Some (PAlloc a v) →
  ∃ st' m', step (prog_of (PAlloc a v)) m = Ok (prog_of st') m' ∧
            conc_inv m' hd s (xs ++ [(a, v)]) (<[i := st']> sts) ∧
            progress xs sts (step_event (prog_of (PAlloc a v)) m)
              (xs ++ [(a, v)]) (<[i := st']> sts) ∧
            undisturbed m s xs sts m' (xs ++ [(a, v)]) (<[i := st']> sts).
Proof.
  intros Hinv Hi.
  pose proof (ci_obj _ _ _ _ _ Hinv) as Hobj.
  pose proof (list_elem_of_lookup_2 _ _ _ Hi) as Hin.
  pose proof (omap_insert_gain linking_of sts i _ (PLink (Some (last_addr s xs)) a) a
                Hi eq_refl eq_refl) as Hlink.
  pose proof (omap_insert_lose private_of sts i _ (PLink (Some (last_addr s xs)) a) a
                Hi eq_refl eq_refl) as Hpriv.
  pose proof (ci_nodup _ _ _ _ _ Hinv) as Hnd.
  assert (a ∉ s :: xs.*1) as Ha_chain.
  { rewrite Hpriv in Hnd. apply NoDup_app in Hnd as (_ & Hdisj & _).
    intros Hc. apply (Hdisj a Hc). apply elem_of_cons. by left. }
  assert (a ∉ omap linking_of sts) as Ha_link.
  { intros (st & Hst & Hs)%list_elem_of_omap.
    destruct st as [| | prev b |]; try done. injection Hs as ->.
    destruct (ci_link _ _ _ _ _ Hinv _ _ Hst) as (l1 & w & l2 & -> & _).
    apply Ha_chain. apply elem_of_cons. right. rewrite fmap_app.
    apply elem_of_app. right. simpl. apply elem_of_cons. by left. }
  exists (PLink (Some (last_addr s xs)) a), (write_obj this (with_tail (Some a)) m).
  split.
  { simpl. unfold read_obj. by rewrite Hobj. }
  split; [| split].
  - split; simpl.
    + rewrite lookup_insert_eq, Hobj. simpl. by rewrite last_addr_snoc.
    + eapply pchain_snoc.
      * apply (ci_chain _ _ _ _ _ Hinv).
      * by apply (ci_private _ _ _ _ _ Hinv).
      * intros b Hb. rewrite Hlink. rewrite elem_of_cons.
        split; [by right |]. intros [-> | ?]; [| done].
        exfalso. apply Ha_chain. apply elem_of_cons. by right.
      * rewrite Hlink. apply elem_of_cons. by left.
    + rewrite fmap_app. simpl.
      change (NoDup ((s :: xs.*1 ++ [a]) ++ omap private_of
                       (<[i := PLink (Some (last_addr s xs)) a]> sts))).
      rewrite Hpriv in Hnd.
      replace ((s :: xs.*1 ++ [a]) ++ omap private_of
                 (<[i := PLink (Some (last_addr s xs)) a]> sts))
        with ((s :: xs.*1) ++ a :: omap private_of
                 (<[i := PLink (Some (last_addr s xs)) a]> sts)); [done |].
      simpl. by rewrite <- app_assoc.
    + rewrite Hlink. apply NoDup_cons. split; [done |].
      apply (ci_nodup_link _ _ _ _ _ Hinv).
    + intros b w [? | Hb]%elem_of_insert_inv; [done |].
      by apply (ci_private _ _ _ _ _ Hinv).
    + intros prev b [[= -> ->] | Hb]%elem_of_insert_inv.
      * exists xs, v, []. done.
      * destruct (ci_link _ _ _ _ _ Hinv _ _ Hb) as (l1 & w & l2 & -> & ->).
        exists l1, w, (l2 ++ [(a, v)]). by rewrite <- app_assoc.
  - exists [(a, v)]. split; [done |]. split.
    + simpl. symmetry.
      apply (omap_insert_lose waiting_of sts i _ _ v Hi); done.
    + simpl. unfold read_obj. by rewrite Hobj.
  - split; [| split].
    + done.
    + intros x Hx. left. rewrite Hpriv.
      rewrite fmap_app in Hx. simpl in Hx.
      apply elem_of_cons in Hx as [-> | Hx];
        [apply elem_of_app; left; apply elem_of_cons; by left |].
      rewrite <- app_assoc in Hx.
      apply elem_of_app in Hx as [Hx | Hx];
        [apply elem_of_app; left; apply elem_of_cons; by right |].
      apply elem_of_app. right. exact Hx.
    + intros x. rewrite Hlink, elem_of_cons. intros [-> | Hx]; [| by left].
      right. apply list_elem_of_omap. by exists (PAlloc a v).
Qed.

Lemma producer_step_link m hd s xs sts i prev a :
  conc_inv m hd s xs sts → sts !! i = Some (PLink prev a) →
  ∃ st' m', step (prog_of (PLink prev a)) m = Ok (prog_of st') m' ∧
            conc_inv m' hd s xs (<[i := st']> sts) ∧
            progress xs sts (step_event (prog_of (PLink prev a)) m) xs (<[i := st']> sts) ∧
            undisturbed m s xs sts m' xs (<[i := st']> sts).
Proof.
  intros Hinv Hi.
  pose proof (list_elem_of_lookup_2 _ _ _ Hi) as Hin.
  destruct (ci_link _ _ _ _ _ Hinv _ _ Hin) as (l1 & v & l2 & -> & ->).
  pose proof (omap_insert_lose linking_of sts i _ PDone a Hi eq_refl eq_refl) as Hlink.
  pose proof (ci_nodup_link _ _ _ _ _ Hinv) as Hndl. rewrite Hlink in Hndl.
  apply NoDup_cons in Hndl as [Ha_notin Hndl].
  pose proof (ci_nodup _ _ _ _ _ Hinv) as Hnd.
  apply NoDup_app in Hnd as (Hnd_chain & Hdisj & Hnd_priv).
  assert (a ∈ omap linking_of sts) as Ha_in.
  { rewrite Hlink. apply elem_of_cons. by left. }
  destruct (pchain_before_pending _ _ _ _ _ _ _ _ (ci_chain _ _ _ _ _ Hinv) Ha_in)
    as [dp Hp].
  assert (last_addr s l1 ∈ s :: (l1 ++ (a, v) :: l2).*1) as Hp_chain.
  { pose proof (last_addr_in s l1) as Hl. apply elem_of_cons in Hl as [-> | Hl].
    - apply elem_of_cons. by left.
    - apply elem_of_cons. right. rewrite fmap_app. apply elem_of_app. by left. }
  exists PDone, (set_nodes (insert (last_addr s l1) (mkNode dp (Some a))) m).
  split.
  { simpl. by rewrite Hp. }
  split; [| split].
  - split; simpl.
    + apply (ci_obj _ _ _ _ _ Hinv).
    + eapply pchain_link.
      * apply (ci_chain _ _ _ _ _ Hinv).
      * done.
      * done.
      * intros b Hb. rewrite Hlink, elem_of_cons. split; [intros [? | ?]; done | by right].
      * done.
    + rewrite (omap_insert_same private_of sts i _ _ Hi) by done.
      apply (ci_nodup _ _ _ _ _ Hinv).
    + done.
    + intros b w [? | Hb]%elem_of_insert_inv; [done |].
      rewrite lookup_insert_ne; [by apply (ci_private _ _ _ _ _ Hinv) |].
      intros <-. apply (Hdisj _ Hp_chain).
      apply list_elem_of_omap. by exists (PAlloc (last_addr s l1) w).
    + intros prev b [? | Hb]%elem_of_insert_inv; [done |].
      apply (ci_link _ _ _ _ _ Hinv _ _ Hb).
  - exists []. rewrite app_nil_r. split; [done |]. split.
    + simpl. by rewrite (omap_insert_same waiting_of sts i _ _ Hi).
    + simpl. by rewrite Hp.
  - split; [| split].
    + intros x Hx. simpl. by apply insert_keeps_live.
    + intros x. rewrite (omap_insert_same private_of sts i _ _ Hi) by done. tauto.
    + intros x Hx. left. rewrite Hlink. apply elem_of_cons. by right.
Qed.

Lemma producer_step m hd s xs sts i st :
  conc_inv m hd s xs sts → sts !! i = Some st →
  ∃ st' xs' m', step (prog_of st) m = Ok (prog_of st') m' ∧
                conc_inv m' hd s xs' (<[i := st']> sts) ∧
                progress xs sts (step_event (prog_of st) m) xs' (<[i := st']> sts) ∧
                undisturbed m s xs sts m' xs' (<[i := st']> sts).
Proof.
  intros Hinv Hi. destruct st as [v | a v | prev a |].
  - destruct (producer_step_alloc _ _ _ _ _ _ _ Hinv Hi) as (st' & m' & ?). eauto.
  - destruct (producer_step_exchange _ _ _ _ _ _ _ _ Hinv Hi) as (st' & m' & ?). eauto.
  - destruct (producer_step_link _ _ _ _ _ _ _ _ Hinv Hi) as (st' & m' & ?). eauto.
  - exists PDone, xs, m. rewrite (list_insert_id _ _ _ Hi).
    split; [done |]. split; [done |]. split.
    + exists []. by rewrite app_nil_r.
    + split; [done |]. split; intros x Hx; by left.
Qed.

(** What is left to each producer after a schedule: its three actions less
    the turns it had. *)
Definition turns_taken (sched : list nat) (shift : nat) (sts sts' : list pstate) : Prop :=
  ∀ i st', sts' !! i = Some st' →
    ∃ st, sts !! i = Some st ∧
          turns_left st' = turns_left st - turns_of (shift + i) sched.

Lemma turns_taken_nil shift sts : turns_taken [] shift sts sts.
Proof. intros i st' Hi. exists st'. split; [done |]. simpl. lia. Qed.

Lemma turns_taken_skip sched shift j sts sts' :
  (∀ i, j = shift + i → sts !! i = None) →
  turns_taken sched shift sts sts' → turns_taken (j :: sched) shift sts sts'.
Proof.
  intros Hj Hturns i st' Hi. destruct (Hturns i st' Hi) as (st & Hst & Heq).
  exists st. split; [done |]. simpl.
  rewrite decide_False; [done |]. intros Heq'. apply Hj in Heq'. congruence.
Qed.

Lemma turns_taken_step sched shift i st st1 m m1 sts sts' :
  sts !! i = Some st →
  step (prog_of st) m = Ok (prog_of st1) m1 →
  turns_taken sched shift (<[i := st1]> sts) sts' →
  turns_taken ((shift + i) :: sched) shift sts sts'.
Proof.
  intros Hi Hstep Hturns j st' Hj. destruct (Hturns j st' Hj) as (st1' & Hst1 & Heq).
  destruct (decide (i = j)) as [<- | Hne].
  - rewrite list_lookup_insert_eq in Hst1 by (by eapply lookup_lt_Some).
    injection Hst1 as <-. exists st. split; [done |].
    rewrite (producer_step_turns _ _ _ _ Hstep) in Heq.
    simpl. rewrite decide_True by done. lia.
  - rewrite list_lookup_insert_ne in Hst1 by done.
    exists st1'. split; [done |]. simpl. rewrite decide_False by lia. done.
Qed.

(** Producers interleaved in any way never fault and keep the invariant. *)
Lemma producers_interleave sched m hd s xs sts :
  conc_inv m hd s xs sts →
  ∃ sts' xs' m',
    interleave sched (prog_of <$> sts) m = Ok (prog_of <$> sts') m' ∧
    conc_inv m' hd s xs' sts' ∧
    progress xs sts (interleave_trace sched (prog_of <$> sts) m) xs' sts' ∧
    turns_taken sched 0 sts sts' ∧
    ∃ added, xs' = xs ++ added ∧
             placed 0 sts (interleave_log sched (prog_of <$> sts) m) added.
Proof.
  revert m xs sts. induction sched as [| i sched IH]; intros m xs sts Hinv.
  - exists sts, xs, m. split; [done |]. split; [done |].
    split; [exists []; by rewrite app_nil_r |]. split; [apply turns_taken_nil |].
    exists []. split; [by rewrite app_nil_r | apply placed_nil].
  - cbn [interleave interleave_trace interleave_log]. rewrite list_lookup_fmap.
    destruct (sts !! i) as [st |] eqn:Hi; cbn [fmap option_fmap option_map].
    2:{ destruct (IH _ _ _ Hinv)
          as (sts' & xs' & m' & Hrun & Hinv' & Hprog & Hturns & Hpl).
        exists sts', xs', m'. split; [done |]. split; [done |]. split; [done |].
        split; [| done]. apply turns_taken_skip; [| done]. by intros j ->. }
    destruct (producer_step _ _ _ _ _ _ _ Hinv Hi)
      as (st' & xs1 & m1 & Hstep & Hinv1 & (added1 & -> & Hw1 & He1) & _).
    rewrite Hstep. rewrite <- list_fmap_insert.
    destruct (IH _ _ _ Hinv1)
      as (sts' & xs' & m' & Hrun & Hinv' & (added & -> & Hw & He) & Hturns
          & added2 & Heq & Hpl).
    apply app_inv_head in Heq as <-.
    exists sts', ((xs ++ added1) ++ added), m'. split; [done |]. split; [done |].
    split; [| split].
    + exists (added1 ++ added). split; [by rewrite app_assoc |]. split.
      * rewrite fmap_app, <- app_assoc, Hw. done.
      * rewrite fmap_app, exchanged_app, He1, He. done.
    + by apply (turns_taken_step sched 0 i st st' m m1).
    + exists (added1 ++ added). split; [by rewrite app_assoc |].
      apply (placed_turn 0 sts i st st' _ _ added1 added Hi Hw1 He1 Hpl).
Qed.

Lemma conc_inv_start m s xs (vs : list T) :
  is_queue m this s xs → conc_inv m (Some s) s xs (PStart <$> vs).
Proof.
  intros [Hobj Hch].
  assert (∀ f : pstate → option addr,
            (∀ v, f (PStart v) = None) → omap f (PStart <$> vs) = []) as Hnone.
  { intros f Hf. induction vs as [| v vs IH]; [done |]. simpl. by rewrite Hf. }
  pose proof (Hnone linking_of (λ _, eq_refl)) as Hl.
  pose proof (Hnone private_of (λ _, eq_refl)) as Hp.
  split.
  - done.
  - rewrite Hl. by apply pchain_nil.
  - rewrite Hp, app_nil_r. by eapply lseg_NoDup.
  - rewrite Hl. apply NoDup_nil_2.
  - intros a v (w & ? & _)%list_elem_of_fmap. done.
  - intros prev a (w & ? & _)%list_elem_of_fmap. done.
Qed.

Lemma conc_inv_all_done m s xs sts :
  conc_inv m (Some s) s xs sts → (∀ st, st ∈ sts → st = PDone) →
  is_queue m this s xs ∧ omap waiting_of sts = [].
Proof.
  intros Hinv Hsts.
  assert (omap linking_of sts = [] ∧ omap waiting_of sts = []) as [Hl Hw].
  { clear Hinv. induction sts as [| st sts IH]; [done |].
    rewrite (Hsts st) by (apply elem_of_cons; by left). simpl.
    apply IH. intros st' Hst'. apply Hsts. apply elem_of_cons. by right. }
  split; [| done]. split.
  - apply (ci_obj _ _ _ _ _ Hinv).
  - apply pchain_nil. rewrite <- Hl. apply (ci_chain _ _ _ _ _ Hinv).
Qed.

Lemma conc_inv_done m s xs sts :
  conc_inv m (Some s) s xs sts → (∀ t, t ∈ prog_of <$> sts → t = Ret tt) →
  is_queue m this s xs ∧ omap waiting_of sts = [].
Proof.
  intros Hinv Hdone. apply conc_inv_all_done; [done |].
  intros st Hst. specialize (Hdone (prog_of st) (list_elem_of_fmap_2 _ _ _ Hst)).
  by destruct st.
Qed.

(** A producer that has had three turns is back from its call, whatever
    turns the other threads had. *)
Lemma turns_taken_returned sched shift (vs : list T) sts' i :
  turns_taken sched shift (PStart <$> vs) sts' → length sts' = length vs →
  i < length vs → 3 ≤ turns_of (shift + i) sched → sts' !! i = Some PDone.
Proof.
  intros Hturns Hlen Hi Hfair.
  destruct (lookup_lt_is_Some_2 sts' i) as [st' Hst']; [lia |].
  destruct (Hturns i st' Hst') as (st & Hst & Hleft).
  rewrite list_lookup_fmap in Hst.
  destruct (vs !! i) as [v |]; [| done]. injection Hst as <-.
  destruct st'; simpl in Hleft; try lia. done.
Qed.

Lemma waiting_of_start (vs : list T) : omap waiting_of (PStart <$> vs) = vs.
Proof. induction vs as [| v vs IH]; [done |]. simpl. f_equal. exact IH. Qed.

(** Any number of producers calling [enqueue] concurrently, under any
    schedule of their atomic actions: no action faults; a producer that has
    had three turns has returned, whatever the others did; and once all
    calls have returned the queue is at rest and holds, behind what it
    held, the enqueued values, each once, in the order of the tail
    exchanges: the node of each exchange, with the value of the thread that
    performed it. *)
Lemma producers_any_schedule sched m s xs (vs : list T) :
  is_queue m this s xs →
  ∃ ts m',
    interleave sched (MPSC_Queue.enqueue this <$> vs) m = Ok ts m' ∧
    (∀ i, i < length vs → 3 ≤ turns_of i sched → ts !! i = Some (Ret tt)) ∧
    ((∀ t, t ∈ ts → t = Ret tt) →
     ∃ ys, ys = enqueued_by (λ i, vs !! i)
                  (interleave_log sched (MPSC_Queue.enqueue this <$> vs) m) ∧
           is_queue m' this s (xs ++ ys) ∧ ys.*2 ≡ₚ vs).
Proof.
  intros Hq.
  assert (MPSC_Queue.enqueue this <$> vs = prog_of <$> (PStart <$> vs)) as ->.
  { by rewrite <- list_fmap_compose. }
  destruct (producers_interleave sched _ _ _ _ _ (conc_inv_start m s xs vs Hq))
    as (sts' & xs' & m' & Hrun & Hinv & (added & -> & Hw & He) & Hturns
        & added' & Heq & Hpl).
  apply app_inv_head in Heq as <-.
  exists (prog_of <$> sts'), m'. split; [done |]. split.
  - intros i Hi Hfair.
    pose proof (interleave_length _ _ _ _ _ Hrun) as Hlen. rewrite !length_fmap in Hlen.
    rewrite list_lookup_fmap.
    by rewrite (turns_taken_returned sched 0 vs sts' i Hturns Hlen Hi Hfair).
  - intros Hdone. destruct (conc_inv_done _ _ _ _ Hinv Hdone) as [Hq' Hnone].
    exists added. split; [| split; [done |]].
    + symmetry. by apply (placed_enqueued_by 0 vs).
    + rewrite Hnone, app_nil_r, waiting_of_start in Hw. by rewrite Hw.
Qed.

(** The atomic actions of a call of [enqueue], given the node [a] it
    allocates and the previous tail [prev] its exchange obtains. *)
Definition enqueue_script (a : addr) (prev : ptr) : list event :=
  [EvNew a; EvExchangeTail this (Some a); EvStoreNext prev (Some a)].

Definition script_agrees (st : pstate) (a : addr) (prev : ptr) : Prop :=
  match st with
  | PAlloc a0 _ => a0 = a
  | PLink p0 a0 => a0 = a ∧ p0 = prev
  | _ => True
  end.

(** Whatever the other threads of a pool do, the actions of a thread that
    is in a call of [enqueue] and returns from it are the actions the call
    had left, in their order. *)
Lemma producer_script sched (ts : list (prog T unit)) m ts' m' i st :
  interleave sched ts m = Ok ts' m' →
  ts !! i = Some (prog_of st) → ts' !! i = Some (Ret tt) →
  ∃ a prev, script_agrees st a prev ∧
            events_of i (interleave_log sched ts m) =
              drop (3 - turns_left st) (enqueue_script a prev).
Proof.
  revert ts m st. induction sched as [| j sched IH]; intros ts m st Hrun Hi Hret.
  - simpl in Hrun. injection Hrun as <- <-. rewrite Hi in Hret. injection Hret as Hret.
    destruct st; try done. by exists 1%positive, None.
  - cbn [interleave interleave_log] in *.
    destruct (ts !! j) as [p |] eqn:Hj; [| by eapply IH].
    destruct (step p m) as [p' m1 |] eqn:Hstep; [| done].
    rewrite events_of_app.
    destruct (decide (j = i)) as [-> | Hne].
    + rewrite Hi in Hj. injection Hj as <-.
      assert (i < length ts) as Hlt by (by eapply lookup_lt_Some).
      rewrite events_of_own.
      destruct st as [v | a0 v | p0 a0 |].
      * simpl in Hstep. injection Hstep as <- <-.
        destruct (IH _ _ (PAlloc (fresh (dom (nodes m))) v) Hrun) as (a & prev & Hag & Hev);
          [by rewrite list_lookup_insert_eq | done |].
        simpl in Hag. subst a. exists (fresh (dom (nodes m))), prev. split; [done |].
        rewrite Hev. reflexivity.
      * simpl in Hstep. simpl. destruct (read_obj this m) as [| o]; [done |].
        injection Hstep as <- <-.
        destruct (IH _ _ (PLink (tail o) a0) Hrun) as (a & prev & [-> <-] & Hev);
          [by rewrite list_lookup_insert_eq | done |].
        exists a, (tail o). split; [done |]. rewrite Hev. reflexivity.
      * simpl in Hstep. simpl. destruct (deref p0 m) as [| [b n]]; [done |].
        injection Hstep as <- <-.
        destruct (IH _ _ PDone Hrun) as (a & prev & _ & Hev);
          [by rewrite list_lookup_insert_eq | done |].
        exists a0, p0. split; [done |]. rewrite Hev. reflexivity.
      * simpl in Hstep. injection Hstep as <- <-.
        destruct (IH _ _ PDone Hrun) as (a & prev & _ & Hev);
          [by rewrite list_lookup_insert_eq | done |].
        exists a, prev. split; [done |]. rewrite Hev. reflexivity.
    + rewrite events_of_other by done.
      apply (IH _ _ st Hrun); [by rewrite list_lookup_insert_ne | done].
Qed.

(** *** The consumer among the producers *)

(** Where the consumer is in a call of [dequeue]: before it, after the
    read of [head], after the read of a non-null next-link, after the move
    of the payload, after the second read of [head], after the delete of
    the old sentinel. *)
Inductive cstate : Type :=
| CIdle
| CLoaded (h : ptr)
| CNext (a : addr)
| CMoved (a : addr) (r : option T)
| CHead (h : ptr) (a : addr) (r : option T)
| CDeleted (a : addr) (r : option T).

(** What is left of [MPSC_Queue.dequeue this] at each point. *)
Definition deq_rest (c : cstate) : prog T (option T) :=
  match c with
  | CIdle => MPSC_Queue.dequeue this
  | CLoaded h =>
      next_node ← act (LoadNext h);
      match next_node with
      | None => Ret None
      | Some _ =>
          result ← act (MoveData next_node);
          h' ← act (LoadHead this);
          _ ← act (DeleteNode h');
          _ ← act (StoreHead this next_node);
          Ret result
      end
  | CNext a =>
      result ← act (MoveData (Some a));
      h' ← act (LoadHead this);
      _ ← act (DeleteNode h');
      _ ← act (StoreHead this (Some a));
      Ret result
  | CMoved a r =>
      h' ← act (LoadHead this);
      _ ← act (DeleteNode h');
      _ ← act (StoreHead this (Some a));
      Ret r
  | CHead h a r =>
      _ ← act (DeleteNode h);
      _ ← act (StoreHead this (Some a));
      Ret r
  | CDeleted a r =>
      _ ← act (StoreHead this (Some a));
      Ret r
  end.

(** The consumer thread is [dequeue_n MPSC_Queue.dequeue this k].  After
    the calls that returned [acc], it is the program [p] of the calls still
    to make, under the continuations that put each earlier result in front
    of the later ones. *)
Fixpoint plug (acc : list (option T)) (p : prog T (list (option T)))
  : prog T (list (option T)) :=
  match acc with
  | [] => p
  | r :: acc' => rs ← plug acc' p; Ret (r :: rs)
  end.

(** The calls after the current one. *)
Definition then_dequeue (n : nat) (r : option T) : prog T (list (option T)) :=
  rs ← dequeue_n MPSC_Queue.dequeue this n; Ret (r :: rs).

Inductive consumer : Type :=
| Running (acc : list (option T)) (c : cstate) (n : nat)
| Finished (acc : list (option T)).

Definition cprog (cs : consumer) : prog T (list (option T)) :=
  match cs with
  | Running acc c n => plug acc (r ← deq_rest c; then_dequeue n r)
  | Finished acc => plug acc (Ret [])
  end.

(** The consumer between two calls, [n] calls to go. *)
Definition between (acc : list (option T)) (n : nat) : consumer :=
  match n with
  | O => Finished acc
  | S n' => Running acc CIdle n'
  end.

(** A producer thread: a call of [enqueue], returning no answers. *)
Definition pprog (st : pstate) : prog T (list (option T)) :=
  _ ← prog_of st; Ret [].

Lemma plug_vis {X} acc (e : op T X) k :
  plug acc (Vis e k) = Vis e (λ x, plug acc (k x)).
Proof.
  induction acc as [| r acc IH]; [done |].
  cbn [plug]. rewrite IH. done.
Qed.

Lemma plug_ret acc rs : plug acc (Ret rs) = Ret (acc ++ rs).
Proof.
  induction acc as [| r acc IH]; [done |].
  cbn [plug]. rewrite IH. done.
Qed.

Lemma plug_snoc acc r p :
  plug (acc ++ [r]) p = plug acc (rs ← p; Ret (r :: rs)).
Proof.
  induction acc as [| r' acc IH]; [done |].
  cbn [plug app]. rewrite IH. done.
Qed.

Lemma cprog_start k : dequeue_n MPSC_Queue.dequeue this k = cprog (between [] k).
Proof. by destruct k. Qed.

(** The thread when a call has returned [r]. *)
Lemma cprog_between acc r n :
  plug acc (then_dequeue n r) = cprog (between (acc ++ [r]) n).
Proof.
  unfold then_dequeue. rewrite <- plug_snoc. by destruct n.
Qed.

Lemma step_pprog st m :
  step (pprog st) m =
  match step (prog_of st) m with
  | Ok p' m' => Ok (_ ← p'; Ret []) m'
  | Fault e => Fault e
  end.
Proof.
  destruct st; simpl; try done.
  - by destruct (read_obj this m).
  - by destruct (deref prev m) as [| []].
Qed.

Lemma step_event_pprog st m :
  step_event (pprog st) m = step_event (prog_of st) m.
Proof. by destruct st. Qed.

(** The elements the consumer has received: those its calls returned, and
    the one a call under way has moved out of its node. *)
Definition somes (acc : list (option T)) : list T := omap id acc.

Definition holding (c : cstate) : list T :=
  match c with
  | CMoved _ r | CHead _ _ r | CDeleted _ r => option_list r
  | _ => []
  end.

Definition served (cs : consumer) : list T :=
  match cs with
  | Running acc c _ => somes acc ++ holding c
  | Finished acc => somes acc
  end.

(** What the consumer relies on at each point of a call.  Until the payload
    is moved out, [head] is the first node of the chain; from then on the
    chain starts at the node that is becoming the sentinel, and the old
    sentinel, not yet deleted, is live and is no node of the chain or of a
    producer. *)
Definition cons_inv m (c : cstate) (hd : ptr) s xs (sts : list pstate) : Prop :=
  match c with
  | CIdle => hd = Some s
  | CLoaded h => hd = Some s ∧ h = Some s
  | CNext a =>
      hd = Some s ∧ (∃ v xs', xs = (a, v) :: xs') ∧ a ∉ omap linking_of sts
  | CMoved a r =>
      s = a ∧ ∃ s0, hd = Some s0 ∧ is_Some (nodes m !! s0) ∧
                    s0 ∉ (s :: xs.*1) ++ omap private_of sts
  | CHead h a r =>
      s = a ∧ ∃ s0, hd = Some s0 ∧ h = Some s0 ∧ is_Some (nodes m !! s0) ∧
                    s0 ∉ (s :: xs.*1) ++ omap private_of sts
  | CDeleted a r => s = a
  end.

Definition consumer_inv m (cs : consumer) (hd : ptr) s xs (sts : list pstate) : Prop :=
  match cs with
  | Running _ c _ => cons_inv m c hd s xs sts
  | Finished _ => hd = Some s
  end.

Lemma served_between acc n : served (between acc n) = somes acc.
Proof. destruct n; simpl; [done | by rewrite app_nil_r]. Qed.

Lemma somes_snoc acc r : somes (acc ++ [r]) = somes acc ++ option_list r.
Proof. unfold somes. rewrite omap_app. by destruct r. Qed.

Lemma consumer_inv_between m acc n s xs sts :
  consumer_inv m (between acc n) (Some s) s xs sts.
Proof. by destruct n. Qed.

(** The atomic actions the consumer has left to perform at most: six for a
    call that returns an element, fewer for one that finds the queue
    empty. *)
Definition call_left (c : cstate) : nat :=
  match c with
  | CIdle => 6 | CLoaded _ => 5 | CNext _ => 4
  | CMoved _ _ => 3 | CHead _ _ _ => 2 | CDeleted _ _ => 1
  end.

Definition actions_left (cs : consumer) : nat :=
  match cs with
  | Running _ c n => call_left c + 6 * n
  | Finished _ => 0
  end.

Lemma actions_left_between acc n : actions_left (between acc n) = 6 * n.
Proof. destruct n; simpl; lia. Qed.

(** One atomic action of the consumer: it does not fault, the invariants
    hold afterwards, and what the consumer has received followed by what
    the chain holds is the same as before. *)
Lemma consumer_step m cs sts hd s xs :
  conc_inv m hd s xs sts → consumer_inv m cs hd s xs sts →
  ∃ cs' hd' s' xs' m',
    actions_left cs' ≤ pred (actions_left cs) ∧
    step (cprog cs) m = Ok (cprog cs') m' ∧
    conc_inv m' hd' s' xs' sts ∧ consumer_inv m' cs' hd' s' xs' sts ∧
    served cs' ++ xs'.*2 = served cs ++ xs.*2 ∧
    exchanged (step_event (cprog cs) m) = [].
Proof.
  intros Hinv Hcons. destruct cs as [acc c n | acc].
  2:{ exists (Finished acc), hd, s, xs, m. split; [rewrite ?actions_left_between; simpl; lia |]. simpl. rewrite plug_ret. done. }
  pose proof (ci_obj _ _ _ _ _ Hinv) as Hobj.
  pose proof (ci_chain _ _ _ _ _ Hinv) as Hch.
  destruct c as [| h | a | a r | h a r | a r]; cbn [consumer_inv cons_inv] in Hcons.
  - (* read of head *)
    subst hd. exists (Running acc (CLoaded (Some s)) n), (Some s), s, xs, m. split; [rewrite ?actions_left_between; simpl; lia |].
    cbn [cprog deq_rest]. unfold MPSC_Queue.dequeue. prog_simpl.
    rewrite plug_vis. simpl. unfold read_obj. rewrite Hobj. done.
  - (* read of the next-link *)
    destruct Hcons as [-> ->].
    pose proof (pchain_lookup _ _ _ _ _ Hch) as Hs.
    cbn [cprog deq_rest]. prog_simpl. rewrite plug_vis. simpl. rewrite Hs. simpl.
    destruct xs as [| [a v] xs'].
    + exists (between (acc ++ [None]) n), (Some s), s, [], m. split; [rewrite ?actions_left_between; simpl; lia |]. simpl.
      rewrite cprog_between. split; [done |]. split; [done |].
      split; [apply consumer_inv_between |].
      rewrite served_between, somes_snoc. simpl. by rewrite !app_nil_r.
    + simpl. destruct (decide (a ∈ omap linking_of sts)) as [Ha | Ha].
      * exists (between (acc ++ [None]) n), (Some s), s, ((a, v) :: xs'), m. split; [rewrite ?actions_left_between; simpl; lia |]. simpl.
        rewrite cprog_between. split; [done |]. split; [done |].
        split; [apply consumer_inv_between |].
        rewrite served_between, somes_snoc. simpl. by rewrite !app_nil_r.
      * exists (Running acc (CNext a) n), (Some s), s, ((a, v) :: xs'), m. split; [rewrite ?actions_left_between; simpl; lia |].
        split; [done |]. split; [done |]. split; [| done].
        simpl. eauto.
  - (* move of the payload *)
    destruct Hcons as (-> & (v & xs' & ->) & Ha).
    pose proof (ci_nodup _ _ _ _ _ Hinv) as Hnd.
    simpl in Hch. rewrite decide_False in Hch by done. destruct Hch as [Hs Hch].
    pose proof (pchain_lookup _ _ _ _ _ Hch) as Hnode.
    change ((s :: ((a, v) :: xs').*1) ++ omap private_of sts)
      with (s :: ((a :: xs'.*1) ++ omap private_of sts)) in Hnd.
    apply NoDup_cons in Hnd as [Hs_notin Hnd].
    assert (a ∉ xs'.*1) as Ha_tail.
    { apply NoDup_app in Hnd as (Hnd & _). by apply NoDup_cons in Hnd as [? _]. }
    exists (Running acc (CMoved a (Some v)) n), (Some s), a, xs',
      (set_nodes (insert a (mkNode None (pfirst (omap linking_of sts) xs'))) m). split; [rewrite ?actions_left_between; simpl; lia |].
    cbn [cprog deq_rest]. prog_simpl. rewrite plug_vis. simpl. rewrite Hnode. simpl.
    split; [done |]. split; [| split].
    + split; simpl.
      * exact Hobj.
      * by apply (pchain_set_data _ _ _ (Some v)).
      * exact Hnd.
      * apply (ci_nodup_link _ _ _ _ _ Hinv).
      * intros b w Hb. rewrite lookup_insert_ne; [by apply (ci_private _ _ _ _ _ Hinv) |].
        intros <-. apply NoDup_app in Hnd as (_ & Hdisj & _).
        apply (Hdisj a); [apply elem_of_cons; by left |].
        apply list_elem_of_omap. by exists (PAlloc a w).
      * intros prev b Hb.
        destruct (ci_link _ _ _ _ _ Hinv _ _ Hb) as (l1 & w & l2 & Heq & ->).
        destruct l1 as [| [a' v'] l1]; simpl in Heq.
        -- injection Heq as -> -> ->. exfalso. apply Ha.
           apply list_elem_of_omap. by exists (PLink (Some s) b).
        -- injection Heq as -> -> ->. by exists l1, w, l2.
    + split; [done |]. exists s. split; [done |]. split; [| done].
      apply insert_keeps_live. rewrite Hs. eauto.
    + split; [| done]. simpl. by rewrite app_nil_r, <- app_assoc.
  - (* second read of head *)
    destruct Hcons as (-> & s0 & -> & Hlive & Hs0).
    exists (Running acc (CHead (Some s0) a r) n), (Some s0), a, xs, m. split; [rewrite ?actions_left_between; simpl; lia |].
    cbn [cprog deq_rest]. prog_simpl. rewrite plug_vis. simpl.
    unfold read_obj. rewrite Hobj. simpl.
    split; [done |]. split; [done |]. split; [| done]. simpl. eauto 10.
  - (* delete of the old sentinel *)
    destruct Hcons as (-> & s0 & -> & -> & [n0 Hlive] & Hs0).
    exists (Running acc (CDeleted a r) n), (Some s0), a, xs, (set_nodes (delete s0) m). split; [rewrite ?actions_left_between; simpl; lia |].
    cbn [cprog deq_rest]. prog_simpl. rewrite plug_vis. simpl. rewrite Hlive.
    split; [done |]. split; [| by split].
    split; simpl.
    + exact Hobj.
    + eapply pchain_agree; [| exact Hch]. intros b Hb. apply lookup_delete_ne.
      intros <-. apply Hs0. apply elem_of_app. by left.
    + apply (ci_nodup _ _ _ _ _ Hinv).
    + apply (ci_nodup_link _ _ _ _ _ Hinv).
    + intros b w Hb. rewrite lookup_delete_ne; [by apply (ci_private _ _ _ _ _ Hinv) |].
      intros <-. apply Hs0. apply elem_of_app. right.
      apply list_elem_of_omap. by exists (PAlloc s0 w).
    + apply (ci_link _ _ _ _ _ Hinv).
  - (* write of head; the call returns *)
    subst s.
    exists (between (acc ++ [r]) n), (Some a), a, xs, (write_obj this (with_head (Some a)) m). split; [rewrite ?actions_left_between; simpl; lia |].
    cbn [cprog deq_rest]. prog_simpl. rewrite plug_vis. simpl.
    rewrite cprog_between. split; [done |]. split; [| split].
    + split; simpl.
      * by rewrite lookup_insert_eq, Hobj.
      * exact Hch.
      * apply (ci_nodup _ _ _ _ _ Hinv).
      * apply (ci_nodup_link _ _ _ _ _ Hinv).
      * apply (ci_private _ _ _ _ _ Hinv).
      * apply (ci_link _ _ _ _ _ Hinv).
    + apply consumer_inv_between.
    + split; [| done]. by rewrite served_between, somes_snoc.
Qed.

(** The atomic actions of the producers leave what the consumer relies on
    as it is. *)
Lemma consumer_inv_undisturbed m cs hd s xs sts m' added sts' :
  conc_inv m hd s xs sts → consumer_inv m cs hd s xs sts →
  undisturbed m s xs sts m' (xs ++ added) sts' →
  consumer_inv m' cs hd s (xs ++ added) sts'.
Proof.
  intros Hinv Hcons (Hlive & Hown & Hlink).
  destruct cs as [acc c n | acc]; [| done].
  destruct c as [| h | a | a r | h a r | a r]; cbn [consumer_inv cons_inv] in *;
    try done.
  - destruct Hcons as (-> & (v & xs' & ->) & Ha).
    split; [done |]. split; [by exists v, (xs' ++ added) |].
    intros [Hin | Hin]%Hlink; [done |].
    pose proof (ci_nodup _ _ _ _ _ Hinv) as Hnd.
    apply NoDup_app in Hnd as (_ & Hdisj & _). apply (Hdisj a); [| done].
    simpl. apply elem_of_cons. right. apply elem_of_cons. by left.
  - destruct Hcons as (-> & s0 & -> & Hs0 & Hni).
    split; [done |]. exists s0. split; [done |]. split; [by apply Hlive |].
    intros [Hin | Hnone]%Hown; [done |].
    rewrite Hnone in Hs0. by destruct Hs0.
  - destruct Hcons as (-> & s0 & -> & -> & Hs0 & Hni).
    split; [done |]. exists s0. split; [done |]. split; [done |].
    split; [by apply Hlive |].
    intros [Hin | Hnone]%Hown; [done |].
    rewrite Hnone in Hs0. by destruct Hs0.
Qed.

(** The consumer and the producers interleaved in any way never fault and
    keep the invariants; what the consumer has received followed by what
    the chain holds only grows, at its end, by the values of the tail
    exchanges, in their order; and every turn of a thread that has not
    returned is one of the actions it had left. *)
Lemma mpsc_interleave sched m cs sts hd s xs :
  conc_inv m hd s xs sts → consumer_inv m cs hd s xs sts →
  ∃ cs' sts' hd' s' xs' m' (added : list (addr * T)),
    interleave sched (cprog cs :: (pprog <$> sts)) m =
      Ok (cprog cs' :: (pprog <$> sts')) m' ∧
    conc_inv m' hd' s' xs' sts' ∧ consumer_inv m' cs' hd' s' xs' sts' ∧
    served cs' ++ xs'.*2 = (served cs ++ xs.*2) ++ added.*2 ∧
    added.*2 ++ omap waiting_of sts' ≡ₚ omap waiting_of sts ∧
    added.*1 = exchanged (interleave_trace sched (cprog cs :: (pprog <$> sts)) m) ∧
    actions_left cs' ≤ actions_left cs - turns_of 0 sched ∧
    turns_taken sched 1 sts sts' ∧
    placed 1 sts (interleave_log sched (cprog cs :: (pprog <$> sts)) m) added.
Proof.
  revert m cs sts hd s xs.
  induction sched as [| i sched IH]; intros m cs sts hd s xs Hinv Hcons.
  - exists cs, sts, hd, s, xs, m, []. simpl. rewrite app_nil_r.
    repeat (split; [done |]). split; [lia |].
    split; [apply turns_taken_nil | apply placed_nil].
  - destruct i as [| i].
    + destruct (consumer_step _ _ _ _ _ _ Hinv Hcons)
        as (cs1 & hd1 & s1 & xs1 & m1 & Hless & Hstep & Hinv1 & Hcons1 & Hserved & Hev).
      destruct (IH _ _ _ _ _ _ Hinv1 Hcons1)
        as (cs' & sts' & hd' & s' & xs' & m' & added
            & Hrun & Hinv' & Hcons' & Hs' & Hw & He & Hleft & Hturns & Hpl).
      exists cs', sts', hd', s', xs', m', added.
      cbn [interleave interleave_trace interleave_log].
      change ((cprog cs :: (pprog <$> sts)) !! 0) with (Some (cprog cs)).
      cbv beta iota. rewrite Hstep.
      change (<[0 := cprog cs1]> (cprog cs :: (pprog <$> sts)))
        with (cprog cs1 :: (pprog <$> sts)).
      split; [done |]. split; [done |]. split; [done |].
      split; [by rewrite Hs', Hserved |]. split; [done |].
      split; [by rewrite exchanged_app, Hev |]. split; [| split].
      * simpl. lia.
      * apply turns_taken_skip; [| done]. intros j Hj. lia.
      * by apply placed_quiet.
    + cbn [interleave interleave_trace interleave_log].
      change ((cprog cs :: (pprog <$> sts)) !! S i) with ((pprog <$> sts) !! i).
      rewrite list_lookup_fmap.
      destruct (sts !! i) as [st |] eqn:Hi; cbn [fmap option_fmap option_map].
      2:{ destruct (IH _ _ _ _ _ _ Hinv Hcons)
            as (cs' & sts' & hd' & s' & xs' & m' & added
                & Hrun & Hinv' & Hcons' & Hs' & Hw & He & Hleft & Hturns & Hpl).
          exists cs', sts', hd', s', xs', m', added.
          repeat (split; [done |]). split; [| done].
          apply turns_taken_skip; [| done]. intros j Hj.
          assert (j = i) as -> by lia. done. }
      destruct (producer_step _ _ _ _ _ _ _ Hinv Hi)
        as (st' & xs1 & m1 & Hstep & Hinv1 & (added1 & -> & Hw1 & He1) & Hund).
      rewrite step_pprog, Hstep, step_event_pprog.
      change (prog_of st' ≫= λ _ : (), Ret []) with (pprog st').
      change (<[S i := pprog st']> (cprog cs :: (pprog <$> sts)))
        with (cprog cs :: <[i := pprog st']> (pprog <$> sts)).
      rewrite <- (list_fmap_insert pprog).
      pose proof (consumer_inv_undisturbed _ _ _ _ _ _ _ _ _ Hinv Hcons Hund) as Hcons1.
      destruct (IH _ _ _ _ _ _ Hinv1 Hcons1)
        as (cs' & sts' & hd' & s' & xs' & m' & added
            & Hrun & Hinv' & Hcons' & Hs' & Hw & He & Hleft & Hturns & Hpl).
      exists cs', sts', hd', s', xs', m', (added1 ++ added).
      split; [done |]. split; [done |]. split; [done |].
      split; [| split; [| split; [| split; [done |]]]]; [| | | split].
      * rewrite Hs', !fmap_app, !app_assoc. done.
      * rewrite fmap_app, <- app_assoc, Hw. done.
      * rewrite fmap_app, exchanged_app, He1, He. done.
      * by apply (turns_taken_step sched 1 i st st' m m1).
      * apply (placed_turn 1 sts i st st' _ _ added1 added Hi Hw1 He1 Hpl).
Qed.

(** One consumer making [k] calls of [dequeue] while any number of
    producers call [enqueue], under any schedule of their atomic actions:
    no action faults; every thread returns within its own turns, six for
    each [dequeue] and three for an [enqueue], whatever the others do; and
    once all calls have returned, the elements the consumer received,
    followed by those the queue still holds, are the elements the queue
    held at first followed by the enqueued values, each once, in the order
    of the tail exchanges. *)
Lemma mpsc_any_schedule sched m s xs k (vs : list T) :
  is_queue m this s xs →
  ∃ ts m',
    interleave sched
      (dequeue_n MPSC_Queue.dequeue this k
       :: ((λ v, _ ← MPSC_Queue.enqueue this v; Ret []) <$> vs)) m = Ok ts m' ∧
    (6 * k ≤ turns_of 0 sched → ∃ rs, ts !! 0 = Some (Ret rs)) ∧
    (∀ i, i < length vs → 3 ≤ turns_of (S i) sched → ts !! S i = Some (Ret [])) ∧
    ((∀ t, t ∈ ts → ∃ rs, t = Ret rs) →
     ∃ rs ys s' rest,
       ts !! 0 = Some (Ret rs) ∧
       ys = enqueued_by (behind_consumer vs)
              (interleave_log sched
                 (dequeue_n MPSC_Queue.dequeue this k
                  :: ((λ v, _ ← MPSC_Queue.enqueue this v; Ret []) <$> vs)) m) ∧
       ys.*2 ≡ₚ vs ∧
       omap id rs ++ rest.*2 = xs.*2 ++ ys.*2 ∧
       is_queue m' this s' rest).
Proof.
  intros Hq.
  assert ((λ v, _ ← MPSC_Queue.enqueue this v; Ret []) <$> vs
          = pprog <$> (PStart <$> vs)) as ->.
  { by rewrite <- list_fmap_compose. }
  rewrite cprog_start.
  destruct (mpsc_interleave sched _ _ _ _ _ _ (conc_inv_start m s xs vs Hq)
              (consumer_inv_between m [] k s xs _))
    as (cs' & sts' & hd' & s' & xs' & m' & added
        & Hrun & Hinv & Hcons & Hs & Hw & He & Hleft & Hturns & Hpl).
  exists (cprog cs' :: (pprog <$> sts')), m'. split; [done |]. split; [| split].
  - intros Hfair0. rewrite actions_left_between in Hleft.
    destruct cs' as [acc c n | acc].
    + destruct c; simpl in Hleft; lia.
    + exists (acc ++ []). simpl. by rewrite plug_ret.
  - intros i Hi Hfair.
    pose proof (interleave_length _ _ _ _ _ Hrun) as Hlen.
    simpl in Hlen. rewrite !length_fmap in Hlen.
    change ((cprog cs' :: (pprog <$> sts')) !! S i) with ((pprog <$> sts') !! i).
    rewrite list_lookup_fmap.
    rewrite (turns_taken_returned sched 1 vs sts' i Hturns) by (done || lia).
    done.
  - intros Hdone.
    assert (∃ acc, cs' = Finished acc) as [acc ->].
    { destruct (Hdone (cprog cs')) as [rs Hrs]; [apply elem_of_cons; by left |].
      destruct cs' as [acc c n | acc]; [| by exists acc].
      exfalso. destruct c; cbn [cprog deq_rest] in Hrs; unfold MPSC_Queue.dequeue in Hrs;
        cbn [mbind prog_bind bind act] in Hrs; by rewrite plug_vis in Hrs. }
    assert (∀ st, st ∈ sts' → st = PDone) as Hsts.
    { intros st Hst. destruct (Hdone (pprog st)) as [rs Hrs].
      { apply elem_of_cons. right. by apply list_elem_of_fmap_2. }
      by destruct st. }
    cbn [consumer_inv] in Hcons. subst hd'.
    destruct (conc_inv_all_done _ _ _ _ Hinv Hsts) as [Hq' Hnone].
    exists acc, added, s', xs'.
    split; [simpl; by rewrite plug_ret, app_nil_r |].
    split; [| split; [| split; [| done]]].
    + symmetry. by apply (placed_enqueued_by 1 vs).
    + rewrite Hnone, app_nil_r, waiting_of_start in Hw. by rewrite Hw.
    + rewrite served_between in Hs. exact Hs.
Qed.

End Producers.

(** ** The sentinel *)

(** The chain of [this] has a node, the one [head] points to; that node
    carries no payload; and every other node traversal from it arrives at
    is live and carries one. *)
Definition sentinel_invariant {T} (m : State T) (this : qref) : Prop :=
  ∃ o s n,
    objs m !! this = Some o ∧ head o = Some s ∧
    nodes m !! s = Some n ∧ data n = None ∧
    ∀ b, reaches (nodes m) s b → b ≠ s →
         ∃ nb, nodes m !! b = Some nb ∧ is_Some (data nb).

Lemma is_queue_sentinel_invariant {T} (m : State T) this s xs :
  is_queue m this s xs → sentinel_invariant m this.
Proof.
  intros [Hobj Hch]. eexists _, s, _.
  split; [exact Hobj |]. split; [done |].
  split; [exact (lseg_lookup _ _ _ _ Hch) |]. split; [done |].
  intros b Hb Hne. apply (lseg_reaches _ _ _ _ _ Hch) in Hb.
  apply elem_of_cons in Hb as [-> | Hb]; [done |].
  apply list_elem_of_fmap in Hb as ([b' v] & -> & Hin).
  destruct (lseg_data _ _ _ _ _ _ Hch Hin) as [nx Hd].
  eexists. split; [exact Hd |]. simpl. eauto.
Qed.

(** ** After a move *)

(** The state of the two objects after [other] has been moved into [this]:
    [this] is the queue [other] was, so that draining it yields the
    elements of [ys] in order; [other] has null members, can be destroyed
    (which does nothing) and measured (size zero), and dereferences null in
    [enqueue], [dequeue] and [is_empty]. *)
Definition moved_into {T} (m' : State T) (this other : qref) (s' : addr)
    (ys : list (addr * T)) (fuel : nat) (v : T) : Prop :=
  is_queue m' this s' ys ∧
  (∃ m'', run (dequeue_n MPSC_Queue.dequeue this (length ys + 1)) m' =
          Ok ((Some <$> ys.*2) ++ [None]) m'') ∧
  (∃ m'', run (dequeue_n (MPMC_Queue.dequeue (S fuel)) this (length ys + 1)) m' =
          Ok ((Some <$> ys.*2) ++ [None]) m'') ∧
  moved_from m' other ∧
  run (MPSC_Queue.enqueue other v) m' = Fault NullDeref ∧
  run (MPSC_Queue.dequeue other) m' = Fault NullDeref ∧
  run (MPSC_Queue.is_empty other) m' = Fault NullDeref ∧
  run (MPMC_Queue.enqueue other v) m' = Fault NullDeref ∧
  run (MPMC_Queue.dequeue (S fuel) other) m' = Fault NullDeref ∧
  run (MPMC_Queue.is_empty other) m' = Fault NullDeref ∧
  run (MPSC_Queue.size_approx fuel other) m' = Ok 0%Z m' ∧
  run (MPSC_Queue.destroy fuel other) m' = Ok tt m'.

Lemma moved_into_intro {T} (m' : State T) this other s' ys fuel v :
  is_queue m' this s' ys → moved_from m' other → length (spurious m') ≤ fuel →
  moved_into m' this other s' ys fuel v.
Proof.
  intros Hq Hmoved Hfuel.
  destruct (mpsc_moved_from_calls _ _ v fuel Hmoved) as (He & Hd & Hi & Hs & Hx).
  split; [done |]. split; [| split]; [| | repeat split; try done].
  - destruct (dequeue_n_spec MPSC_Queue.dequeue always mpsc_deq_empty_ok
                mpsc_deq_cons_ok m' this s' ys 1 I Hq) as (m'' & Hrun & _).
    by exists m''.
  - destruct (dequeue_n_spec (MPMC_Queue.dequeue (S fuel)) (enough_fuel (S fuel))
                (mpmc_deq_empty_ok (S fuel)) (mpmc_deq_cons_ok (S fuel))
                m' this s' ys 1) as (m'' & Hrun & _); [unfold enough_fuel; lia | done |].
    by exists m''.
  - by rewrite mpmc_enqueue_run.
  - by apply mpmc_moved_from_dequeue.
Qed.

(** ** Example states *)

(** A queue of integers as its constructor leaves it, at object 1 with its
    sentinel at address 1. *)
Definition fresh_queue : State Z :=
  mkState {[1%positive := mkNode None None]}
          {[1%positive := mkQueue (Some 1%positive) (Some 1%positive)]} [].

(** The same queue after [enqueue(1)], [enqueue(2)], [enqueue(3)]. *)
Definition queue_123 : State Z :=
  mkState (list_to_map [(1%positive, mkNode None (Some 2%positive));
                        (2%positive, mkNode (Some 1%Z) (Some 3%positive));
                        (3%positive, mkNode (Some 2%Z) (Some 4%positive));
                        (4%positive, mkNode (Some 3%Z) None)])
          {[1%positive := mkQueue (Some 4%positive) (Some 1%positive)]} [].

Definition chain_123 : list (addr * Z) :=
  [(2%positive, 1%Z); (3%positive, 2%Z); (4%positive, 3%Z)].

Lemma fresh_queue_is_queue : is_queue fresh_queue 1%positive 1%positive [].
Proof. split; reflexivity. Defined.

Lemma queue_123_is_queue : is_queue queue_123 1%positive 1%positive chain_123.
Proof. split; [reflexivity |]. simpl. repeat split; reflexivity. Defined.

Example construct_gives_fresh_queue :
  run (MPSC_Queue.construct 1%positive) empty_state = Ok tt fresh_queue.
Proof. vm_compute. reflexivity. Qed.

Example three_enqueues_give_queue_123 :
  run (enqueue_all MPSC_Queue.enqueue 1%positive [1%Z; 2%Z; 3%Z]) fresh_queue =
  Ok tt queue_123.
Proof. vm_compute. reflexivity. Qed.

(** The sentinel of a queue after one [dequeue]. *)
Definition next_sentinel {T} (s : addr) (xs : list (addr * T)) : addr :=
  match xs with
  | [] => s
  | (a, _) :: _ => a
  end.

(** An object after its contents have been moved away. *)
Definition moved_out_queue : State Z :=
  mkState ∅ {[1%positive := mkQueue nullptr nullptr]} [].

Lemma moved_out_queue_moved_from : moved_from moved_out_queue 1%positive.
Proof. reflexivity. Defined.

(** Two queue objects: object 1 holding 1, 2, 3 as in [queue_123], and
    object 2 as its constructor leaves it, with its sentinel at address 5. *)
Definition two_queues : State Z :=
  mkState (<[5%positive := mkNode None None]> (nodes queue_123))
          (<[2%positive := mkQueue (Some 5%positive) (Some 5%positive)]> (objs queue_123))
          [].

Lemma two_queues_first : is_queue two_queues 1%positive 1%positive chain_123.
Proof. split; [reflexivity |]. simpl. repeat split; reflexivity. Defined.

Lemma two_queues_second : is_queue two_queues 2%positive 5%positive [].
Proof. split; reflexivity. Defined.

(** The queue of [fresh_queue] after [n] calls [enqueue(0)], and the one
    with [2^31] of them. *)
Definition queue_of_zeros (n : nat) : State Z :=
  match run (enqueue_all MPSC_Queue.enqueue 1%positive (replicate n 0%Z)) fresh_queue with
  | Ok _ m => m
  | Fault _ => fresh_queue
  end.

Definition big_queue : State Z := queue_of_zeros (Z.to_nat (2 ^ 31)).

Lemma queue_of_zeros_is_queue (n : nat) :
  ∃ xs, is_queue (queue_of_zeros n) 1%positive 1%positive xs ∧ length xs = n.
Proof.
  destruct (enqueue_all_spec MPSC_Queue.enqueue always mpsc_enq_ok fresh_queue
              1%positive 1%positive [] (replicate n 0%Z) I fresh_queue_is_queue)
    as (m' & ys & Hrun & _ & Hq & Hys).
  exists ys. unfold queue_of_zeros. rewrite Hrun. split; [exact Hq |].
  rewrite <- (length_fmap snd ys), Hys. apply length_replicate.
Qed.


(** ** The interface the two classes share *)

(** The public methods that clients call on a queue of either class, the
    loops with their fuel. *)
Record queue_methods (T : Type) : Type := QueueMethods {
  q_enqueue : qref → T → prog T unit;
  q_dequeue : qref → prog T (option T);
  q_is_empty : qref → prog T bool;
  q_size_approx : qref → prog T Z
}.
Global Arguments QueueMethods {T} _ _ _ _.
Global Arguments q_enqueue {T} _ _ _.
Global Arguments q_dequeue {T} _ _.
Global Arguments q_is_empty {T} _ _.
Global Arguments q_size_approx {T} _ _.

Definition MPSC {T} (fuel : nat) : queue_methods T :=
  QueueMethods MPSC_Queue.enqueue MPSC_Queue.dequeue MPSC_Queue.is_empty
    (MPSC_Queue.size_approx fuel).

Definition MPMC {T} (fuel : nat) : queue_methods T :=
  QueueMethods MPMC_Queue.enqueue (MPMC_Queue.dequeue fuel) MPMC_Queue.is_empty
    (MPMC_Queue.size_approx fuel).

(** A call of a public method, and what it returns. *)
Inductive request (T : Type) : Type :=
| DoEnqueue (v : T)
| DoDequeue
| AskEmpty
| AskSize.
Global Arguments DoEnqueue {T} v.
Global Arguments DoDequeue {T}.
Global Arguments AskEmpty {T}.
Global Arguments AskSize {T}.

Inductive reply (T : Type) : Type :=
| Void
| Item (r : option T)
| Emptiness (b : bool)
| Counted (n : Z).
Global Arguments Void {T}.
Global Arguments Item {T} r.
Global Arguments Emptiness {T} b.
Global Arguments Counted {T} n.

(** What a list used as a first-in-first-out queue returns to each call,
    the size being counted in an [int], and what it holds afterwards. *)
Fixpoint replies {T} (contents : list T) (rs : list (request T)) : list (reply T) :=
  match rs with
  | [] => []
  | DoEnqueue v :: rs' => Void :: replies (contents ++ [v]) rs'
  | DoDequeue :: rs' => Item (hd_error contents) :: replies (tl contents) rs'
  | AskEmpty :: rs' => Emptiness (bool_decide (contents = [])) :: replies contents rs'
  | AskSize :: rs' => Counted (int_wrap (Z.of_nat (length contents))) :: replies contents rs'
  end.

Fixpoint contents_after {T} (contents : list T) (rs : list (request T)) : list T :=
  match rs with
  | [] => contents
  | DoEnqueue v :: rs' => contents_after (contents ++ [v]) rs'
  | DoDequeue :: rs' => contents_after (tl contents) rs'
  | AskEmpty :: rs' | AskSize :: rs' => contents_after contents rs'
  end.

Section Serving.
Context {T : Type}.
Variable api : queue_methods T.
Implicit Types (m : State T) (q this : qref) (a s : addr) (xs : list (addr * T)).

Definition serve (this : qref) (r : request T) : prog T (reply T) :=
  match r with
  | DoEnqueue v => _ ← q_enqueue api this v; Ret Void
  | DoDequeue => item ← q_dequeue api this; Ret (Item item)
  | AskEmpty => b ← q_is_empty api this; Ret (Emptiness b)
  | AskSize => n ← q_size_approx api this; Ret (Counted n)
  end.

(** The calls of [rs] one after the other, by one caller. *)
Fixpoint serve_all (this : qref) (rs : list (request T)) : prog T (list (reply T)) :=
  match rs with
  | [] => Ret []
  | r :: rs' => a ← serve this r; rest ← serve_all this rs'; Ret (a :: rest)
  end.

(** The loop of the usage example:
    [while (!queue.is_empty()) { auto item = queue.dequeue(); if (item) ... }],
    returning the items it prints. *)
Fixpoint drain_loop (fuel : nat) (this : qref) : prog T (list T) :=
  match fuel with
  | O => Spin
  | S fuel' =>
      empty ← q_is_empty api this;
      if empty : bool then Ret []
      else
        item ← q_dequeue api this;
        out ← drain_loop fuel' this;
        Ret (match item with Some x => x :: out | None => out end)
  end.

(** The nodes of [chain] are the only ones in which the heap of [m]
    differs from [base], where none of them is live. *)
Definition owns (base : addr → option (Node T)) (m : State T) (chain : list addr) : Prop :=
  (∀ b, b ∈ chain → base b = None) ∧ (∀ b, b ∉ chain → nodes m !! b = base b).

(** What the lemmas below need of the methods; [ok] is what the caller
    keeps true of the state for [dequeue] to return. *)
Variable ok : State T → Prop.
Variable size_fuel : nat.
Hypothesis enq_spec : ∀ m this s xs v,
  ok m → is_queue m this s xs →
  ∃ m', run (q_enqueue api this v) m = Ok tt m' ∧ ok m' ∧
        is_queue m' this s (xs ++ [(fresh (dom (nodes m)), v)]) ∧
        same_except m m' [this] [fresh (dom (nodes m)); last_addr s xs].
Hypothesis deq_empty : ∀ m this s,
  ok m → is_queue m this s [] → run (q_dequeue api this) m = Ok None m.
Hypothesis deq_cons : ∀ m this s a v xs,
  ok m → is_queue m this s ((a, v) :: xs) →
  ∃ m', run (q_dequeue api this) m = Ok (Some v) m' ∧ ok m' ∧
        is_queue m' this a xs ∧
        same_except m m' [this] [s; a] ∧ nodes m' !! s = None.
Hypothesis emp_spec : ∀ m this s xs,
  ok m → is_queue m this s xs →
  run (q_is_empty api this) m = Ok (bool_decide (xs = [])) m.
Hypothesis size_spec : ∀ m this s xs,
  ok m → is_queue m this s xs → length xs ≤ size_fuel →
  run (q_size_approx api this) m = Ok (int_wrap (Z.of_nat (length xs))) m.

Lemma owns_enqueue base m m' this s xs v :
  is_queue m this s xs → owns base m (s :: xs.*1) →
  same_except m m' [this] [fresh (dom (nodes m)); last_addr s xs] →
  owns base m' (s :: (xs ++ [(fresh (dom (nodes m)), v)]).*1).
Proof.
  intros Hq [Hdead Hsame] [_ Hn].
  pose proof (fresh_not_in_chain _ _ _ _ (iq_chain _ _ _ _ Hq)) as Hfresh.
  rewrite fmap_app. simpl. split.
  - intros b [-> | [Hb | ->%list_elem_of_singleton]%elem_of_app]%elem_of_cons.
    + apply Hdead. apply elem_of_cons. by left.
    + apply Hdead. apply elem_of_cons. by right.
    + rewrite <- (Hsame _ Hfresh). apply not_elem_of_dom. apply is_fresh.
  - intros b Hb. rewrite Hn.
    + apply Hsame. intros [-> | Hin]%elem_of_cons; apply Hb.
      * apply elem_of_cons. by left.
      * apply elem_of_cons. right. apply elem_of_app. by left.
    + intros [-> | [-> | []%elem_of_nil]%elem_of_cons]%elem_of_cons; apply Hb.
      * apply elem_of_cons. right. apply elem_of_app. right.
        by apply list_elem_of_singleton.
      * pose proof (last_addr_in s xs) as [-> | Hin]%elem_of_cons.
        -- apply elem_of_cons. by left.
        -- apply elem_of_cons. right. apply elem_of_app. by left.
Qed.

Lemma owns_dequeue base m m' this s a v xs :
  owns base m (s :: ((a, v) :: xs).*1) →
  same_except m m' [this] [s; a] → nodes m' !! s = None →
  owns base m' (a :: xs.*1).
Proof.
  intros [Hdead Hsame] [_ Hn] Hfreed. split.
  - intros b Hb. apply Hdead. apply elem_of_cons. by right.
  - intros b Hb. destruct (decide (b = s)) as [-> | Hne].
    + rewrite Hfreed. symmetry. apply Hdead. apply elem_of_cons. by left.
    + rewrite Hn.
      * apply Hsame. by intros [-> | Hin]%elem_of_cons.
      * intros [-> | [-> | []%elem_of_nil]%elem_of_cons]%elem_of_cons; [done |].
        apply Hb. apply elem_of_cons. by left.
Qed.

Lemma nil_fmap_snd (xs : list (addr * T)) :
  bool_decide (xs = []) = bool_decide (xs.*2 = []).
Proof. by destruct xs as [| [a v] xs]. Qed.

(** Any sequence of calls by one caller: the answers are those of the
    list, the queue stays well formed, and the heap differs from [base]
    in the nodes of the chain only. *)
Lemma serve_all_spec base m this s xs rs :
  ok m → is_queue m this s xs → owns base m (s :: xs.*1) →
  length xs + length rs ≤ size_fuel →
  ∃ m' s' xs',
    run (serve_all this rs) m = Ok (replies xs.*2 rs) m' ∧ ok m' ∧
    is_queue m' this s' xs' ∧ xs'.*2 = contents_after xs.*2 rs ∧
    owns base m' (s' :: xs'.*1) ∧
    (∀ q, q ≠ this → objs m' !! q = objs m !! q).
Proof using enq_spec deq_empty deq_cons emp_spec size_spec.
  revert m s xs. induction rs as [| r rs IH]; intros m s xs Hok Hq Hown Hfuel.
  { exists m, s, xs. repeat (split; [done |]). done. }
  cbn [length] in Hfuel.
  destruct r as [v | | |]; cbn [serve_all serve replies contents_after].
  - destruct (enq_spec _ _ _ _ v Hok Hq) as (m1 & Hrun & Hok1 & Hq1 & Hfr).
    destruct (IH m1 s _ Hok1 Hq1) as (m' & s' & xs' & Hrun' & Hok' & Hq' & Hc & Hown' & Ho).
    { by eapply owns_enqueue. }
    { rewrite length_app. simpl. lia. }
    rewrite fmap_app in Hrun', Hc. simpl in Hrun', Hc.
    exists m', s', xs'. rewrite !run_bind, Hrun. cbn [run]. rewrite run_bind, Hrun'.
    split; [done |]. split; [done |]. split; [done |].
    split; [done |]. split; [done |].
    intros q Hne. rewrite (Ho q Hne). apply (proj1 Hfr).
    by intros ->%list_elem_of_singleton.
  - destruct xs as [| [a v] xs].
    + destruct (IH m s [] Hok Hq Hown) as (m' & s' & xs' & Hrun' & ?); [simpl in *; lia |].
      exists m', s', xs'. rewrite !run_bind, (deq_empty _ _ _ Hok Hq). cbn [run].
      by rewrite run_bind, Hrun'.
    + destruct (deq_cons _ _ _ _ _ _ Hok Hq) as (m1 & Hrun & Hok1 & Hq1 & Hfr & Hfreed).
      destruct (IH m1 a xs Hok1 Hq1)
        as (m' & s' & xs' & Hrun' & Hok' & Hq' & Hc & Hown' & Ho).
      { by eapply owns_dequeue. }
      { simpl in Hfuel. lia. }
      exists m', s', xs'. rewrite !run_bind, Hrun. cbn [run]. rewrite run_bind, Hrun'.
      split; [done |]. split; [done |]. split; [done |].
      split; [done |]. split; [done |].
      intros q Hne. rewrite (Ho q Hne). apply (proj1 Hfr).
      by intros ->%list_elem_of_singleton.
  - destruct (IH m s xs Hok Hq Hown) as (m' & s' & xs' & Hrun' & ?); [lia |].
    exists m', s', xs'. rewrite !run_bind, (emp_spec _ _ _ _ Hok Hq). cbn [run].
    by rewrite run_bind, Hrun', nil_fmap_snd.
  - destruct (IH m s xs Hok Hq Hown) as (m' & s' & xs' & Hrun' & ?); [lia |].
    exists m', s', xs'. rewrite !run_bind, (size_spec _ _ _ _ Hok Hq) by lia. cbn [run].
    by rewrite run_bind, Hrun', length_fmap.
Qed.

(** What the calls on one queue leave alone: every other object, every
    node that is live and not of its chain, and so every other queue. *)
Lemma serve_all_frame m this s xs rs :
  ok m → is_queue m this s xs → length xs + length rs ≤ size_fuel →
  ∃ m' s' xs',
    run (serve_all this rs) m = Ok (replies xs.*2 rs) m' ∧
    is_queue m' this s' xs' ∧ xs'.*2 = contents_after xs.*2 rs ∧
    (∀ q, q ≠ this → objs m' !! q = objs m !! q) ∧
    (∀ b n, b ∉ s :: xs.*1 → nodes m !! b = Some n → nodes m' !! b = Some n) ∧
    (∀ b n, b ∉ s :: xs.*1 → nodes m !! b = Some n → b ∉ s' :: xs'.*1).
Proof using enq_spec deq_empty deq_cons emp_spec size_spec.
  intros Hok Hq Hfuel.
  set (base := λ b, if decide (b ∈ s :: xs.*1) then None else nodes m !! b).
  assert (owns base m (s :: xs.*1)) as Hown.
  { split; intros b Hb; unfold base; [by rewrite decide_True | by rewrite decide_False]. }
  destruct (serve_all_spec base m this s xs rs Hok Hq Hown Hfuel)
    as (m' & s' & xs' & Hrun & _ & Hq' & Hc & [Hdead Hsame] & Ho).
  assert (∀ b n, b ∉ s :: xs.*1 → nodes m !! b = Some n → b ∉ s' :: xs'.*1) as Hout.
  { intros b n Hb Hn Hin. apply Hdead in Hin. unfold base in Hin.
    rewrite decide_False in Hin by done. congruence. }
  exists m', s', xs'. split; [done |]. split; [done |]. split; [done |].
  split; [done |]. split; [| done].
  intros b n Hb Hn. rewrite (Hsame b (Hout b n Hb Hn)). unfold base.
  by rewrite decide_False.
Qed.

(** The loop of the usage example returns every element, oldest first,
    and leaves the queue empty. *)
Lemma drain_loop_spec m fuel this s xs :
  ok m → is_queue m this s xs → length xs < fuel →
  ∃ m', run (drain_loop fuel this) m = Ok xs.*2 m' ∧ ok m' ∧
        is_queue m' this (last_addr s xs) [].
Proof using deq_cons emp_spec.
  revert m fuel s. induction xs as [| [a v] xs IH]; intros m fuel s Hok Hq Hfuel;
    (destruct fuel as [| fuel]; [simpl in Hfuel; lia |]); cbn [drain_loop].
  - exists m. by rewrite run_bind, (emp_spec _ _ _ _ Hok Hq).
  - destruct (deq_cons _ _ _ _ _ _ Hok Hq) as (m1 & Hrun & Hok1 & Hq1 & _).
    destruct (IH m1 fuel a Hok1 Hq1) as (m' & Hrun' & Hok' & Hq'); [simpl in Hfuel; lia |].
    exists m'. rewrite run_bind, (emp_spec _ _ _ _ Hok Hq). simpl bool_decide. cbn iota.
    rewrite run_bind, Hrun, run_bind, Hrun'. done.
Qed.

End Serving.

Lemma contents_after_length {T} (contents : list T) (rs : list (request T)) :
  length (contents_after contents rs) ≤ length contents + length rs.
Proof.
  revert contents. induction rs as [| r rs IH]; intros contents; simpl; [lia |].
  destruct r; simpl.
  - etrans; [apply IH |]. rewrite length_app. simpl. lia.
  - etrans; [apply IH |]. destruct contents; simpl; lia.
  - etrans; [apply IH |]. lia.
  - etrans; [apply IH |]. lia.
Qed.

(** ** The two classes behind the interface *)

Section Classes.
Context {T : Type}.
Implicit Types (m : State T) (q this : qref) (a s : addr) (xs : list (addr * T)).

Lemma mpsc_q_enqueue m this s xs v :
  always m → is_queue m this s xs →
  ∃ m', run (MPSC_Queue.enqueue this v) m = Ok tt m' ∧ always m' ∧
        is_queue m' this s (xs ++ [(fresh (dom (nodes m)), v)]) ∧
        same_except m m' [this] [fresh (dom (nodes m)); last_addr s xs].
Proof.
  intros _ Hq.
  destruct (mpsc_enqueue_spec _ _ _ _ v Hq) as (m' & Hrun & _ & Hq' & Hfr & _).
  by exists m'.
Qed.

Lemma mpsc_q_dequeue m this s a v xs :
  always m → is_queue m this s ((a, v) :: xs) →
  ∃ m', run (MPSC_Queue.dequeue this) m = Ok (Some v) m' ∧ always m' ∧
        is_queue m' this a xs ∧
        same_except m m' [this] [s; a] ∧ nodes m' !! s = None.
Proof.
  intros _ Hq.
  destruct (mpsc_dequeue_cons _ _ _ _ _ _ Hq) as (m' & Hrun & _ & Hq' & Hfr & Hfreed & _).
  by exists m'.
Qed.

Lemma mpsc_q_is_empty (ok : State T → Prop) m this s xs :
  ok m → is_queue m this s xs →
  run (MPSC_Queue.is_empty this) m = Ok (bool_decide (xs = [])) m.
Proof. intros _ Hq. by apply mpsc_is_empty_spec in Hq as [? _]. Qed.

Lemma mpsc_q_size_approx (ok : State T → Prop) fuel m this s xs :
  ok m → is_queue m this s xs → length xs ≤ fuel →
  run (MPSC_Queue.size_approx fuel this) m = Ok (int_wrap (Z.of_nat (length xs))) m.
Proof.
  intros _ Hq Hfuel. rewrite (mpsc_size_approx_spec _ _ _ _ _ Hq Hfuel).
  by rewrite iter_int_incr.
Qed.

Lemma mpmc_q_enqueue fuel m this s xs v :
  enough_fuel fuel m → is_queue m this s xs →
  ∃ m', run (MPMC_Queue.enqueue this v) m = Ok tt m' ∧ enough_fuel fuel m' ∧
        is_queue m' this s (xs ++ [(fresh (dom (nodes m)), v)]) ∧
        same_except m m' [this] [fresh (dom (nodes m)); last_addr s xs].
Proof.
  intros Hok Hq.
  destruct (mpsc_enqueue_spec _ _ _ _ v Hq) as (m' & Hrun & _ & Hq' & Hfr & Hsp).
  exists m'. rewrite mpmc_enqueue_run. unfold enough_fuel in *. by rewrite Hsp.
Qed.

Lemma mpmc_q_dequeue fuel m this s a v xs :
  enough_fuel fuel m → is_queue m this s ((a, v) :: xs) →
  ∃ m', run (MPMC_Queue.dequeue fuel this) m = Ok (Some v) m' ∧ enough_fuel fuel m' ∧
        is_queue m' this a xs ∧
        same_except m m' [this] [s; a] ∧ nodes m' !! s = None.
Proof.
  unfold enough_fuel. intros Hok Hq.
  pose proof (leading_failures_le (spurious m)) as Hle.
  destruct (mpmc_dequeue_cons _ fuel _ _ _ _ _ Hq) as (m' & Hrun & Hq' & Hfr & Hfreed & Hsp);
    [lia |].
  exists m'. split; [done |]. split; [| done].
  rewrite Hsp. pose proof (length_drop_le (spurious m) (S (leading_failures (spurious m)))).
  lia.
Qed.

(** Every node of a chain is live. *)
Lemma lseg_live (h : gmap addr (Node T)) s d xs b :
  lseg h s d xs → b ∈ s :: xs.*1 → ∃ n, h !! b = Some n.
Proof.
  intros Hch [-> | Hin]%elem_of_cons.
  - apply lseg_lookup in Hch. eauto.
  - apply list_elem_of_fmap in Hin as ([b' w] & -> & Hin).
    destruct (lseg_data _ _ _ _ _ _ Hch Hin) as [nx Hb]. eauto.
Qed.

End Classes.

Lemma deleted_app (tr1 tr2 : list event) :
  deleted (tr1 ++ tr2) = deleted tr1 ++ deleted tr2.
Proof.
  induction tr1 as [| e tr1 IH]; [done |].
  destruct e as [| [a |] | | | | | | | | |]; simpl; by rewrite ?IH.
Qed.

(** ** The move operations and what they release *)

Section Moves.
Context {T : Type}.
Implicit Types (m : State T) (q this other : qref) (a s : addr) (xs : list (addr * T)).

(** The hand-over of the pointers releases no node. *)
Lemma mpsc_hand_over_deletes_nothing m this other :
  deleted (trace (t ← act (LoadTail other);
                  _ ← act (StoreTail this t);
                  h ← act (LoadHead other);
                  _ ← act (StoreHead this h);
                  _ ← act (StoreTail other nullptr);
                  act (StoreHead other nullptr)) m) = [].
Proof.
  prog_simpl. cbn [exec_op]. destruct (read_obj other m) as [| o]; [done |].
  prog_simpl. cbn [exec_op deleted].
  destruct (read_obj other _) as [| o']; [done |]. by prog_simpl.
Qed.

Lemma mpmc_hand_over_deletes_nothing m this other :
  deleted (trace (h ← act (LoadHead other);
                  _ ← act (StoreHead this h);
                  t ← act (LoadTail other);
                  _ ← act (StoreTail this t);
                  _ ← act (StoreHead other nullptr);
                  act (StoreTail other nullptr)) m) = [].
Proof.
  prog_simpl. cbn [exec_op]. destruct (read_obj other m) as [| o]; [done |].
  prog_simpl. cbn [exec_op deleted].
  destruct (read_obj other _) as [| o']; [done |]. by prog_simpl.
Qed.

(** The nodes move assignment releases are those its own loop releases. *)
Lemma move_assign_deleted m fuel this other :
  this ≠ other →
  deleted (trace (MPSC_Queue.move_assign fuel this other) m) =
    deleted (trace (MPSC_Queue.clean_nodes fuel this) m) ∧
  deleted (trace (MPMC_Queue.move_assign fuel this other) m) =
    deleted (trace (MPSC_Queue.clean_nodes fuel this) m).
Proof.
  intros Hne. unfold MPSC_Queue.move_assign, MPMC_Queue.move_assign.
  rewrite bool_decide_eq_true_2 by done.
  change (@MPMC_Queue.clean_nodes T) with (@MPSC_Queue.clean_nodes T).
  rewrite !trace_bind, !deleted_app.
  destruct (run (MPSC_Queue.clean_nodes fuel this) m) as [[] m1 |];
    [| by rewrite !app_nil_r].
  by rewrite mpsc_hand_over_deletes_nothing, mpmc_hand_over_deletes_nothing, !app_nil_r.
Qed.

End Moves.

(** ** Threads taking turns *)

Section Racing.
Context {T : Type}.
Implicit Types (m : State T) (q this : qref) (a s : addr) (xs : list (addr * T)).

(** One turn of a thread that is about to perform an atomic action. *)
Lemma interleave_turn {A X} i sched (ts : list (prog T A)) m (e : op T X) k x m' :
  ts !! i = Some (Vis e k) → exec_op e m = Ok x m' →
  interleave (i :: sched) ts m = interleave sched (<[i := k x]> ts) m'.
Proof. intros Hi He. cbn [interleave]. rewrite Hi. cbn [step]. by rewrite He. Qed.

Lemma interleave_turn_fault {A X} i sched (ts : list (prog T A)) m (e : op T X) k f :
  ts !! i = Some (Vis e k) → exec_op e m = Fault f →
  interleave (i :: sched) ts m = Fault f.
Proof. intros Hi He. cbn [interleave]. rewrite Hi. cbn [step]. by rewrite He. Qed.

Lemma exec_dead_LoadNext m a :
  nodes m !! a = None → exec_op (LoadNext (Some a)) m = Fault (UseAfterFree a).
Proof. intros H. simpl. by rewrite H. Qed.

Lemma exec_dead_DeleteNode m a :
  nodes m !! a = None → exec_op (DeleteNode (Some a)) m = Fault (InvalidFree a).
Proof. intros H. simpl. by rewrite H. Qed.

End Racing.

Ltac turn H :=
  erewrite interleave_turn; [| reflexivity | H];
  cbn [list_insert insert mbind prog_bind mret prog_ret bind act tail head data next].

(** ** Consumers in contention *)

Section Contention.
Context {T : Type}.
Implicit Types (m : State T) (q this : qref) (a s : addr) (xs : list (addr * T)).


End Contention.

(** ** Concurrent producers of an [MPMC_Queue] *)

(** The atomic actions a thread has left at most after a schedule: those
    it had, less the turns the schedule gave it. *)
Definition turns_within {S : Type} (left : S → nat) (sched : list nat) (shift : nat)
    (sts sts' : list S) : Prop :=
  ∀ i st', sts' !! i = Some st' →
    ∃ st, sts !! i = Some st ∧ left st' ≤ left st - turns_of (shift + i) sched.

Section TurnsWithin.
Context {S : Type} (left : S → nat).

Lemma turns_within_nil shift (sts : list S) : turns_within left [] shift sts sts.
Proof. intros i st' Hi. exists st'. split; [done |]. simpl. lia. Qed.

Lemma turns_within_skip sched shift j (sts sts' : list S) :
  (∀ i, j = shift + i → sts !! i = None) →
  turns_within left sched shift sts sts' → turns_within left (j :: sched) shift sts sts'.
Proof.
  intros Hj Hturns i st' Hi. destruct (Hturns i st' Hi) as (st & Hst & Heq).
  exists st. split; [done |]. simpl.
  rewrite decide_False; [done |]. intros Heq'. apply Hj in Heq'. congruence.
Qed.

Lemma turns_within_turn sched shift i st st1 (sts sts' : list S) :
  sts !! i = Some st → left st1 ≤ pred (left st) →
  turns_within left sched shift (<[i := st1]> sts) sts' →
  turns_within left ((shift + i) :: sched) shift sts sts'.
Proof.
  intros Hi Hless Hturns j st' Hj. destruct (Hturns j st' Hj) as (st1' & Hst1 & Heq).
  destruct (decide (i = j)) as [<- | Hne].
  - rewrite list_lookup_insert_eq in Hst1 by (by eapply lookup_lt_Some).
    injection Hst1 as <-. exists st. split; [done |].
    simpl. rewrite decide_True by done. lia.
  - rewrite list_lookup_insert_ne in Hst1 by done.
    exists st1'. split; [done |]. simpl. rewrite decide_False by lia. done.
Qed.

End TurnsWithin.

Section MPMC_Producers.
Context {T : Type}.
Variable this : qref.
Implicit Types (m : State T) (a s : addr) (xs : list (addr * T)).

(** Where a producer is in its call of [MPMC_Queue::enqueue]: before the
    allocation, between the allocation and the store of null to the
    next-link of the new node, or further on, where the call goes on as
    [MPSC_Queue::enqueue] does once it has its node. *)
Inductive mstate : Type :=
| MStart (v : T)
| MFresh (a : addr) (v : T)
| MLater (st : @pstate T).
Implicit Types (st : @pstate T).

(** What is left of [MPMC_Queue.enqueue this v] at each point. *)
Definition mprog_of (mst : mstate) : prog T unit :=
  match mst with
  | MStart v => MPMC_Queue.enqueue this v
  | MFresh a v =>
      _ ← act (StoreNext (Some a) nullptr);
      prev_tail ← act (ExchangeTail this (Some a));
      act (StoreNext prev_tail (Some a))
  | MLater st => prog_of this st
  end.

(** The same point of a call of [MPSC_Queue::enqueue]. *)
Definition mpsc_point (mst : mstate) : pstate :=
  match mst with
  | MStart v => PStart v
  | MFresh a v => PAlloc a v
  | MLater st => st
  end.

Definition mturns_left (mst : mstate) : nat :=
  match mst with
  | MStart _ => 4
  | MFresh _ _ => 3
  | MLater st => turns_left st
  end.

(** The node a program is about to make the tail. *)
Definition exchange_operand {A} (p : prog T A) : ptr :=
  match p with
  | Vis e _ =>
      match e with
      | ExchangeTail _ v => v
      | _ => None
      end
  | _ => None
  end.

Lemma prog_of_alloc_inv st a v :
  prog_of this st = prog_of this (PAlloc a v) → ∃ v', st = PAlloc a v'.
Proof.
  intros Heq. pose proof (f_equal next_action Heq) as Hact.
  pose proof (f_equal exchange_operand Heq) as Hop.
  destruct st as [w | b w | prev b |]; try done.
  simpl in Hop. injection Hop as ->. by exists w.
Qed.

(** The atomic actions of a producer leave the outcomes in store for the
    compare-and-swap as they are. *)
Lemma producer_step_spurious st m p' m' :
  step (prog_of this st) m = Ok p' m' → spurious m' = spurious m.
Proof.
  destruct st as [v | a v | prev a |]; simpl.
  - by intros [= _ <-].
  - destruct (read_obj this m) as [| o]; [done |]. by intros [= _ <-].
  - destruct (deref prev m) as [| [b n]]; [done |]. by intros [= _ <-].
  - by intros [= _ <-].
Qed.

Lemma undisturbed_refl m s xs (sts : list (@pstate T)) : undisturbed m s xs sts m xs sts.
Proof. split; [done |]. split; intros x Hx; by left. Qed.

Lemma progress_refl xs (sts : list (@pstate T)) : progress xs sts [] xs sts.
Proof. exists []. by rewrite app_nil_r. Qed.

(** One atomic action of a producer of an [MPMC_Queue], among threads
    that are at the points [sts] of their calls. *)
Lemma mproducer_step m hd s xs (sts : list (@pstate T)) i mst :
  conc_inv this m hd s xs sts → sts !! i = Some (mpsc_point mst) →
  ∃ mst' xs' m',
    step (mprog_of mst) m = Ok (mprog_of mst') m' ∧
    conc_inv this m' hd s xs' (<[i := mpsc_point mst']> sts) ∧
    progress xs sts (step_event (mprog_of mst) m) xs' (<[i := mpsc_point mst']> sts) ∧
    undisturbed m s xs sts m' xs' (<[i := mpsc_point mst']> sts) ∧
    mturns_left mst' = pred (mturns_left mst) ∧
    spurious m' = spurious m.
Proof.
  intros Hinv Hi.
  destruct mst as [v | a v | st]; cbn [mpsc_point] in Hi.
  - destruct (producer_step_alloc this _ _ _ _ _ _ _ Hinv Hi)
      as (st' & m' & Hstep & Hinv' & Hprog & Hund).
    simpl in Hstep. injection Hstep as Hp Hm.
    destruct (prog_of_alloc_inv st' (fresh (dom (nodes m))) v) as [v' ->]; [done |].
    assert (v' = v) as ->.
    { assert (PAlloc (fresh (dom (nodes m))) v' ∈
                <[i := PAlloc (fresh (dom (nodes m))) v']> sts) as Hin.
      { eapply list_elem_of_lookup_2. apply list_lookup_insert_eq.
        by eapply lookup_lt_Some. }
      pose proof (ci_private _ _ _ _ _ _ Hinv' _ _ Hin) as Hnode.
      rewrite <- Hm in Hnode. simpl in Hnode. rewrite lookup_insert_eq in Hnode.
      congruence. }
    exists (MFresh (fresh (dom (nodes m))) v), xs, m'. subst m'. done.
  - assert (nodes m !! a = Some (mkNode (Some v) None)) as Hnode.
    { apply (ci_private _ _ _ _ _ _ Hinv). by eapply list_elem_of_lookup_2. }
    assert (set_nodes (insert a (mkNode (Some v) None)) m = m) as Hsame.
    { destruct m as [h o sp]. unfold set_nodes. simpl in *. by rewrite insert_id. }
    exists (MLater (PAlloc a v)), xs, m.
    cbn [mpsc_point]. rewrite (list_insert_id _ _ _ Hi).
    simpl. rewrite Hnode. simpl. unfold nullptr. rewrite Hsame.
    split; [done |]. split; [done |]. split; [exists []; by rewrite app_nil_r |].
    split; [apply undisturbed_refl | done].
  - destruct (producer_step this _ _ _ _ _ _ _ Hinv Hi)
      as (st' & xs' & m' & Hstep & Hinv' & Hprog & Hund).
    exists (MLater st'), xs', m'.
    split; [done |]. split; [done |]. split; [done |]. split; [done |]. split.
    + by eapply producer_step_turns.
    + by eapply producer_step_spurious.
Qed.

(** Producers interleaved in any way never fault and keep the invariant. *)
Lemma mproducers_interleave sched m hd s xs (msts : list mstate) :
  conc_inv this m hd s xs (mpsc_point <$> msts) →
  ∃ msts' xs' m',
    interleave sched (mprog_of <$> msts) m = Ok (mprog_of <$> msts') m' ∧
    conc_inv this m' hd s xs' (mpsc_point <$> msts') ∧
    progress xs (mpsc_point <$> msts) (interleave_trace sched (mprog_of <$> msts) m) xs'
      (mpsc_point <$> msts') ∧
    turns_within mturns_left sched 0 msts msts' ∧
    spurious m' = spurious m ∧
    ∃ added, xs' = xs ++ added ∧
             placed 0 (mpsc_point <$> msts)
               (interleave_log sched (mprog_of <$> msts) m) added.
Proof.
  revert m xs msts. induction sched as [| i sched IH]; intros m xs msts Hinv.
  - exists msts, xs, m. split; [done |]. split; [done |].
    split; [apply progress_refl |]. split; [apply turns_within_nil |].
    split; [done |]. exists []. split; [by rewrite app_nil_r | apply placed_nil].
  - cbn [interleave interleave_trace interleave_log]. rewrite list_lookup_fmap.
    destruct (msts !! i) as [mst |] eqn:Hi; cbn [fmap option_fmap option_map].
    2:{ destruct (IH _ _ _ Hinv)
          as (msts' & xs' & m' & Hrun & Hinv' & Hprog & Hturns & Hsp & Hpl).
        exists msts', xs', m'. split; [done |]. split; [done |]. split; [done |].
        split; [| done]. apply turns_within_skip; [| done]. by intros j ->. }
    assert ((mpsc_point <$> msts) !! i = Some (mpsc_point mst)) as Hi'.
    { by rewrite list_lookup_fmap, Hi. }
    destruct (mproducer_step _ _ _ _ _ _ _ Hinv Hi')
      as (mst' & xs1 & m1 & Hstep & Hinv1 & (added1 & -> & Hw1 & He1) & _ & Hless & Hsp1).
    pose proof Hw1 as Hw1'.
    rewrite <- list_fmap_insert in Hinv1, Hw1.
    rewrite Hstep. rewrite <- list_fmap_insert.
    destruct (IH _ _ _ Hinv1)
      as (msts' & xs' & m' & Hrun & Hinv' & (added & -> & Hw & He) & Hturns & Hsp
          & added2 & Heq & Hpl).
    apply app_inv_head in Heq as <-.
    exists msts', ((xs ++ added1) ++ added), m'. split; [done |]. split; [done |].
    split; [| split; [| split]].
    + exists (added1 ++ added). split; [by rewrite app_assoc |]. split.
      * rewrite fmap_app, <- app_assoc, Hw. done.
      * rewrite fmap_app, exchanged_app, He1, He. done.
    + apply (turns_within_turn mturns_left sched 0 i mst mst'); [done | lia | done].
    + by rewrite Hsp.
    + exists (added1 ++ added). split; [by rewrite app_assoc |].
      rewrite list_fmap_insert in Hpl.
      apply (placed_turn 0 (mpsc_point <$> msts) i (mpsc_point mst) (mpsc_point mst')
               _ _ added1 added Hi' Hw1' He1 Hpl).
Qed.

Lemma mpsc_point_start (vs : list T) :
  mpsc_point <$> (MStart <$> vs) = PStart <$> vs.
Proof. by rewrite <- list_fmap_compose. Qed.

Lemma mprog_of_returned mst : mprog_of mst = Ret tt → mpsc_point mst = PDone.
Proof. by destruct mst as [| | []]. Qed.

(** A producer that has had four turns is back from its call, whatever
    turns the other threads had. *)
Lemma mturns_within_returned sched shift (vs : list T) msts' i :
  turns_within mturns_left sched shift (MStart <$> vs) msts' →
  length msts' = length vs →
  i < length vs → 4 ≤ turns_of (shift + i) sched →
  ∃ mst', msts' !! i = Some mst' ∧ mprog_of mst' = Ret tt.
Proof.
  intros Hturns Hlen Hi Hfair.
  destruct (lookup_lt_is_Some_2 msts' i) as [mst' Hst']; [lia |].
  exists mst'. split; [done |].
  destruct (Hturns i mst' Hst') as (mst & Hst & Hleft).
  rewrite list_lookup_fmap in Hst.
  destruct (vs !! i) as [v |]; [| done]. injection Hst as <-.
  destruct mst' as [| | []]; simpl in Hleft; try lia. done.
Qed.

(** The atomic actions of a call of [MPMC_Queue::enqueue], given the node
    [a] it allocates and the previous tail [prev] its exchange obtains. *)
Definition menqueue_script (a : addr) (prev : ptr) : list event :=
  [EvNew a; EvStoreNext (Some a) nullptr; EvExchangeTail this (Some a);
   EvStoreNext prev (Some a)].

(** Whatever the other threads of a pool do, the actions of a thread that
    calls [MPMC_Queue::enqueue] and returns are those four, in order. *)
Lemma mproducer_script sched (ts : list (prog T unit)) m ts' m' i v :
  interleave sched ts m = Ok ts' m' →
  ts !! i = Some (MPMC_Queue.enqueue this v) → ts' !! i = Some (Ret tt) →
  ∃ a prev, events_of i (interleave_log sched ts m) = menqueue_script a prev.
Proof.
  revert ts m. induction sched as [| j sched IH]; intros ts m Hrun Hi Hret.
  - simpl in Hrun. injection Hrun as <- <-. rewrite Hi in Hret. done.
  - cbn [interleave interleave_log] in *.
    destruct (ts !! j) as [p |] eqn:Hj; [| by eapply IH].
    destruct (step p m) as [p' m1 |] eqn:Hstep; [| done].
    rewrite events_of_app.
    destruct (decide (j = i)) as [-> | Hne].
    2:{ rewrite events_of_other by done.
        apply (IH _ _ Hrun); [by rewrite list_lookup_insert_ne | done]. }
    rewrite Hi in Hj. injection Hj as <-.
    assert (i < length ts) as Hlt by (by eapply lookup_lt_Some).
    rewrite events_of_own.
    simpl in Hstep. injection Hstep as <- <-. simpl.
    remember (fresh (dom (nodes m))) as a eqn:Ha. clear Ha.
    clear IH Hi.
    assert (∀ sched' (ts1 : list (prog T unit)) m1,
              interleave sched' ts1 m1 = Ok ts' m' →
              ts1 !! i = Some (mprog_of (MFresh a v)) →
              ∃ prev, events_of i (interleave_log sched' ts1 m1) =
                      [EvStoreNext (Some a) nullptr; EvExchangeTail this (Some a);
                       EvStoreNext prev (Some a)]) as Hrest.
    { clear Hrun Hlt ts m. induction sched' as [| j sched' IH]; intros ts m Hrun Hi.
      - simpl in Hrun. injection Hrun as <- <-. rewrite Hi in Hret. done.
      - cbn [interleave interleave_log] in *.
        destruct (ts !! j) as [p |] eqn:Hj; [| by eapply IH].
        destruct (step p m) as [p' m1 |] eqn:Hstep; [| done].
        rewrite events_of_app.
        destruct (decide (j = i)) as [-> | Hne].
        2:{ rewrite events_of_other by done.
            apply (IH _ _ Hrun). by rewrite list_lookup_insert_ne. }
        rewrite Hi in Hj. injection Hj as <-.
        assert (i < length ts) as Hlt by (by eapply lookup_lt_Some).
        rewrite events_of_own.
        simpl in Hstep. simpl. destruct (nodes m !! a) as [n |]; [| done].
        injection Hstep as <- <-.
        destruct (producer_script this sched' _ _ _ _ i (PAlloc a v) Hrun)
          as (a' & prev & Hag & Hev); [by rewrite list_lookup_insert_eq | done |].
        simpl in Hag. subst a'. exists prev. rewrite Hev. reflexivity. }
    destruct (Hrest sched _ _ Hrun) as [prev Hev]; [by rewrite list_lookup_insert_eq |].
    exists a, prev. rewrite Hev. reflexivity.
Qed.

(** Any number of producers calling [MPMC_Queue::enqueue] concurrently,
    under any schedule of their atomic actions. *)
Lemma mpmc_producers_schedule sched m s xs (vs : list T) :
  is_queue m this s xs →
  ∃ ts m',
    interleave sched (MPMC_Queue.enqueue this <$> vs) m = Ok ts m' ∧
    spurious m' = spurious m ∧
    (∀ i, i < length vs → 4 ≤ turns_of i sched → ts !! i = Some (Ret tt)) ∧
    ((∀ t, t ∈ ts → t = Ret tt) →
     ∃ ys, ys = enqueued_by (λ i, vs !! i)
                  (interleave_log sched (MPMC_Queue.enqueue this <$> vs) m) ∧
           is_queue m' this s (xs ++ ys) ∧ ys.*2 ≡ₚ vs).
Proof.
  intros Hq.
  assert (MPMC_Queue.enqueue this <$> vs = mprog_of <$> (MStart <$> vs)) as ->.
  { by rewrite <- list_fmap_compose. }
  pose proof (conc_inv_start this m s xs vs Hq) as Hinv0.
  rewrite <- mpsc_point_start in Hinv0.
  destruct (mproducers_interleave sched _ _ _ _ _ Hinv0)
    as (msts' & xs' & m' & Hrun & Hinv & (added & -> & Hw & He) & Hturns & Hsp
        & added' & Heq & Hpl).
  apply app_inv_head in Heq as <-.
  exists (mprog_of <$> msts'), m'. split; [done |]. split; [done |]. split.
  - intros i Hi Hfair.
    pose proof (interleave_length _ _ _ _ _ Hrun) as Hlen. rewrite !length_fmap in Hlen.
    destruct (mturns_within_returned sched 0 vs msts' i Hturns Hlen Hi Hfair)
      as (mst' & Hst' & Hret).
    by rewrite list_lookup_fmap, Hst', <- Hret.
  - intros Hdone.
    assert (∀ st, st ∈ mpsc_point <$> msts' → st = PDone) as Hall.
    { intros st (mst' & -> & Hst')%list_elem_of_fmap. apply mprog_of_returned.
      apply Hdone. by apply list_elem_of_fmap_2. }
    destruct (conc_inv_all_done this _ _ _ _ Hinv Hall) as [Hq' Hnone].
    rewrite mpsc_point_start in Hpl, Hw.
    exists added. split; [| split; [done |]].
    + symmetry. by apply (placed_enqueued_by 0 vs).
    + rewrite Hnone, app_nil_r, waiting_of_start in Hw. by rewrite Hw.
Qed.

End MPMC_Producers.

(** ** One consumer of an [MPMC_Queue] among its producers *)

Section MPMC_Consumer.
Context {T : Type}.
Variable this : qref.
(** The attempts each call of [dequeue] may make. *)
Variable fuel : nat.
Implicit Types (m : State T) (a s : addr) (xs : list (addr * T))
  (sts : list (@pstate T)) (msts : list (@mstate T)).

(** Where the consumer is in a call of [MPMC_Queue::dequeue], with the
    attempts it has left: before the read of [head], after it, after the
    read of a non-null next-link, after winning the compare-and-swap, after
    the move of the payload. *)
Inductive mcstate : Type :=
| MCIdle (f : nat)
| MCLoaded (f : nat) (h : ptr)
| MCNext (f : nat) (h : ptr) (a : addr)
| MCWon (h : ptr) (a : addr)
| MCMoved (h : ptr) (r : option T).

(** What is left of [MPMC_Queue.dequeue f this] at each point. *)
Definition mdeq_rest (c : mcstate) : prog T (option T) :=
  match c with
  | MCIdle f => MPMC_Queue.dequeue f this
  | MCLoaded f h =>
      next_node ← act (LoadNext h);
      match next_node with
      | None => Ret None
      | Some _ =>
          ok ← act (CasHead this h next_node);
          if ok : bool then
            result ← act (MoveData next_node);
            _ ← act (DeleteNode h);
            Ret result
          else MPMC_Queue.dequeue f this
      end
  | MCNext f h a =>
      ok ← act (CasHead this h (Some a));
      if ok : bool then
        result ← act (MoveData (Some a));
        _ ← act (DeleteNode h);
        Ret result
      else MPMC_Queue.dequeue f this
  | MCWon h a =>
      result ← act (MoveData (Some a));
      _ ← act (DeleteNode h);
      Ret result
  | MCMoved h r =>
      _ ← act (DeleteNode h);
      Ret r
  end.

(** The calls after the current one. *)
Definition mthen_dequeue (n : nat) (r : option T) : prog T (list (option T)) :=
  rs ← dequeue_n (MPMC_Queue.dequeue fuel) this n; Ret (r :: rs).

Inductive mconsumer : Type :=
| MRunning (acc : list (option T)) (c : mcstate) (n : nat)
| MFinished (acc : list (option T)).

Definition mcprog (cs : mconsumer) : prog T (list (option T)) :=
  match cs with
  | MRunning acc c n => plug acc (r ← mdeq_rest c; mthen_dequeue n r)
  | MFinished acc => plug acc (Ret [])
  end.

Definition mbetween (acc : list (option T)) (n : nat) : mconsumer :=
  match n with
  | O => MFinished acc
  | S n' => MRunning acc (MCIdle fuel) n'
  end.

(** A producer thread: a call of [enqueue], returning no answers. *)
Definition mpprog (mst : mstate) : prog T (list (option T)) :=
  _ ← mprog_of this mst; Ret [].

Lemma mcprog_start k :
  dequeue_n (MPMC_Queue.dequeue fuel) this k = mcprog (mbetween [] k).
Proof. by destruct k. Qed.

Lemma mcprog_between acc r n :
  plug acc (mthen_dequeue n r) = mcprog (mbetween (acc ++ [r]) n).
Proof. unfold mthen_dequeue. rewrite <- plug_snoc. by destruct n. Qed.

Lemma step_mpprog mst m :
  step (mpprog mst) m =
  match step (mprog_of this mst) m with
  | Ok p' m' => Ok (_ ← p'; Ret []) m'
  | Fault e => Fault e
  end.
Proof.
  destruct mst as [v | a v | [v | a v | prev a |]]; simpl; try done.
  - by destruct (nodes m !! a).
  - by destruct (read_obj this m).
  - by destruct (deref prev m) as [| []].
Qed.

Lemma step_event_mpprog mst m :
  step_event (mpprog mst) m = step_event (mprog_of this mst) m.
Proof. by destruct mst as [| | []]. Qed.

Definition mholding (c : mcstate) : list T :=
  match c with
  | MCMoved _ r => option_list r
  | _ => []
  end.

Definition mserved (cs : mconsumer) : list T :=
  match cs with
  | MRunning acc c _ => somes acc ++ mholding c
  | MFinished acc => somes acc
  end.

(** What the consumer relies on at each point of a call.  Until the
    compare-and-swap is won [head] is the first node of the chain; then
    [head] is the node behind it, whose payload is still to be moved out;
    from the move on the chain starts at that node, and the old sentinel,
    not yet deleted, is live and is no node of the chain or of a producer.
    The call has more attempts left than there are spurious failures in
    store. *)
Definition mcons_inv m (c : mcstate) (hd : ptr) s xs sts : Prop :=
  match c with
  | MCIdle f => hd = Some s ∧ length (spurious m) < f
  | MCLoaded f h => hd = Some s ∧ h = Some s ∧ length (spurious m) ≤ f
  | MCNext f h a =>
      hd = Some s ∧ h = Some s ∧ (∃ v xs', xs = (a, v) :: xs') ∧
      (a ∉ omap linking_of sts) ∧ length (spurious m) ≤ f
  | MCWon h a =>
      hd = Some a ∧ h = Some s ∧ (∃ v xs', xs = (a, v) :: xs') ∧
      a ∉ omap linking_of sts
  | MCMoved h r =>
      hd = Some s ∧ ∃ s0, h = Some s0 ∧ is_Some (nodes m !! s0) ∧
                          s0 ∉ (s :: xs.*1) ++ omap private_of sts
  end.

Definition mconsumer_inv m (cs : mconsumer) (hd : ptr) s xs sts : Prop :=
  length (spurious m) < fuel ∧
  match cs with
  | MRunning _ c _ => mcons_inv m c hd s xs sts
  | MFinished _ => hd = Some s
  end.

Lemma mserved_between acc n : mserved (mbetween acc n) = somes acc.
Proof. destruct n; simpl; [done | by rewrite app_nil_r]. Qed.

Lemma mconsumer_inv_between m acc n s xs sts :
  length (spurious m) < fuel → mconsumer_inv m (mbetween acc n) (Some s) s xs sts.
Proof. by destruct n. Qed.

(** The atomic actions the consumer has left to perform at most: five for
    a call that wins its first compare-and-swap, and three more for every
    spurious failure in store. *)
Definition mcall_left (c : mcstate) : nat :=
  match c with
  | MCIdle _ => 5 | MCLoaded _ _ => 4 | MCNext _ _ _ => 3
  | MCWon _ _ => 2 | MCMoved _ _ => 1
  end.

Definition mactions_left (cs : mconsumer) m : nat :=
  match cs with
  | MRunning _ c n => mcall_left c + 5 * n + 3 * length (spurious m)
  | MFinished _ => 0
  end.

Lemma mactions_left_between acc n m :
  mactions_left (mbetween acc n) m ≤ 5 * n + 3 * length (spurious m).
Proof. destruct n; simpl; lia. Qed.

(** One atomic action of the consumer. *)
Lemma mconsumer_step m cs sts hd s xs :
  conc_inv this m hd s xs sts → mconsumer_inv m cs hd s xs sts →
  ∃ cs' hd' s' xs' m',
    mactions_left cs' m' ≤ pred (mactions_left cs m) ∧
    step (mcprog cs) m = Ok (mcprog cs') m' ∧
    conc_inv this m' hd' s' xs' sts ∧ mconsumer_inv m' cs' hd' s' xs' sts ∧
    mserved cs' ++ xs'.*2 = mserved cs ++ xs.*2 ∧
    exchanged (step_event (mcprog cs) m) = [].
Proof.
  intros Hinv [Hfuel Hcons]. destruct cs as [acc c n | acc].
  2:{ exists (MFinished acc), hd, s, xs, m. split; [simpl; lia |].
      simpl. rewrite plug_ret. done. }
  pose proof (ci_obj _ _ _ _ _ _ Hinv) as Hobj.
  pose proof (ci_chain _ _ _ _ _ _ Hinv) as Hch.
  destruct c as [f | f h | f h a | h a | h r]; cbn [mcons_inv] in Hcons.
  - (* read of head *)
    destruct Hcons as [-> Hf]. destruct f as [| f]; [lia |].
    exists (MRunning acc (MCLoaded f (Some s)) n), (Some s), s, xs, m.
    split; [simpl; lia |].
    cbn [mcprog mdeq_rest MPMC_Queue.dequeue]. prog_simpl.
    rewrite plug_vis. simpl. unfold read_obj. rewrite Hobj. simpl.
    split; [done |]. split; [done |]. split; [| done].
    split; [done |]. simpl. split; [done |]. split; [done | lia].
  - (* read of the next-link *)
    destruct Hcons as (-> & -> & Hf).
    pose proof (pchain_lookup _ _ _ _ _ Hch) as Hs.
    cbn [mcprog mdeq_rest]. prog_simpl. rewrite plug_vis. simpl. rewrite Hs. simpl.
    destruct xs as [| [a v] xs'].
    + exists (mbetween (acc ++ [None]) n), (Some s), s, [], m.
      split; [pose proof (mactions_left_between (acc ++ [None]) n m); simpl; lia |].
      simpl. rewrite mcprog_between. split; [done |]. split; [done |].
      split; [by apply mconsumer_inv_between |].
      rewrite mserved_between, somes_snoc. simpl. by rewrite !app_nil_r.
    + simpl. destruct (decide (a ∈ omap linking_of sts)) as [Ha | Ha].
      * exists (mbetween (acc ++ [None]) n), (Some s), s, ((a, v) :: xs'), m.
        split; [pose proof (mactions_left_between (acc ++ [None]) n m); simpl; lia |].
        simpl. rewrite mcprog_between. split; [done |]. split; [done |].
        split; [by apply mconsumer_inv_between |].
        rewrite mserved_between, somes_snoc. simpl. by rewrite !app_nil_r.
      * exists (MRunning acc (MCNext f (Some s) a) n), (Some s), s, ((a, v) :: xs'), m.
        split; [simpl; lia |].
        split; [done |]. split; [done |]. split; [| done].
        split; [done |]. simpl. eauto 10.
  - (* compare-and-swap *)
    destruct Hcons as (-> & -> & Hxs & Ha & Hf).
    cbn [mcprog mdeq_rest]. prog_simpl. rewrite plug_vis. simpl.
    unfold read_obj. rewrite Hobj. simpl. rewrite bool_decide_eq_true_2 by done.
    revert Hfuel Hf. destruct (spurious m) as [| [] sp] eqn:Hsp; simpl; intros Hfuel Hf.
    + (* no failure in store *)
      exists (MRunning acc (MCWon (Some s) a) n), (Some a), s, xs,
        (write_obj this (with_head (Some a)) (mkState (nodes m) (objs m) [])).
      split; [simpl; lia |]. split; [done |]. split; [| split; [| done]].
      * split; simpl; try apply Hinv.
        by rewrite lookup_insert_eq, Hobj.
      * split; cbn; [lia |]. done.
    + (* a spurious failure *)
      exists (MRunning acc (MCIdle f) n), (Some s), s, xs,
        (mkState (nodes m) (objs m) sp).
      split; [simpl; lia |]. split; [done |]. split; [| split; [| done]].
      * split; simpl; apply Hinv.
      * split; cbn; [lia |]. split; [done | lia].
    + exists (MRunning acc (MCWon (Some s) a) n), (Some a), s, xs,
        (write_obj this (with_head (Some a)) (mkState (nodes m) (objs m) sp)).
      split; [simpl; lia |]. split; [done |]. split; [| split; [| done]].
      * split; simpl; try apply Hinv.
        by rewrite lookup_insert_eq, Hobj.
      * split; cbn; [lia |]. done.
  - (* move of the payload *)
    destruct Hcons as (-> & -> & (v & xs' & ->) & Ha).
    pose proof (ci_nodup _ _ _ _ _ _ Hinv) as Hnd.
    simpl in Hch. rewrite decide_False in Hch by done. destruct Hch as [Hs Hch].
    pose proof (pchain_lookup _ _ _ _ _ Hch) as Hnode.
    change ((s :: ((a, v) :: xs').*1) ++ omap private_of sts)
      with (s :: ((a :: xs'.*1) ++ omap private_of sts)) in Hnd.
    apply NoDup_cons in Hnd as [Hs_notin Hnd].
    assert (a ∉ xs'.*1) as Ha_tail.
    { apply NoDup_app in Hnd as (Hnd & _). by apply NoDup_cons in Hnd as [? _]. }
    exists (MRunning acc (MCMoved (Some s) (Some v)) n), (Some a), a, xs',
      (set_nodes (insert a (mkNode None (pfirst (omap linking_of sts) xs'))) m).
    split; [simpl; lia |].
    cbn [mcprog mdeq_rest]. prog_simpl. rewrite plug_vis. simpl. rewrite Hnode. simpl.
    split; [done |]. split; [| split].
    + split; simpl.
      * exact Hobj.
      * by apply (pchain_set_data _ _ _ (Some v)).
      * exact Hnd.
      * apply (ci_nodup_link _ _ _ _ _ _ Hinv).
      * intros b w Hb. rewrite lookup_insert_ne; [by apply (ci_private _ _ _ _ _ _ Hinv) |].
        intros <-. apply NoDup_app in Hnd as (_ & Hdisj & _).
        apply (Hdisj a); [apply elem_of_cons; by left |].
        apply list_elem_of_omap. by exists (PAlloc a w).
      * intros prev b Hb.
        destruct (ci_link _ _ _ _ _ _ Hinv _ _ Hb) as (l1 & w & l2 & Heq & ->).
        destruct l1 as [| [a' v'] l1]; simpl in Heq.
        -- injection Heq as -> -> ->. exfalso. apply Ha.
           apply list_elem_of_omap. by exists (PLink (Some s) b).
        -- injection Heq as -> -> ->. by exists l1, w, l2.
    + split; [done |]. split; [done |]. exists s. split; [done |]. split; [| done].
      apply insert_keeps_live. rewrite Hs. eauto.
    + split; [| done]. simpl. by rewrite app_nil_r, <- app_assoc.
  - (* delete of the old sentinel; the call returns *)
    destruct Hcons as (-> & s0 & -> & [n0 Hlive] & Hs0).
    exists (mbetween (acc ++ [r]) n), (Some s), s, xs, (set_nodes (delete s0) m).
    split; [pose proof (mactions_left_between (acc ++ [r]) n (set_nodes (delete s0) m));
            simpl in *; lia |].
    cbn [mcprog mdeq_rest]. prog_simpl. rewrite plug_vis. simpl. rewrite Hlive.
    rewrite mcprog_between. split; [done |]. split; [| split].
    + split; simpl.
      * exact Hobj.
      * eapply pchain_agree; [| exact Hch]. intros b Hb. apply lookup_delete_ne.
        intros <-. apply Hs0. apply elem_of_app. by left.
      * apply (ci_nodup _ _ _ _ _ _ Hinv).
      * apply (ci_nodup_link _ _ _ _ _ _ Hinv).
      * intros b w Hb. rewrite lookup_delete_ne; [by apply (ci_private _ _ _ _ _ _ Hinv) |].
        intros <-. apply Hs0. apply elem_of_app. right.
        apply list_elem_of_omap. by exists (PAlloc s0 w).
      * apply (ci_link _ _ _ _ _ _ Hinv).
    + by apply mconsumer_inv_between.
    + split; [| done]. by rewrite mserved_between, somes_snoc.
Qed.

(** The atomic actions of the producers leave what the consumer relies on
    as it is. *)
Lemma mconsumer_inv_undisturbed m cs hd s xs sts m' added sts' :
  conc_inv this m hd s xs sts → mconsumer_inv m cs hd s xs sts →
  undisturbed m s xs sts m' (xs ++ added) sts' → spurious m' = spurious m →
  mconsumer_inv m' cs hd s (xs ++ added) sts'.
Proof.
  intros Hinv [Hfuel Hcons] (Hlive & Hown & Hlink) Hsp.
  split; [by rewrite Hsp |].
  destruct cs as [acc c n | acc]; [| done].
  assert (∀ a v xs', xs = (a, v) :: xs' → a ∉ omap linking_of sts →
                     a ∉ omap linking_of sts') as Hfirst.
  { intros a v xs' -> Ha [Hin | Hin]%Hlink; [done |].
    pose proof (ci_nodup _ _ _ _ _ _ Hinv) as Hnd.
    apply NoDup_app in Hnd as (_ & Hdisj & _). apply (Hdisj a); [| done].
    simpl. apply elem_of_cons. right. apply elem_of_cons. by left. }
  destruct c as [f | f h | f h a | h a | h r]; cbn [mcons_inv] in *; rewrite ?Hsp;
    try done.
  - destruct Hcons as (-> & -> & (v & xs' & ->) & Ha & Hf).
    split; [done |]. split; [done |]. split; [by exists v, (xs' ++ added) |].
    split; [by eapply Hfirst | done].
  - destruct Hcons as (-> & -> & (v & xs' & ->) & Ha).
    split; [done |]. split; [done |]. split; [by exists v, (xs' ++ added) |].
    by eapply Hfirst.
  - destruct Hcons as (-> & s0 & -> & Hs0 & Hni).
    split; [done |]. exists s0. split; [done |]. split; [by apply Hlive |].
    intros [Hin | Hnone]%Hown; [done |].
    rewrite Hnone in Hs0. by destruct Hs0.
Qed.

(** The consumer and the producers interleaved in any way never fault and
    keep the invariants. *)
Lemma mpmc_interleave sched m cs msts hd s xs :
  conc_inv this m hd s xs (mpsc_point <$> msts) →
  mconsumer_inv m cs hd s xs (mpsc_point <$> msts) →
  ∃ cs' msts' hd' s' xs' m' (added : list (addr * T)),
    interleave sched (mcprog cs :: (mpprog <$> msts)) m =
      Ok (mcprog cs' :: (mpprog <$> msts')) m' ∧
    conc_inv this m' hd' s' xs' (mpsc_point <$> msts') ∧
    mconsumer_inv m' cs' hd' s' xs' (mpsc_point <$> msts') ∧
    mserved cs' ++ xs'.*2 = (mserved cs ++ xs.*2) ++ added.*2 ∧
    added.*2 ++ omap waiting_of (mpsc_point <$> msts') ≡ₚ
      omap waiting_of (mpsc_point <$> msts) ∧
    added.*1 = exchanged (interleave_trace sched (mcprog cs :: (mpprog <$> msts)) m) ∧
    mactions_left cs' m' ≤ mactions_left cs m - turns_of 0 sched ∧
    turns_within mturns_left sched 1 msts msts' ∧
    placed 1 (mpsc_point <$> msts)
      (interleave_log sched (mcprog cs :: (mpprog <$> msts)) m) added.
Proof.
  revert m cs msts hd s xs.
  induction sched as [| i sched IH]; intros m cs msts hd s xs Hinv Hcons.
  - exists cs, msts, hd, s, xs, m, []. simpl. rewrite app_nil_r.
    repeat (split; [done |]). split; [lia |].
    split; [apply turns_within_nil | apply placed_nil].
  - destruct i as [| i].
    + destruct (mconsumer_step _ _ _ _ _ _ Hinv Hcons)
        as (cs1 & hd1 & s1 & xs1 & m1 & Hless & Hstep & Hinv1 & Hcons1 & Hserved & Hev).
      destruct (IH _ _ _ _ _ _ Hinv1 Hcons1)
        as (cs' & msts' & hd' & s' & xs' & m' & added
            & Hrun & Hinv' & Hcons' & Hs' & Hw & He & Hleft & Hturns & Hpl).
      exists cs', msts', hd', s', xs', m', added.
      cbn [interleave interleave_trace interleave_log].
      change ((mcprog cs :: (mpprog <$> msts)) !! 0) with (Some (mcprog cs)).
      cbv beta iota. rewrite Hstep.
      change (<[0 := mcprog cs1]> (mcprog cs :: (mpprog <$> msts)))
        with (mcprog cs1 :: (mpprog <$> msts)).
      split; [done |]. split; [done |]. split; [done |].
      split; [by rewrite Hs', Hserved |]. split; [done |].
      split; [by rewrite exchanged_app, Hev |]. split; [| split].
      * simpl. lia.
      * apply turns_within_skip; [| done]. intros j Hj. lia.
      * by apply placed_quiet.
    + cbn [interleave interleave_trace interleave_log].
      change ((mcprog cs :: (mpprog <$> msts)) !! S i) with ((mpprog <$> msts) !! i).
      rewrite list_lookup_fmap.
      destruct (msts !! i) as [mst |] eqn:Hi; cbn [fmap option_fmap option_map].
      2:{ destruct (IH _ _ _ _ _ _ Hinv Hcons)
            as (cs' & msts' & hd' & s' & xs' & m' & added
                & Hrun & Hinv' & Hcons' & Hs' & Hw & He & Hleft & Hturns & Hpl).
          exists cs', msts', hd', s', xs', m', added.
          repeat (split; [done |]). split; [| done].
          apply turns_within_skip; [| done]. intros j Hj.
          assert (j = i) as -> by lia. done. }
      assert ((mpsc_point <$> msts) !! i = Some (mpsc_point mst)) as Hi'.
      { by rewrite list_lookup_fmap, Hi. }
      destruct (mproducer_step this _ _ _ _ _ _ _ Hinv Hi')
        as (mst' & xs1 & m1 & Hstep & Hinv1 & (added1 & -> & Hw1 & He1) & Hund
            & Hless & Hsp).
      pose proof Hw1 as Hw1'.
      rewrite <- list_fmap_insert in Hinv1, Hw1, Hund.
      rewrite step_mpprog, Hstep, step_event_mpprog.
      change (mprog_of this mst' ≫= λ _ : (), Ret []) with (mpprog mst').
      change (<[S i := mpprog mst']> (mcprog cs :: (mpprog <$> msts)))
        with (mcprog cs :: <[i := mpprog mst']> (mpprog <$> msts)).
      rewrite <- (list_fmap_insert mpprog).
      pose proof (mconsumer_inv_undisturbed _ _ _ _ _ _ _ _ _ Hinv Hcons Hund Hsp)
        as Hcons1.
      destruct (IH _ _ _ _ _ _ Hinv1 Hcons1)
        as (cs' & msts' & hd' & s' & xs' & m' & added
            & Hrun & Hinv' & Hcons' & Hs' & Hw & He & Hleft & Hturns & Hpl).
      exists cs', msts', hd', s', xs', m', (added1 ++ added).
      split; [done |]. split; [done |]. split; [done |].
      split; [| split; [| split; [| split; [| split]]]].
      * rewrite Hs', !fmap_app, !app_assoc. done.
      * rewrite fmap_app, <- app_assoc, Hw. done.
      * rewrite fmap_app, exchanged_app, He1, He. done.
      * assert (mactions_left cs m1 = mactions_left cs m) as Heq.
        { destruct cs; simpl; by rewrite ?Hsp. }
        simpl. rewrite <- Heq. exact Hleft.
      * apply (turns_within_turn mturns_left sched 1 i mst mst'); [done | lia | done].
      * rewrite list_fmap_insert in Hpl.
        apply (placed_turn 1 (mpsc_point <$> msts) i (mpsc_point mst) (mpsc_point mst')
                 _ _ added1 added Hi' Hw1' He1 Hpl).
Qed.

(** One consumer making [k] calls of [MPMC_Queue::dequeue] while any
    number of producers call [enqueue], under any schedule of their atomic
    actions and whatever spurious failures the compare-and-swap meets. *)
Lemma mpmc_one_consumer_schedule sched m s xs k (vs : list T) :
  is_queue m this s xs → length (spurious m) < fuel →
  ∃ ts m',
    interleave sched
      (dequeue_n (MPMC_Queue.dequeue fuel) this k
       :: ((λ v, _ ← MPMC_Queue.enqueue this v; Ret []) <$> vs)) m = Ok ts m' ∧
    (5 * k + 3 * length (spurious m) ≤ turns_of 0 sched →
     ∃ rs, ts !! 0 = Some (Ret rs)) ∧
    (∀ i, i < length vs → 4 ≤ turns_of (S i) sched → ts !! S i = Some (Ret [])) ∧
    ((∀ t, t ∈ ts → ∃ rs, t = Ret rs) →
     ∃ rs ys s' rest,
       ts !! 0 = Some (Ret rs) ∧
       ys = enqueued_by (behind_consumer vs)
              (interleave_log sched
                 (dequeue_n (MPMC_Queue.dequeue fuel) this k
                  :: ((λ v, _ ← MPMC_Queue.enqueue this v; Ret []) <$> vs)) m) ∧
       ys.*2 ≡ₚ vs ∧
       omap id rs ++ rest.*2 = xs.*2 ++ ys.*2 ∧
       is_queue m' this s' rest).
Proof.
  intros Hq Hfuel.
  assert ((λ v, _ ← MPMC_Queue.enqueue this v; Ret []) <$> vs
          = mpprog <$> (MStart <$> vs)) as ->.
  { by rewrite <- list_fmap_compose. }
  rewrite mcprog_start.
  pose proof (conc_inv_start this m s xs vs Hq) as Hinv0.
  rewrite <- mpsc_point_start in Hinv0.
  destruct (mpmc_interleave sched _ _ _ _ _ _ Hinv0
              (mconsumer_inv_between m [] k s xs _ Hfuel))
    as (cs' & msts' & hd' & s' & xs' & m' & added
        & Hrun & Hinv & Hcons & Hs & Hw & He & Hleft & Hturns & Hpl).
  exists (mcprog cs' :: (mpprog <$> msts')), m'. split; [done |]. split; [| split].
  - intros Hfair0.
    pose proof (mactions_left_between [] k m) as Hstart.
    destruct cs' as [acc c n | acc].
    + destruct c; simpl in Hleft; lia.
    + exists (acc ++ []). simpl. by rewrite plug_ret.
  - intros i Hi Hfair.
    pose proof (interleave_length _ _ _ _ _ Hrun) as Hlen.
    simpl in Hlen. rewrite !length_fmap in Hlen.
    destruct (mturns_within_returned this sched 1 vs msts' i Hturns) as (mst' & Hst' & Hret);
      [lia | done | done |].
    change ((mcprog cs' :: (mpprog <$> msts')) !! S i) with ((mpprog <$> msts') !! i).
    rewrite list_lookup_fmap, Hst'. cbn [fmap option_fmap option_map].
    unfold mpprog. by rewrite Hret.
  - intros Hdone.
    assert (∃ acc, cs' = MFinished acc) as [acc ->].
    { destruct (Hdone (mcprog cs')) as [rs Hrs]; [apply elem_of_cons; by left |].
      destruct cs' as [acc c n | acc]; [| by exists acc].
      exfalso. destruct Hcons as [Hfuel' Hcons].
      destruct c as [[| f] | | | |]; cbn [mcons_inv] in Hcons; [lia | | | | |];
        cbn [mcprog mdeq_rest MPMC_Queue.dequeue] in Hrs;
        cbn [mbind prog_bind bind act] in Hrs; by rewrite plug_vis in Hrs. }
    assert (∀ st, st ∈ mpsc_point <$> msts' → st = PDone) as Hsts.
    { intros st (mst' & -> & Hst')%list_elem_of_fmap. apply (mprog_of_returned this).
      destruct (Hdone (mpprog mst')) as [rs Hrs].
      { apply elem_of_cons. right. by apply list_elem_of_fmap_2. }
      by destruct mst' as [| | []]. }
    destruct Hcons as [_ Hcons]. cbn in Hcons. subst hd'.
    destruct (conc_inv_all_done this _ _ _ _ Hinv Hsts) as [Hq' Hnone].
    rewrite mpsc_point_start in Hpl, Hw.
    exists acc, added, s', xs'.
    split; [simpl; by rewrite plug_ret, app_nil_r |].
    split; [| split; [| split; [| done]]].
    + symmetry. by apply (placed_enqueued_by 1 vs).
    + rewrite Hnone, app_nil_r, waiting_of_start in Hw. by rewrite Hw.
    + rewrite mserved_between in Hs. exact Hs.
Qed.

End MPMC_Consumer.

(** ** Queries among producers *)



Section Observers.
Context {T : Type}.
Variable this : qref.
(** The rounds a call of [size_approx] may make. *)
Variable fuel : nat.
Implicit Types (m : State T) (a s : addr) (xs : list (addr * T)) (vs : list T)
  (sts : list (@pstate T)).

Lemma step_bind_ret {A B} (p : prog T A) (c : B) m :
  step (p ≫= λ _, Ret c) m =
  match step p m with
  | Ok p' m' => Ok (p' ≫= λ _, Ret c) m'
  | Fault e => Fault e
  end.
Proof. destruct p as [x | | X e k]; simpl; try done. by destruct (exec_op e m). Qed.




























End Observers.

(** ** The consumer's loop among the producers *)

Section ConsumerLoop.
Context {T : Type}.
Variable this : qref.
Variable size_fuel : nat.
Implicit Types (m : State T) (a s : addr) (xs : list (addr * T))
  (sts : list (@pstate T)).

Lemma step_event_bind_ret {A B} (p : prog T A) (c : B) m :
  step_event (p ≫= λ _, Ret c) m = step_event p m.
Proof. destruct p as [x | | X e k]; simpl; try done. Qed.

(** The loop of the usage example after the rounds that received [acc]:
    the program [p] of the rounds to come, under the continuations that
    put each item received in front of the later ones. *)
Fixpoint dplug (acc : list (option T)) (p : prog T (list T)) : prog T (list T) :=
  match acc with
  | [] => p
  | item :: acc' =>
      out ← dplug acc' p;
      Ret (match item with Some x => x :: out | None => out end)
  end.

Lemma dplug_vis {X} acc (e : op T X) k :
  dplug acc (Vis e k) = Vis e (λ x, dplug acc (k x)).
Proof.
  induction acc as [| r acc IH]; [done |].
  cbn [dplug]. rewrite IH. done.
Qed.

Lemma dplug_ret acc out : dplug acc (Ret out) = Ret (somes acc ++ out).
Proof.
  induction acc as [| r acc IH]; [done |].
  cbn [dplug]. rewrite IH. by destruct r.
Qed.

Lemma dplug_snoc acc item p :
  dplug (acc ++ [item]) p =
  dplug acc (out ← p; Ret (match item with Some x => x :: out | None => out end)).
Proof.
  induction acc as [| r acc IH]; [done |].
  cbn [dplug app]. rewrite IH. done.
Qed.

(** Where the consumer is in a round of the loop, with the rounds [f] it
    may still make afterwards: before the call of [is_empty], in it after
    the read of [head], or in the call of [dequeue]. *)
Inductive dstate : Type :=
| DCheck (f : nat)
| DChecking (f : nat) (h : ptr)
| DDeq (f : nat) (c : @cstate T).

(** What is left of [drain_loop (MPSC size_fuel) f this] at each point. *)
Definition drest (d : dstate) : prog T (list T) :=
  match d with
  | DCheck f => drain_loop (MPSC size_fuel) f this
  | DChecking f h =>
      empty ← (next_node ← act (LoadNext h); Ret (bool_decide (next_node = nullptr)));
      if empty : bool then Ret []
      else
        item ← MPSC_Queue.dequeue this;
        out ← drain_loop (MPSC size_fuel) f this;
        Ret (match item with Some x => x :: out | None => out end)
  | DDeq f c =>
      item ← deq_rest this c;
      out ← drain_loop (MPSC size_fuel) f this;
      Ret (match item with Some x => x :: out | None => out end)
  end.

Inductive dthread : Type :=
| DRunning (acc : list (option T)) (d : dstate)
| DFinished (acc : list (option T)).

Definition dprog (th : dthread) : prog T (list T) :=
  match th with
  | DRunning acc d => dplug acc (drest d)
  | DFinished acc => dplug acc (Ret [])
  end.

(** A producer thread: a call of [enqueue], printing nothing. *)
Definition dpprog (st : pstate) : prog T (list T) :=
  _ ← prog_of this st; Ret [].

Lemma step_dpprog st m :
  step (dpprog st) m =
  match step (prog_of this st) m with
  | Ok p' m' => Ok (_ ← p'; Ret []) m'
  | Fault e => Fault e
  end.
Proof. apply step_bind_ret. Qed.

Lemma step_event_dpprog st m :
  step_event (dpprog st) m = step_event (prog_of this st) m.
Proof. apply step_event_bind_ret. Qed.

Definition dserved (th : dthread) : list T :=
  match th with
  | DRunning acc (DDeq _ c) => somes acc ++ holding c
  | DRunning acc _ | DFinished acc => somes acc
  end.

(** The elements still to pass through the hands of the consumer. *)
Definition to_come xs sts : nat := length xs + length (omap waiting_of sts).

(** What the consumer relies on at each point of a round.  Once [is_empty]
    has answered [false] the first element of the chain is there and
    linked, and stays so until the consumer itself takes it. *)
Definition dinv m (d : dstate) (hd : ptr) s xs sts : Prop :=
  match d with
  | DCheck f => hd = Some s ∧ to_come xs sts < f
  | DChecking f h => hd = Some s ∧ h = Some s ∧ to_come xs sts ≤ f
  | DDeq f c =>
      match c with
      | CIdle =>
          hd = Some s ∧
          (∃ a v xs', xs = (a, v) :: xs' ∧ a ∉ omap linking_of sts) ∧
          to_come xs sts ≤ f
      | CLoaded h =>
          hd = Some s ∧ h = Some s ∧
          (∃ a v xs', xs = (a, v) :: xs' ∧ a ∉ omap linking_of sts) ∧
          to_come xs sts ≤ f
      | CNext _ => cons_inv m c hd s xs sts ∧ to_come xs sts ≤ f
      | CMoved _ _ | CHead _ _ _ | CDeleted _ _ =>
          cons_inv m c hd s xs sts ∧ to_come xs sts < f
      end
  end.

Definition dthread_inv m (th : dthread) (hd : ptr) s xs sts : Prop :=
  match th with
  | DRunning _ d => dinv m d hd s xs sts
  | DFinished _ => hd = Some s
  end.

(** The atomic actions the loop has left at most: eight for each round it
    may still make. *)
Definition dleft (th : dthread) : nat :=
  match th with
  | DRunning _ (DCheck f) => 8 * f
  | DRunning _ (DChecking f _) => 8 * f + 7
  | DRunning _ (DDeq f c) => 8 * f + call_left c
  | DFinished _ => 0
  end.

(** One atomic action of the consumer in its loop. *)
Lemma loop_step m th sts hd s xs :
  conc_inv this m hd s xs sts → dthread_inv m th hd s xs sts →
  ∃ th' hd' s' xs' m',
    dleft th' ≤ pred (dleft th) ∧
    step (dprog th) m = Ok (dprog th') m' ∧
    conc_inv this m' hd' s' xs' sts ∧ dthread_inv m' th' hd' s' xs' sts ∧
    dserved th' ++ xs'.*2 = dserved th ++ xs.*2 ∧
    exchanged (step_event (dprog th) m) = [].
Proof.
  intros Hinv Hcons. destruct th as [acc d | acc].
  2:{ exists (DFinished acc), hd, s, xs, m. split; [simpl; lia |].
      simpl. rewrite dplug_ret. done. }
  pose proof (ci_obj _ _ _ _ _ _ Hinv) as Hobj.
  pose proof (ci_chain _ _ _ _ _ _ Hinv) as Hch.
  destruct d as [f | f h | f c]; cbn [dthread_inv dinv] in Hcons.
  - (* is_empty: read of head *)
    destruct Hcons as [-> Hf]. destruct f as [| f]; [lia |].
    exists (DRunning acc (DChecking f (Some s))), (Some s), s, xs, m.
    split; [simpl; lia |].
    cbn [dprog drest drain_loop q_is_empty q_dequeue MPSC]. unfold MPSC_Queue.is_empty.
    prog_simpl. rewrite dplug_vis. simpl. unfold read_obj. rewrite Hobj. simpl.
    split; [done |]. split; [done |]. split; [| done].
    split; [done |]. split; [done | lia].
  - (* is_empty: read of the next-link *)
    destruct Hcons as (-> & -> & Hf).
    pose proof (pchain_lookup _ _ _ _ _ Hch) as Hs.
    cbn [dprog drest]. prog_simpl. rewrite dplug_vis. simpl. rewrite Hs. simpl.
    destruct xs as [| [a v] xs'].
    + exists (DFinished acc), (Some s), s, [], m. split; [simpl; lia |]. simpl.
      done.
    + simpl. destruct (decide (a ∈ omap linking_of sts)) as [Ha | Ha]; simpl.
      * exists (DFinished acc), (Some s), s, ((a, v) :: xs'), m.
        split; [simpl; lia |]. done.
      * exists (DRunning acc (DDeq f CIdle)), (Some s), s, ((a, v) :: xs'), m.
        split; [simpl; lia |]. split; [done |]. split; [done |]. split; [| simpl; by rewrite app_nil_r].
        split; [done |]. split; [| done]. by exists a, v, xs'.
  - destruct c as [| h | a | a r | h a r | a r]; cbn [dthread_inv dinv cons_inv] in Hcons.
    + (* dequeue: read of head *)
      destruct Hcons as (-> & Hfirst & Hf).
      exists (DRunning acc (DDeq f (CLoaded (Some s)))), (Some s), s, xs, m.
      split; [simpl; lia |].
      cbn [dprog drest deq_rest]. unfold MPSC_Queue.dequeue. prog_simpl.
      rewrite dplug_vis. simpl. unfold read_obj. rewrite Hobj. simpl.
      split; [done |]. split; [done |]. split; [| done].
      split; [done |]. split; [done |]. done.
    + (* dequeue: read of the next-link, which is not null *)
      destruct Hcons as (-> & -> & (a & v & xs' & -> & Ha) & Hf).
      pose proof (pchain_lookup _ _ _ _ _ Hch) as Hs. simpl in Hs.
      rewrite decide_False in Hs by done.
      exists (DRunning acc (DDeq f (CNext a))), (Some s), s, ((a, v) :: xs'), m.
      split; [simpl; lia |].
      cbn [dprog drest deq_rest]. prog_simpl. rewrite dplug_vis. simpl. rewrite Hs. simpl.
      split; [done |]. split; [done |]. split; [| done].
      split; [| done]. split; [done |]. split; [by exists v, xs' | done].
    + (* dequeue: move of the payload *)
      destruct Hcons as ((-> & (v & xs' & ->) & Ha) & Hf).
      pose proof (ci_nodup _ _ _ _ _ _ Hinv) as Hnd.
      simpl in Hch. rewrite decide_False in Hch by done. destruct Hch as [Hs Hch].
      pose proof (pchain_lookup _ _ _ _ _ Hch) as Hnode.
      change ((s :: ((a, v) :: xs').*1) ++ omap private_of sts)
        with (s :: ((a :: xs'.*1) ++ omap private_of sts)) in Hnd.
      apply NoDup_cons in Hnd as [Hs_notin Hnd].
      assert (a ∉ xs'.*1) as Ha_tail.
      { apply NoDup_app in Hnd as (Hnd & _). by apply NoDup_cons in Hnd as [? _]. }
      exists (DRunning acc (DDeq f (CMoved a (Some v)))), (Some s), a, xs',
        (set_nodes (insert a (mkNode None (pfirst (omap linking_of sts) xs'))) m).
      split; [simpl; lia |].
      cbn [dprog drest deq_rest]. prog_simpl. rewrite dplug_vis. simpl. rewrite Hnode.
      simpl. split; [done |]. split; [| split].
      * split; simpl.
        -- exact Hobj.
        -- by apply (pchain_set_data _ _ _ (Some v)).
        -- exact Hnd.
        -- apply (ci_nodup_link _ _ _ _ _ _ Hinv).
        -- intros b w Hb.
           rewrite lookup_insert_ne; [by apply (ci_private _ _ _ _ _ _ Hinv) |].
           intros <-. apply NoDup_app in Hnd as (_ & Hdisj & _).
           apply (Hdisj a); [apply elem_of_cons; by left |].
           apply list_elem_of_omap. by exists (PAlloc a w).
        -- intros prev b Hb.
           destruct (ci_link _ _ _ _ _ _ Hinv _ _ Hb) as (l1 & w & l2 & Heq & ->).
           destruct l1 as [| [a' v'] l1]; simpl in Heq.
           ++ injection Heq as -> -> ->. exfalso. apply Ha.
              apply list_elem_of_omap. by exists (PLink (Some s) b).
           ++ injection Heq as -> -> ->. by exists l1, w, l2.
      * split.
        -- split; [done |]. exists s. split; [done |]. split; [| done].
           apply insert_keeps_live. rewrite Hs. eauto.
        -- unfold to_come in *. simpl in Hf. lia.
      * split; [| done]. simpl. by rewrite app_nil_r, <- app_assoc.
    + (* dequeue: second read of head *)
      destruct Hcons as ((-> & s0 & -> & Hlive & Hs0) & Hf).
      exists (DRunning acc (DDeq f (CHead (Some s0) a r))), (Some s0), a, xs, m.
      split; [simpl; lia |].
      cbn [dprog drest deq_rest]. prog_simpl. rewrite dplug_vis. simpl.
      unfold read_obj. rewrite Hobj. simpl.
      split; [done |]. split; [done |]. split; [| done].
      split; [| done]. simpl. eauto 10.
    + (* dequeue: delete of the old sentinel *)
      destruct Hcons as ((-> & s0 & -> & -> & [n0 Hlive] & Hs0) & Hf).
      exists (DRunning acc (DDeq f (CDeleted a r))), (Some s0), a, xs,
        (set_nodes (delete s0) m).
      split; [simpl; lia |].
      cbn [dprog drest deq_rest]. prog_simpl. rewrite dplug_vis. simpl. rewrite Hlive.
      split; [done |]. split; [| by split].
      split; simpl.
      * exact Hobj.
      * eapply pchain_agree; [| exact Hch]. intros b Hb. apply lookup_delete_ne.
        intros <-. apply Hs0. apply elem_of_app. by left.
      * apply (ci_nodup _ _ _ _ _ _ Hinv).
      * apply (ci_nodup_link _ _ _ _ _ _ Hinv).
      * intros b w Hb.
        rewrite lookup_delete_ne; [by apply (ci_private _ _ _ _ _ _ Hinv) |].
        intros <-. apply Hs0. apply elem_of_app. right.
        apply list_elem_of_omap. by exists (PAlloc s0 w).
      * apply (ci_link _ _ _ _ _ _ Hinv).
    + (* dequeue: write of head; the call returns and the loop goes round *)
      destruct Hcons as [Hs Hf]. subst s.
      exists (DRunning (acc ++ [r]) (DCheck f)), (Some a), a, xs,
        (write_obj this (with_head (Some a)) m).
      split; [simpl; lia |].
      cbn [dprog drest deq_rest]. prog_simpl. rewrite dplug_vis. simpl.
      rewrite dplug_snoc. split; [done |]. split; [| split].
      * split; simpl.
        -- by rewrite lookup_insert_eq, Hobj.
        -- exact Hch.
        -- apply (ci_nodup _ _ _ _ _ _ Hinv).
        -- apply (ci_nodup_link _ _ _ _ _ _ Hinv).
        -- apply (ci_private _ _ _ _ _ _ Hinv).
        -- apply (ci_link _ _ _ _ _ _ Hinv).
      * done.
      * split; [| done]. simpl. by rewrite somes_snoc.
Qed.

(** The atomic actions of the producers leave what the consumer relies on
    as it is. *)
Lemma dthread_inv_undisturbed m th hd s xs sts m' added sts' :
  conc_inv this m hd s xs sts → dthread_inv m th hd s xs sts →
  undisturbed m s xs sts m' (xs ++ added) sts' →
  to_come (xs ++ added) sts' = to_come xs sts →
  dthread_inv m' th hd s (xs ++ added) sts'.
Proof.
  intros Hinv Hcons Hund Hsame.
  destruct th as [acc d | acc]; [| done].
  assert (∀ a v xs', xs = (a, v) :: xs' → a ∉ omap linking_of sts →
                     a ∉ omap linking_of sts') as Hfirst.
  { destruct Hund as (_ & _ & Hlink).
    intros a v xs' -> Ha [Hin | Hin]%Hlink; [done |].
    pose proof (ci_nodup _ _ _ _ _ _ Hinv) as Hnd.
    apply NoDup_app in Hnd as (_ & Hdisj & _). apply (Hdisj a); [| done].
    simpl. apply elem_of_cons. right. apply elem_of_cons. by left. }
  assert (∀ c, cons_inv m c hd s xs sts → cons_inv m' c hd s (xs ++ added) sts') as Hc.
  { intros c Hc.
    apply (consumer_inv_undisturbed this m (Running [] c 0) hd s xs sts m' added sts');
      done. }
  destruct d as [f | f h | f c]; cbn [dthread_inv dinv] in *; rewrite ?Hsame.
  - done.
  - done.
  - destruct c as [| h | a | a r | h a r | a r]; rewrite ?Hsame.
    + destruct Hcons as (-> & (a & v & xs' & -> & Ha) & Hf).
      split; [done |]. split; [| done].
      exists a, v, (xs' ++ added). split; [done |]. by eapply Hfirst.
    + destruct Hcons as (-> & -> & (a & v & xs' & -> & Ha) & Hf).
      split; [done |]. split; [done |]. split; [| done].
      exists a, v, (xs' ++ added). split; [done |]. by eapply Hfirst.
    + destruct Hcons as [Hcons Hf]. split; [by apply Hc | done].
    + destruct Hcons as [Hcons Hf]. split; [by apply Hc | done].
    + destruct Hcons as [Hcons Hf]. split; [by apply Hc | done].
    + destruct Hcons as [Hcons Hf]. split; [by apply Hc | done].
Qed.

Lemma progress_to_come xs sts tr xs' sts' :
  progress xs sts tr xs' sts' → to_come xs' sts' = to_come xs sts.
Proof.
  intros (added & -> & Hperm & _). unfold to_come. rewrite length_app.
  apply Permutation_length in Hperm. rewrite length_app, length_fmap in Hperm. lia.
Qed.

(** The consumer in its loop and the producers interleaved in any way
    never fault and keep the invariants. *)
Lemma loop_interleave sched m th sts hd s xs :
  conc_inv this m hd s xs sts → dthread_inv m th hd s xs sts →
  ∃ th' sts' hd' s' xs' m' (added : list (addr * T)),
    interleave sched (dprog th :: (dpprog <$> sts)) m =
      Ok (dprog th' :: (dpprog <$> sts')) m' ∧
    conc_inv this m' hd' s' xs' sts' ∧ dthread_inv m' th' hd' s' xs' sts' ∧
    dserved th' ++ xs'.*2 = (dserved th ++ xs.*2) ++ added.*2 ∧
    added.*2 ++ omap waiting_of sts' ≡ₚ omap waiting_of sts ∧
    added.*1 = exchanged (interleave_trace sched (dprog th :: (dpprog <$> sts)) m) ∧
    dleft th' ≤ dleft th - turns_of 0 sched ∧
    turns_within turns_left sched 1 sts sts' ∧
    placed 1 sts (interleave_log sched (dprog th :: (dpprog <$> sts)) m) added.
Proof.
  revert m th sts hd s xs.
  induction sched as [| i sched IH]; intros m th sts hd s xs Hinv Hcons.
  - exists th, sts, hd, s, xs, m, []. simpl. rewrite app_nil_r.
    repeat (split; [done |]). split; [lia |].
    split; [apply turns_within_nil | apply placed_nil].
  - destruct i as [| i].
    + destruct (loop_step _ _ _ _ _ _ Hinv Hcons)
        as (th1 & hd1 & s1 & xs1 & m1 & Hless & Hstep & Hinv1 & Hcons1 & Hserved & Hev).
      destruct (IH _ _ _ _ _ _ Hinv1 Hcons1)
        as (th' & sts' & hd' & s' & xs' & m' & added
            & Hrun & Hinv' & Hcons' & Hs' & Hw & He & Hleft & Hturns & Hpl).
      exists th', sts', hd', s', xs', m', added.
      cbn [interleave interleave_trace interleave_log].
      change ((dprog th :: (dpprog <$> sts)) !! 0) with (Some (dprog th)).
      cbv beta iota. rewrite Hstep.
      change (<[0 := dprog th1]> (dprog th :: (dpprog <$> sts)))
        with (dprog th1 :: (dpprog <$> sts)).
      split; [done |]. split; [done |]. split; [done |].
      split; [by rewrite Hs', Hserved |]. split; [done |].
      split; [by rewrite exchanged_app, Hev |]. split; [| split].
      * simpl. lia.
      * apply turns_within_skip; [| done]. intros j Hj. lia.
      * by apply placed_quiet.
    + cbn [interleave interleave_trace interleave_log].
      change ((dprog th :: (dpprog <$> sts)) !! S i) with ((dpprog <$> sts) !! i).
      rewrite list_lookup_fmap.
      destruct (sts !! i) as [st |] eqn:Hi; cbn [fmap option_fmap option_map].
      2:{ destruct (IH _ _ _ _ _ _ Hinv Hcons)
            as (th' & sts' & hd' & s' & xs' & m' & added
                & Hrun & Hinv' & Hcons' & Hs' & Hw & He & Hleft & Hturns & Hpl).
          exists th', sts', hd', s', xs', m', added.
          repeat (split; [done |]). split; [| done].
          apply turns_within_skip; [| done]. intros j Hj.
          assert (j = i) as -> by lia. done. }
      destruct (producer_step this _ _ _ _ _ _ _ Hinv Hi)
        as (st' & xs1 & m1 & Hstep & Hinv1 & Hprog & Hund).
      pose proof (progress_to_come _ _ _ _ _ Hprog) as Hsame.
      destruct Hprog as (added1 & -> & Hw1 & He1).
      rewrite step_dpprog, Hstep, step_event_dpprog.
      change (prog_of this st' ≫= λ _ : (), Ret []) with (dpprog st').
      change (<[S i := dpprog st']> (dprog th :: (dpprog <$> sts)))
        with (dprog th :: <[i := dpprog st']> (dpprog <$> sts)).
      rewrite <- (list_fmap_insert dpprog).
      pose proof (dthread_inv_undisturbed _ _ _ _ _ _ _ _ _ Hinv Hcons Hund Hsame)
        as Hcons1.
      destruct (IH _ _ _ _ _ _ Hinv1 Hcons1)
        as (th' & sts' & hd' & s' & xs' & m' & added
            & Hrun & Hinv' & Hcons' & Hs' & Hw & He & Hleft & Hturns & Hpl).
      exists th', sts', hd', s', xs', m', (added1 ++ added).
      split; [done |]. split; [done |]. split; [done |].
      split; [| split; [| split; [| split; [done |]]]]; [| | | split].
      * rewrite Hs', !fmap_app, !app_assoc. done.
      * rewrite fmap_app, <- app_assoc, Hw. done.
      * rewrite fmap_app, exchanged_app, He1, He. done.
      * apply (turns_within_turn turns_left sched 1 i st st'); [done | | done].
        rewrite (producer_step_turns this _ _ _ _ Hstep). lia.
      * apply (placed_turn 1 sts i st st' _ _ added1 added Hi Hw1 He1 Hpl).
Qed.

(** The consumer running the loop of the usage example while any number
    of producers call [enqueue], under any schedule of their atomic
    actions. *)
Lemma loop_schedule sched m s xs fuel (vs : list T) :
  is_queue m this s xs → length xs + length vs < fuel →
  ∃ ts m',
    interleave sched
      (drain_loop (MPSC size_fuel) fuel this
       :: ((λ v, _ ← MPSC_Queue.enqueue this v; Ret []) <$> vs)) m = Ok ts m' ∧
    (8 * fuel ≤ turns_of 0 sched → ∃ out, ts !! 0 = Some (Ret out)) ∧
    (∀ i, i < length vs → 3 ≤ turns_of (S i) sched → ts !! S i = Some (Ret [])) ∧
    ((∀ t, t ∈ ts → ∃ out, t = Ret out) →
     ∃ out ys s' rest,
       ts !! 0 = Some (Ret out) ∧
       ys = enqueued_by (behind_consumer vs)
              (interleave_log sched
                 (drain_loop (MPSC size_fuel) fuel this
                  :: ((λ v, _ ← MPSC_Queue.enqueue this v; Ret []) <$> vs)) m) ∧
       ys.*2 ≡ₚ vs ∧
       out ++ rest.*2 = xs.*2 ++ ys.*2 ∧
       is_queue m' this s' rest).
Proof.
  intros Hq Hfuel.
  assert ((λ v, _ ← MPSC_Queue.enqueue this v; Ret []) <$> vs
          = dpprog <$> (PStart <$> vs)) as ->.
  { by rewrite <- list_fmap_compose. }
  assert (omap waiting_of (PStart <$> vs) = vs) as Hwait.
  { clear. induction vs as [| v vs IH]; [done |]. simpl. f_equal. exact IH. }
  change (drain_loop (MPSC size_fuel) fuel this) with (dprog (DRunning [] (DCheck fuel))).
  destruct (loop_interleave sched m (DRunning [] (DCheck fuel)) (PStart <$> vs)
              (Some s) s xs (conc_inv_start this m s xs vs Hq))
    as (th' & sts' & hd' & s' & xs' & m' & added
        & Hrun & Hinv & Hcons & Hs & Hw & He & Hleft & Hturns & Hpl).
  { cbn [dthread_inv dinv]. split; [done |]. unfold to_come. by rewrite Hwait. }
  exists (dprog th' :: (dpprog <$> sts')), m'. split; [done |]. split; [| split].
  - intros Hfair0.
    destruct th' as [acc [f | f h | f c] | acc].
    + simpl in Hleft, Hcons. unfold to_come in Hcons. lia.
    + simpl in Hleft. lia.
    + destruct c; simpl in Hleft; lia.
    + eexists. simpl. by rewrite dplug_ret.
  - intros i Hi Hfair.
    pose proof (interleave_length _ _ _ _ _ Hrun) as Hlen.
    simpl in Hlen. rewrite !length_fmap in Hlen.
    change ((dprog th' :: (dpprog <$> sts')) !! S i) with ((dpprog <$> sts') !! i).
    destruct (lookup_lt_is_Some_2 sts' i) as [st' Hst']; [lia |].
    rewrite list_lookup_fmap, Hst'.
    destruct (Hturns i st' Hst') as (st & Hst & Hless).
    rewrite list_lookup_fmap in Hst.
    destruct (vs !! i) as [v |] eqn:Hv; [| done]. injection Hst as <-.
    destruct st'; simpl in Hless; try lia. done.
  - intros Hdone.
    assert (∃ acc, th' = DFinished acc) as [acc ->].
    { destruct (Hdone (dprog th')) as [out Hout]; [apply elem_of_cons; by left |].
      destruct th' as [acc d | acc]; [| by exists acc].
      exfalso. destruct d as [[| f] | f h | f c]; cbn [dthread_inv dinv] in Hcons.
      - unfold to_come in Hcons. lia.
      - cbn [dprog drest drain_loop q_is_empty MPSC] in Hout.
        unfold MPSC_Queue.is_empty in Hout.
        cbn [mbind prog_bind bind act] in Hout. by rewrite dplug_vis in Hout.
      - cbn [dprog drest] in Hout.
        cbn [mbind prog_bind bind act] in Hout. by rewrite dplug_vis in Hout.
      - destruct c; cbn [dprog drest deq_rest] in Hout; unfold MPSC_Queue.dequeue in Hout;
          cbn [mbind prog_bind bind act] in Hout; by rewrite dplug_vis in Hout. }
    assert (∀ st, st ∈ sts' → st = PDone) as Hsts.
    { intros st Hst. destruct (Hdone (dpprog st)) as [out Hout].
      { apply elem_of_cons. right. by apply list_elem_of_fmap_2. }
      by destruct st. }
    cbn [dthread_inv] in Hcons. subst hd'.
    destruct (conc_inv_all_done this _ _ _ _ Hinv Hsts) as [Hq' Hnone].
    exists (somes acc), added, s', xs'.
    split; [simpl; by rewrite dplug_ret, app_nil_r |].
    split; [| split; [| split; [| done]]].
    + symmetry. by apply (placed_enqueued_by 1 vs).
    + rewrite Hnone, app_nil_r, Hwait in Hw. done.
    + simpl in Hs. exact Hs.
Qed.

End ConsumerLoop.

(** ** More example states *)

(** A compare-and-swap that fails once, spuriously, before it can succeed,
    on the queue holding 1, 2, 3. *)
Definition queue_123_one_failure : State Z :=
  mkState (nodes queue_123) (objs queue_123) [true].

Lemma queue_123_one_failure_is_queue :
  is_queue queue_123_one_failure 1%positive 1%positive chain_123.
Proof. split; [reflexivity |]. simpl. repeat split; reflexivity. Defined.

(** ** Properties *)

(** C1. Single-consumer first-in-first-out order.  On a quiescent
    [MPSC_Queue] holding the elements of [xs]:
    - after the values [vs] have been enqueued one after the other,
      successive [dequeue]s return the elements already held and then the
      values of [vs], each once and in the order of the enqueues, and the
      next [dequeue] returns the empty result;
    - when the values are enqueued by concurrent producers, thread [i]
      enqueuing [vs !! i], under any schedule of their atomic actions, no
      action faults and a call has returned once its thread has had three
      turns, whatever the others did; once all the calls have returned the
      queue is at rest and holds, behind the elements of [xs], one element
      for each tail exchange of the run, in the order in which the
      exchanges took place: the node that exchange made the tail, with the
      value of the thread that performed it ([enqueued_by]).  These are the
      values of [vs], each once, and successive [dequeue]s return the
      elements already held, then these values in that order, then the
      empty result;
    - when the consumer makes its [k] calls while the producers, threads
      1, 2, ..., are at work, under any schedule, no action faults; the
      consumer is back from its calls once it has had six turns for each,
      and a producer once it has had three, whatever the others did; and
      once all the calls have returned, the elements the consumer
      received, followed by those still in the queue, are the elements
      already held and then the enqueued values, each once, in the order
      of the tail exchanges, each exchange counting with the value of the
      thread that performed it. *)
Theorem mpsc_fifo_order (T : Type) (m : State T) (this : qref) (s : addr)
    (xs : list (addr * T)) (vs : list T) (sched : list nat) (k : nat) :
  is_queue m this s xs →
  (∃ m',
     run (_ ← enqueue_all MPSC_Queue.enqueue this vs;
          dequeue_n MPSC_Queue.dequeue this (length xs + length vs + 1)) m =
     Ok ((Some <$> xs.*2 ++ vs) ++ [None]) m') ∧
  (∃ ts m',
     interleave sched (MPSC_Queue.enqueue this <$> vs) m = Ok ts m' ∧
     (∀ i, i < length vs → 3 ≤ turns_of i sched → ts !! i = Some (Ret tt)) ∧
     ((∀ t, t ∈ ts → t = Ret tt) →
      ∃ ys, ys = enqueued_by (λ i, vs !! i)
                   (interleave_log sched (MPSC_Queue.enqueue this <$> vs) m) ∧
            ys.*2 ≡ₚ vs ∧
            is_queue m' this s (xs ++ ys) ∧
            ∃ m'', run (dequeue_n MPSC_Queue.dequeue this
                          (length xs + length vs + 1)) m' =
                   Ok ((Some <$> xs.*2 ++ ys.*2) ++ [None]) m'')) ∧
  (∃ ts m',
     interleave sched
       (dequeue_n MPSC_Queue.dequeue this k
        :: ((λ v, _ ← MPSC_Queue.enqueue this v; Ret []) <$> vs)) m = Ok ts m' ∧
     (6 * k ≤ turns_of 0 sched → ∃ rs, ts !! 0 = Some (Ret rs)) ∧
     (∀ i, i < length vs → 3 ≤ turns_of (S i) sched → ts !! S i = Some (Ret [])) ∧
     ((∀ t, t ∈ ts → ∃ rs, t = Ret rs) →
      ∃ rs ys s' rest,
        ts !! 0 = Some (Ret rs) ∧
        ys = enqueued_by (behind_consumer vs)
               (interleave_log sched
                  (dequeue_n MPSC_Queue.dequeue this k
                   :: ((λ v, _ ← MPSC_Queue.enqueue this v; Ret []) <$> vs)) m) ∧
        ys.*2 ≡ₚ vs ∧
        omap id rs ++ rest.*2 = xs.*2 ++ ys.*2 ∧
        is_queue m' this s' rest)).
Proof.
  intros Hq. split; [| split].
  - destruct (enqueue_all_spec MPSC_Queue.enqueue always mpsc_enq_ok m this s xs vs I Hq)
      as (m1 & ys & Hrun1 & _ & Hq1 & Hys).
    destruct (dequeue_n_spec MPSC_Queue.dequeue always mpsc_deq_empty_ok mpsc_deq_cons_ok
                m1 this s (xs ++ ys) 1 I Hq1) as (m' & Hrun' & _ & _).
    exists m'. rewrite run_bind, Hrun1.
    replace (length xs + length vs + 1) with (length (xs ++ ys) + 1).
    + rewrite Hrun'. by rewrite fmap_app, Hys.
    + rewrite length_app. rewrite <- Hys, length_fmap. done.
  - destruct (producers_any_schedule this sched m s xs vs Hq)
      as (ts & m' & Hrun & Hfair & Hdone).
    exists ts, m'. split; [done |]. split; [done |]. intros Hret.
    destruct (Hdone Hret) as (ys & Hord & Hq' & Hperm).
    exists ys. split; [done |]. split; [done |]. split; [done |].
    destruct (dequeue_n_spec MPSC_Queue.dequeue always mpsc_deq_empty_ok mpsc_deq_cons_ok
                m' this s (xs ++ ys) 1 I Hq') as (m'' & Hrun' & _ & _).
    exists m''.
    replace (length xs + length vs + 1) with (length (xs ++ ys) + 1).
    + rewrite Hrun'. by rewrite fmap_app.
    + rewrite length_app. f_equal. f_equal.
      rewrite <- (length_fmap snd ys). by rewrite Hperm.
  - by apply (mpsc_any_schedule this sched m s).
Qed.

(** Scenario 1: enqueue 1, 2, 3; dequeue yields 1, 2, 3, then nothing.
    And the same values enqueued by three threads under a schedule in
    which the third exchanges the tail first. *)
Lemma mpsc_fifo_order_scenario_1 :
  is_queue fresh_queue 1%positive 1%positive [] ∧
  (∃ m',
     run (_ ← enqueue_all MPSC_Queue.enqueue 1%positive [1%Z; 2%Z; 3%Z];
          dequeue_n MPSC_Queue.dequeue 1%positive 4) fresh_queue =
     Ok [Some 1%Z; Some 2%Z; Some 3%Z; None] m') ∧
  (∃ ts m',
     interleave [0; 1; 2; 2; 1; 0; 0; 1; 2]
       (MPSC_Queue.enqueue 1%positive <$> [1%Z; 2%Z; 3%Z]) fresh_queue = Ok ts m' ∧
     (∀ i, i < 3 → 3 ≤ turns_of i [0; 1; 2; 2; 1; 0; 0; 1; 2] →
           ts !! i = Some (Ret tt)) ∧
     ((∀ t, t ∈ ts → t = Ret tt) →
      ∃ ys, ys = enqueued_by (λ i, [1%Z; 2%Z; 3%Z] !! i)
                   (interleave_log [0; 1; 2; 2; 1; 0; 0; 1; 2]
                      (MPSC_Queue.enqueue 1%positive <$> [1%Z; 2%Z; 3%Z]) fresh_queue) ∧
            ys.*2 ≡ₚ [1%Z; 2%Z; 3%Z] ∧
            is_queue m' 1%positive 1%positive ys ∧
            ∃ m'', run (dequeue_n MPSC_Queue.dequeue 1%positive 4) m' =
                   Ok ((Some <$> ys.*2) ++ [None]) m'')).
Proof.
  split; [exact fresh_queue_is_queue |]. split.
  - exact (proj1 (mpsc_fifo_order Z fresh_queue 1%positive 1%positive []
                    [1%Z; 2%Z; 3%Z] [] 0 fresh_queue_is_queue)).
  - exact (proj1 (proj2 (mpsc_fifo_order Z fresh_queue 1%positive 1%positive []
                           [1%Z; 2%Z; 3%Z] [0; 1; 2; 2; 1; 0; 0; 1; 2] 0
                           fresh_queue_is_queue))).
Defined.

(** Three producers enqueue 1, 2 and 3 concurrently; each allocates its
    node, then the third, the second and the first exchange the tail, in
    that order, and then they link in the order first, second, third.  The
    consumer receives 3, 2, 1. *)
Example three_producers_exchange_order :
  ∃ ts m' m'',
    interleave [0; 1; 2; 2; 1; 0; 0; 1; 2]
      (MPSC_Queue.enqueue 1%positive <$> [1%Z; 2%Z; 3%Z]) fresh_queue = Ok ts m' ∧
    ts = [Ret tt; Ret tt; Ret tt] ∧
    enqueued_by (λ i, [1%Z; 2%Z; 3%Z] !! i)
      (interleave_log [0; 1; 2; 2; 1; 0; 0; 1; 2]
         (MPSC_Queue.enqueue 1%positive <$> [1%Z; 2%Z; 3%Z]) fresh_queue) =
      [(4%positive, 3%Z); (3%positive, 2%Z); (2%positive, 1%Z)] ∧
    run (dequeue_n MPSC_Queue.dequeue 1%positive 4) m' =
      Ok [Some 3%Z; Some 2%Z; Some 1%Z; None] m''.
Proof.
  eexists _, _, _. split; [vm_compute; reflexivity |].
  split; [reflexivity |]. split; vm_compute; reflexivity.
Qed.

(** The same producers, each running its whole call before the next one
    starts: the tail exchanges take place in the order first, second,
    third, and the consumer receives 1, 2, 3. *)
Example three_producers_in_turn :
  ∃ ts m' m'',
    interleave [0; 0; 0; 1; 1; 1; 2; 2; 2]
      (MPSC_Queue.enqueue 1%positive <$> [1%Z; 2%Z; 3%Z]) fresh_queue = Ok ts m' ∧
    ts = [Ret tt; Ret tt; Ret tt] ∧
    enqueued_by (λ i, [1%Z; 2%Z; 3%Z] !! i)
      (interleave_log [0; 0; 0; 1; 1; 1; 2; 2; 2]
         (MPSC_Queue.enqueue 1%positive <$> [1%Z; 2%Z; 3%Z]) fresh_queue) =
      [(2%positive, 1%Z); (3%positive, 2%Z); (4%positive, 3%Z)] ∧
    run (dequeue_n MPSC_Queue.dequeue 1%positive 4) m' =
      Ok [Some 1%Z; Some 2%Z; Some 3%Z; None] m''.
Proof.
  eexists _, _, _. split; [vm_compute; reflexivity |].
  split; [reflexivity |]. split; vm_compute; reflexivity.
Qed.

(** The publish window.  Thread 0 is the consumer, making three calls;
    threads 1 and 2 enqueue 1 and 2.  Both producers allocate and exchange
    the tail, the first before the second; the second links and returns;
    the consumer's first call then finds the next-link of the sentinel
    null, because the first producer has not linked yet, and returns the
    empty result; the first producer links; the consumer's other two calls
    return 1 and 2. *)
Example consumer_in_publish_window :
  ∃ m',
    interleave [1; 2; 1; 2; 2; 0; 0; 1; 0; 0; 0; 0; 0; 0; 0; 0; 0; 0; 0; 0]
      (dequeue_n MPSC_Queue.dequeue 1%positive 3
       :: ((λ v, _ ← MPSC_Queue.enqueue 1%positive v; Ret []) <$> [1%Z; 2%Z]))
      fresh_queue =
    Ok [Ret [None; Some 1%Z; Some 2%Z]; Ret []; Ret []] m'.
Proof. eexists. vm_compute. reflexivity. Qed.

(** In that window, with the second [enqueue] back from its call, the
    queries on the queue answer as for an empty queue. *)
Example queries_in_publish_window :
  ∃ ts m',
    interleave [1; 2; 1; 2; 2]
      (dequeue_n MPSC_Queue.dequeue 1%positive 3
       :: ((λ v, _ ← MPSC_Queue.enqueue 1%positive v; Ret []) <$> [1%Z; 2%Z]))
      fresh_queue = Ok ts m' ∧
    ts !! 2 = Some (Ret []) ∧
    run (MPSC_Queue.is_empty 1%positive) m' = Ok true m' ∧
    run (MPSC_Queue.size_approx 3 1%positive) m' = Ok 0%Z m' ∧
    run (MPSC_Queue.dequeue 1%positive) m' = Ok None m'.
Proof.
  eexists _, _. split; [vm_compute; reflexivity |].
  repeat split; vm_compute; reflexivity.
Qed.

(** C2.  [MPMC_Queue::dequeue] has no reclamation layer between winning the
    compare-and-swap and [delete old_head], and two concurrent callers can
    interleave so that one dereferences a node the other has released.  On
    the queue holding 1, 2, 3, with two threads that each call [dequeue]:
    thread 1 loads [head]; thread 0 then runs its whole call (load [head],
    load the next-link, win the compare-and-swap, move the payload out,
    delete the old head); thread 1 then loads the next-link of the node it
    read, which is no longer live.  Either call alone returns 1. *)
Theorem mpmc_dequeue_use_after_free (fuel0 fuel1 : nat) :
  interleave [1; 0; 0; 0; 0; 0; 1]
    [MPMC_Queue.dequeue (S fuel0) 1%positive; MPMC_Queue.dequeue (S fuel1) 1%positive]
    queue_123 = Fault (UseAfterFree 1%positive) ∧
  (∃ m t0 t1,
     interleave [1; 0; 0; 0; 0; 0]
       [MPMC_Queue.dequeue (S fuel0) 1%positive; MPMC_Queue.dequeue (S fuel1) 1%positive]
       queue_123 = Ok [t0; t1] m ∧
     t0 = Ret (Some 1%Z) ∧ nodes m !! 1%positive = None ∧
     step t1 m = Fault (UseAfterFree 1%positive)) ∧
  (∃ m, run (MPMC_Queue.dequeue (S fuel0) 1%positive) queue_123 = Ok (Some 1%Z) m).
Proof.
  split; [| split].
  - vm_compute. reflexivity.
  - eexists _, _, _. split; [vm_compute; reflexivity |].
    split; [reflexivity |]. split; vm_compute; reflexivity.
  - eexists. vm_compute. reflexivity.
Qed.

(** C3, as stated, fails in its second half: after object 1 has been moved
    into object 2, [is_empty], [dequeue] and [enqueue] on object 1
    dereference its null head or tail, while on a freshly constructed queue
    they return. *)
Lemma moved_from_queue_is_not_fresh :
  (run (_ ← MPSC_Queue.move_assign 1 2%positive 1%positive;
        MPSC_Queue.is_empty 1%positive) two_queues = Fault NullDeref ∧
   run (_ ← MPSC_Queue.move_assign 1 2%positive 1%positive;
        MPSC_Queue.dequeue 1%positive) two_queues = Fault NullDeref ∧
   run (_ ← MPSC_Queue.move_assign 1 2%positive 1%positive;
        MPSC_Queue.enqueue 1%positive 9%Z) two_queues = Fault NullDeref ∧
   run (_ ← MPMC_Queue.move_assign 1 2%positive 1%positive;
        MPMC_Queue.is_empty 1%positive) two_queues = Fault NullDeref ∧
   run (_ ← MPMC_Queue.move_assign 1 2%positive 1%positive;
        MPMC_Queue.dequeue 1 1%positive) two_queues = Fault NullDeref ∧
   run (_ ← MPMC_Queue.move_assign 1 2%positive 1%positive;
        MPMC_Queue.enqueue 1%positive 9%Z) two_queues = Fault NullDeref) ∧
  (run (MPSC_Queue.is_empty 1%positive) fresh_queue = Ok true fresh_queue ∧
   run (MPSC_Queue.dequeue 1%positive) fresh_queue = Ok None fresh_queue ∧
   (∃ m', run (MPSC_Queue.enqueue 1%positive 9%Z) fresh_queue = Ok tt m') ∧
   run (MPMC_Queue.is_empty 1%positive) fresh_queue = Ok true fresh_queue ∧
   run (MPMC_Queue.dequeue 1 1%positive) fresh_queue = Ok None fresh_queue ∧
   (∃ m', run (MPMC_Queue.enqueue 1%positive 9%Z) fresh_queue = Ok tt m')).
Proof.
  split; repeat split; try (vm_compute; reflexivity);
    eexists; vm_compute; reflexivity.
Qed.

(** C3, amended.  After queue [other] has been moved into another object
    [this], subsequent [dequeue]s on [this] yield exactly the elements
    [other] held, in their order, and then the empty result, and [other]
    is left with null [head] and [tail]: it can be destroyed and assigned
    to, and [size_approx] on it is zero, but [enqueue], [dequeue] and
    [is_empty] on it dereference null.  This holds of move assignment,
    where [this] held a chain of its own, which is released, or had been
    moved from; and of move construction, where [this] is the object under
    construction: nothing is assumed of what the state holds at [this],
    which the constructor does not read, so that it may hold nothing. *)
Theorem move_transfers_chain (T : Type) (m : State T) (this other : qref)
    (s' : addr) (ys : list (addr * T)) (fuel : nat) (v : T) :
  this ≠ other →
  is_queue m other s' ys →
  length (spurious m) ≤ fuel →
  (∀ chain,
     holds_chain m this chain →
     (∀ b, b ∈ chain → b ∉ s' :: ys.*1) →
     length chain ≤ fuel →
     ∃ m', run (MPSC_Queue.move_assign fuel this other) m = Ok tt m' ∧
           run (MPMC_Queue.move_assign fuel this other) m = Ok tt m' ∧
           moved_into m' this other s' ys fuel v) ∧
  (∃ m', run (MPSC_Queue.move_construct this other) m = Ok tt m' ∧
         run (MPMC_Queue.move_construct this other) m = Ok tt m' ∧
         moved_into m' this other s' ys fuel v).
Proof.
  intros Hne Hother Hsp. split.
  - intros chain Hthis Hdisj Hfuel.
    destruct (clean_nodes_holds_chain _ _ _ _ Hthis Hfuel)
      as (m1 & Hclean & Hkeep & _ & Ho & Hsp1).
    assert (is_queue m1 other s' ys) as Hother1.
    { destruct Hother as [Hobj Hch]. split; [by rewrite Ho |].
      eapply lseg_agree; [| exact Hch]. intros b Hb. apply Hkeep.
      intros Hin. by apply (Hdisj b). }
    destruct (mpsc_move_assign_after_clean _ _ _ _ _ _ _ Hne Hclean Hother1)
      as (m' & Hrun & Hq & Hmoved & _ & Hsp' & _).
    exists m'. rewrite mpmc_move_assign_run. split; [done |]. split; [done |].
    apply moved_into_intro; [done | done |]. rewrite Hsp', Hsp1. done.
  - destruct (mpsc_move_construct_spec _ _ _ _ _ Hne Hother)
      as (m' & Hrun & Hq & Hmoved & _ & Hsp' & _).
    exists m'. rewrite mpmc_move_construct_run by done.
    split; [done |]. split; [done |].
    apply moved_into_intro; [done | done |]. by rewrite Hsp'.
Qed.

(** Object 1, holding 1, 2, 3, is move-assigned to object 2, which held an
    empty queue; and it is moved into an object 2 under construction, of
    which the state holds nothing yet. *)
Lemma move_transfers_chain_example :
  (2%positive ≠ 1%positive ∧
   is_queue two_queues 1%positive 1%positive chain_123 ∧
   length (spurious two_queues) ≤ 1 ∧
   holds_chain two_queues 2%positive [5%positive] ∧
   (∀ b : addr, b ∈ [5%positive] → b ∉ 1%positive :: chain_123.*1) ∧
   length [5%positive] ≤ 1 ∧
   ∃ m', run (MPSC_Queue.move_assign 1 2%positive 1%positive) two_queues = Ok tt m' ∧
         run (MPMC_Queue.move_assign 1 2%positive 1%positive) two_queues = Ok tt m' ∧
         moved_into m' 2%positive 1%positive 1%positive chain_123 1 0%Z) ∧
  (2%positive ≠ 1%positive ∧
   is_queue queue_123 1%positive 1%positive chain_123 ∧
   length (spurious queue_123) ≤ 0 ∧
   objs queue_123 !! 2%positive = None ∧
   ∃ m', run (MPSC_Queue.move_construct 2%positive 1%positive) queue_123 = Ok tt m' ∧
         run (MPMC_Queue.move_construct 2%positive 1%positive) queue_123 = Ok tt m' ∧
         moved_into m' 2%positive 1%positive 1%positive chain_123 0 0%Z).
Proof.
  assert (2%positive ≠ 1%positive) as Hne by discriminate.
  assert (holds_chain two_queues 2%positive [5%positive]) as Hthis.
  { left. exists 5%positive, []. split; [exact two_queues_second | reflexivity]. }
  assert (∀ b : addr, b ∈ [5%positive] → b ∉ 1%positive :: chain_123.*1) as Hdisj.
  { intros b Hb. apply list_elem_of_singleton in Hb as ->.
    apply not_elem_of_cons. split; [discriminate |].
    simpl. rewrite !not_elem_of_cons. repeat split; try discriminate.
    apply not_elem_of_nil. }
  assert (length (spurious two_queues) ≤ 1) as Hsp by (simpl; lia).
  split.
  - repeat (split; [done |]).
    exact (proj1 (move_transfers_chain Z two_queues 2%positive 1%positive
                    1%positive chain_123 1 0%Z Hne two_queues_first Hsp)
             [5%positive] Hthis Hdisj (le_n 1)).
  - split; [done |]. split; [exact queue_123_is_queue |]. split; [simpl; lia |].
    split; [reflexivity |].
    exact (proj2 (move_transfers_chain Z queue_123 2%positive 1%positive
                    1%positive chain_123 0 0%Z Hne queue_123_is_queue (le_n 0))).
Defined.

(** C4. In every state reached from the constructor by any sequence of
    [enqueue] and [dequeue] calls, all of which return, the chain has at
    least one node, the node at its head is a sentinel carrying no payload,
    and it is the only such node of the chain: every other node carries an
    element. *)
Theorem sentinel_invariant_reachable (T : Type) (m0 : State T) (this : qref)
    (cs : list (call T)) (fuel : nat) :
  length (spurious m0) < fuel →
  (∃ rs m',
     run (_ ← MPSC_Queue.construct this;
          perform MPSC_Queue.enqueue MPSC_Queue.dequeue this cs) m0 = Ok rs m' ∧
     sentinel_invariant m' this) ∧
  (∃ rs m',
     run (_ ← MPMC_Queue.construct this;
          perform MPMC_Queue.enqueue (MPMC_Queue.dequeue fuel) this cs) m0 = Ok rs m' ∧
     sentinel_invariant m' this).
Proof.
  intros Hfuel.
  destruct (mpsc_construct_spec m0 this) as (m1 & Hrun1 & Hq1 & _ & Hsp).
  split.
  - destruct (mpsc_refines_fifo m1 this _ _ cs Hq1) as (m' & s' & xs' & Hrun & Hq' & _).
    eexists _, m'. rewrite run_bind, Hrun1. split; [exact Hrun |].
    by eapply is_queue_sentinel_invariant.
  - assert (length (spurious m1) < fuel) as Hfuel1 by (by rewrite Hsp).
    destruct (mpmc_refines_fifo fuel m1 this _ _ cs Hfuel1 Hq1)
      as (m' & s' & xs' & Hrun & Hq' & _).
    eexists _, m'. rewrite run_bind.
    change (@MPMC_Queue.construct T) with (@MPSC_Queue.construct T).
    rewrite Hrun1. split; [exact Hrun |].
    by eapply is_queue_sentinel_invariant.
Qed.

Lemma sentinel_invariant_reachable_example :
  length (spurious (@empty_state Z)) < 1 ∧
  ∃ rs m',
    run (_ ← MPSC_Queue.construct 1%positive;
         perform MPSC_Queue.enqueue MPSC_Queue.dequeue 1%positive
           [Enq 5%Z; Deq; Deq; Enq 6%Z]) empty_state = Ok rs m' ∧
    sentinel_invariant m' 1%positive.
Proof.
  split; [simpl; lia |].
  exact (proj1 (sentinel_invariant_reachable Z empty_state 1%positive
                  [Enq 5%Z; Deq; Deq; Enq 6%Z] 1 (le_n 1))).
Defined.

(** A [dequeue] that runs alone.  Called when the next-link of the node
    at [head] is null it returns the empty result ([nullptr]) and leaves
    the state as it was.  On every quiescent queue it returns: the oldest
    element, whole, when there is one, and the empty result otherwise,
    leaving a well-formed queue that holds the remaining elements.  For
    [MPMC_Queue] this holds whatever spurious failures the compare-and-swap
    meets, given one more attempt than there are failures. *)
Theorem dequeue_element_or_empty (T : Type) (m : State T) (this : qref) (fuel : nat) :
  (∀ o s n,
     objs m !! this = Some o → head o = Some s →
     nodes m !! s = Some n → next n = nullptr →
     run (MPSC_Queue.dequeue this) m = Ok None m ∧
     run (MPMC_Queue.dequeue (S fuel) this) m = Ok None m) ∧
  (∀ s xs,
     is_queue m this s xs →
     leading_failures (spurious m) ≤ fuel →
     (∃ m', run (MPSC_Queue.dequeue this) m = Ok (hd_error xs.*2) m' ∧
            is_queue m' this (next_sentinel s xs) (tl xs)) ∧
     (∃ m', run (MPMC_Queue.dequeue (S fuel) this) m = Ok (hd_error xs.*2) m' ∧
            is_queue m' this (next_sentinel s xs) (tl xs))).
Proof.
  split.
  - intros o s n Hobj Hhead Hn Hnull.
    unfold MPSC_Queue.dequeue. cbn [MPMC_Queue.dequeue]. prog_simpl.
    rewrite (exec_LoadHead _ _ _ Hobj), Hhead. prog_simpl.
    rewrite (exec_LoadNext _ _ _ Hn), Hnull. done.
  - intros s xs Hq Hfuel. split.
    + destruct xs as [| [a v] xs].
      * exists m. split; [by apply mpsc_dequeue_empty in Hq as [? _] | done].
      * destruct (mpsc_dequeue_cons _ _ _ _ _ _ Hq) as (m' & Hrun & _ & Hq' & _).
        by exists m'.
    + destruct xs as [| [a v] xs].
      * exists m. split; [by apply (mpmc_dequeue_empty _ fuel) in Hq as [? _] | done].
      * destruct (mpmc_dequeue_cons _ (S fuel) _ _ _ _ _ Hq) as (m' & Hrun & Hq' & _);
          [lia |].
        by exists m'.
Qed.

Lemma dequeue_element_or_empty_example :
  (objs fresh_queue !! 1%positive = Some (mkQueue (Some 1%positive) (Some 1%positive)) ∧
   nodes fresh_queue !! 1%positive = Some (mkNode None nullptr) ∧
   run (MPSC_Queue.dequeue 1%positive) fresh_queue = Ok None fresh_queue ∧
   run (MPMC_Queue.dequeue 1 1%positive) fresh_queue = Ok None fresh_queue) ∧
  (is_queue queue_123 1%positive 1%positive chain_123 ∧
   leading_failures (spurious queue_123) ≤ 0 ∧
   (∃ m', run (MPSC_Queue.dequeue 1%positive) queue_123 = Ok (Some 1%Z) m' ∧
          is_queue m' 1%positive 2%positive [(3%positive, 2%Z); (4%positive, 3%Z)]) ∧
   (∃ m', run (MPMC_Queue.dequeue 1 1%positive) queue_123 = Ok (Some 1%Z) m' ∧
          is_queue m' 1%positive 2%positive [(3%positive, 2%Z); (4%positive, 3%Z)])).
Proof.
  split.
  - split; [reflexivity |]. split; [reflexivity |].
    exact (proj1 (dequeue_element_or_empty Z fresh_queue 1%positive 0)
             _ 1%positive _ eq_refl eq_refl eq_refl eq_refl).
  - split; [exact queue_123_is_queue |]. split; [simpl; lia |].
    exact (proj2 (dequeue_element_or_empty Z queue_123 1%positive 0)
             1%positive chain_123 queue_123_is_queue (le_n 0)).
Defined.

(** C5.  A call of [dequeue] does not in all cases return an element or
    the empty result.  [MPMC_Queue::dequeue] is the method for several
    consumers; on the queue holding 1, 2, 3, with two threads that each
    call it: thread 0 loads [head] and its next-link and wins the
    compare-and-swap, which makes the node of element 1 the head; thread 1
    then runs its whole call, for which that node is the old head: it
    returns 2 and deletes the node; thread 0 then moves the payload out of
    the node it had read as [next_node], which is no longer live.  The call
    of thread 0, after it has taken element 1 off the queue, ends in that
    fault and returns nothing.  Either call alone returns 1. *)
Theorem mpmc_dequeue_ends_in_fault (fuel0 fuel1 : nat) :
  interleave [0; 0; 0; 1; 1; 1; 1; 1; 0]
    [MPMC_Queue.dequeue (S fuel0) 1%positive; MPMC_Queue.dequeue (S fuel1) 1%positive]
    queue_123 = Fault (UseAfterFree 2%positive) ∧
  (∃ m t0 t1,
     interleave [0; 0; 0; 1; 1; 1; 1; 1]
       [MPMC_Queue.dequeue (S fuel0) 1%positive; MPMC_Queue.dequeue (S fuel1) 1%positive]
       queue_123 = Ok [t0; t1] m ∧
     t1 = Ret (Some 2%Z) ∧ nodes m !! 2%positive = None ∧
     objs m !! 1%positive = Some (mkQueue (Some 4%positive) (Some 3%positive)) ∧
     step t0 m = Fault (UseAfterFree 2%positive)) ∧
  (∃ m, run (MPMC_Queue.dequeue (S fuel0) 1%positive) queue_123 = Ok (Some 1%Z) m).
Proof.
  split; [| split].
  - vm_compute. reflexivity.
  - eexists _, _, _. split; [vm_compute; reflexivity |].
    split; [reflexivity |]. repeat split; vm_compute; reflexivity.
  - eexists. vm_compute. reflexivity.
Qed.

(** C6, as stated, fails in two ways.  [MPMC_Queue::enqueue] performs four
    atomic actions, not three: after the allocation it stores null into the
    next-link of the new node.  And while another [enqueue] is in flight,
    the node of a call that has returned need not be reachable, nor be the
    tail.  Two producers enqueue 1 and 2 on the fresh queue; both allocate
    and exchange the tail, the first before the second.  When the second
    then links and returns, its node 3 is the tail, but the next-link of
    the sentinel is still null and no traversal from [head] arrives at node
    3.  When instead the first links and returns, its node 2 is linked
    behind the sentinel, but the tail is node 3. *)
Lemma enqueue_node_not_always_last :
  trace (MPMC_Queue.enqueue 1%positive 7%Z) fresh_queue =
    [EvNew 2%positive; EvStoreNext (Some 2%positive) nullptr;
     EvExchangeTail 1%positive (Some 2%positive);
     EvStoreNext (Some 1%positive) (Some 2%positive)] ∧
  (∃ ts m',
     interleave [0; 1; 0; 1; 1]
       (MPSC_Queue.enqueue 1%positive <$> [1%Z; 2%Z]) fresh_queue = Ok ts m' ∧
     ts !! 1 = Some (Ret tt) ∧
     nodes m' !! 3%positive = Some (mkNode (Some 2%Z) None) ∧
     objs m' !! 1%positive = Some (mkQueue (Some 3%positive) (Some 1%positive)) ∧
     ¬ reaches (nodes m') 1%positive 3%positive) ∧
  (∃ ts m',
     interleave [0; 1; 0; 1; 0]
       (MPSC_Queue.enqueue 1%positive <$> [1%Z; 2%Z]) fresh_queue = Ok ts m' ∧
     ts !! 0 = Some (Ret tt) ∧
     nodes m' !! 2%positive = Some (mkNode (Some 1%Z) None) ∧
     objs m' !! 1%positive = Some (mkQueue (Some 3%positive) (Some 1%positive))).
Proof.
  split; [vm_compute; reflexivity |]. split.
  - eexists _, _. split; [vm_compute; reflexivity |].
    split; [reflexivity |]. split; [vm_compute; reflexivity |].
    split; [vm_compute; reflexivity |].
    intros Hr. inversion Hr as [| a n c b Hn Hnext Hr']; subst.
    vm_compute in Hn. injection Hn as <-. discriminate Hnext.
  - eexists _, _. split; [vm_compute; reflexivity |].
    split; [reflexivity |]. split; vm_compute; reflexivity.
Qed.

(** C6, amended.  [enqueue(value)] succeeds however many producers act
    concurrently, and a call performs these steps: allocate a node carrying
    the value, exchange [tail] with it, obtaining the previous tail, store
    it into the previous tail's next-link; [MPMC_Queue::enqueue] stores
    null into the next-link of the new node between the first two.
    - Called on a quiescent queue, with no other call in flight, it leaves
      the new node as the tail, holding the value, at the end of the chain.
    - Called by any number of threads concurrently, thread [i] with
      [vs !! i], under any schedule of their atomic actions: no action
      faults; a call has returned once its thread has had three turns, four
      for [MPMC_Queue], whatever the others did; the actions of a thread
      that has returned are the steps above, in that order; and once all
      the calls have returned the queue is at rest, its chain holding the
      new nodes behind the old ones in the order of the tail exchanges,
      each with the value of the thread that performed the exchange, so
      that the node exchanged last is the tail and the last node of the
      chain. *)
Theorem enqueue_steps (T : Type) (m : State T) (this : qref) (s : addr)
    (xs : list (addr * T)) (value : T) (vs : list T) (sched : list nat) :
  is_queue m this s xs →
  (let new_node := fresh (dom (nodes m)) in
   let prev_tail := last_addr s xs in
   trace (MPSC_Queue.enqueue this value) m =
     [EvNew new_node; EvExchangeTail this (Some new_node);
      EvStoreNext (Some prev_tail) (Some new_node)] ∧
   trace (MPMC_Queue.enqueue this value) m =
     [EvNew new_node; EvStoreNext (Some new_node) nullptr;
      EvExchangeTail this (Some new_node);
      EvStoreNext (Some prev_tail) (Some new_node)] ∧
   ∃ m', run (MPSC_Queue.enqueue this value) m = Ok tt m' ∧
         run (MPMC_Queue.enqueue this value) m = Ok tt m' ∧
         objs m' !! this = Some (mkQueue (Some new_node) (Some s)) ∧
         nodes m' !! new_node = Some (mkNode (Some value) None) ∧
         is_queue m' this s (xs ++ [(new_node, value)])) ∧
  (∃ ts m',
     interleave sched (MPSC_Queue.enqueue this <$> vs) m = Ok ts m' ∧
     (∀ i, i < length vs → 3 ≤ turns_of i sched → ts !! i = Some (Ret tt)) ∧
     (∀ i, i < length vs → ts !! i = Some (Ret tt) →
           ∃ a prev,
             events_of i (interleave_log sched (MPSC_Queue.enqueue this <$> vs) m) =
               [EvNew a; EvExchangeTail this (Some a); EvStoreNext prev (Some a)]) ∧
     ((∀ t, t ∈ ts → t = Ret tt) →
      ∃ ys, ys = enqueued_by (λ i, vs !! i)
                   (interleave_log sched (MPSC_Queue.enqueue this <$> vs) m) ∧
            ys.*2 ≡ₚ vs ∧
            is_queue m' this s (xs ++ ys))) ∧
  (∃ ts m',
     interleave sched (MPMC_Queue.enqueue this <$> vs) m = Ok ts m' ∧
     (∀ i, i < length vs → 4 ≤ turns_of i sched → ts !! i = Some (Ret tt)) ∧
     (∀ i, i < length vs → ts !! i = Some (Ret tt) →
           ∃ a prev,
             events_of i (interleave_log sched (MPMC_Queue.enqueue this <$> vs) m) =
               [EvNew a; EvStoreNext (Some a) nullptr; EvExchangeTail this (Some a);
                EvStoreNext prev (Some a)]) ∧
     ((∀ t, t ∈ ts → t = Ret tt) →
      ∃ ys, ys = enqueued_by (λ i, vs !! i)
                   (interleave_log sched (MPMC_Queue.enqueue this <$> vs) m) ∧
            ys.*2 ≡ₚ vs ∧
            is_queue m' this s (xs ++ ys))).
Proof.
  intros Hq. split; [| split].
  - intros new_node prev_tail.
    destruct (mpsc_enqueue_spec _ _ _ _ value Hq) as (m' & Hrun & Htr & Hq' & _).
    split; [exact Htr |]. split; [by apply mpmc_enqueue_trace |].
    exists m'. rewrite mpmc_enqueue_run. repeat split; try done.
    + destruct Hq' as [Hobj _]. by rewrite last_addr_snoc in Hobj.
    + destruct Hq' as [_ Hch]. destruct (lseg_last _ _ _ _ Hch) as [d Hl].
      rewrite last_addr_snoc in Hl. fold new_node in Hl, Hch. rewrite Hl.
      repeat f_equal.
      assert ((new_node, value) ∈ xs ++ [(new_node, value)]) as Hin.
      { apply elem_of_app. right. by apply list_elem_of_singleton. }
      destruct (lseg_data _ _ _ _ _ _ Hch Hin) as [nx Hd]. congruence.
    + by destruct Hq'.
    + by destruct Hq'.
  - destruct (producers_any_schedule this sched m s xs vs Hq)
      as (ts & m' & Hrun & Hfair & Hdone).
    exists ts, m'. split; [done |]. split; [done |]. split.
    + intros i Hi Hret.
      destruct (lookup_lt_is_Some_2 vs i Hi) as [v Hv].
      destruct (producer_script this sched _ _ _ _ i (PStart v) Hrun)
        as (a & prev & _ & Hev); [by rewrite list_lookup_fmap, Hv | done |].
      by exists a, prev.
    + intros Hret. destruct (Hdone Hret) as (ys & Hord & Hq' & Hperm). by exists ys.
  - destruct (mpmc_producers_schedule this sched m s xs vs Hq)
      as (ts & m' & Hrun & _ & Hfair & Hdone).
    exists ts, m'. split; [done |]. split; [done |]. split.
    + intros i Hi Hret.
      destruct (lookup_lt_is_Some_2 vs i Hi) as [v Hv].
      destruct (mproducer_script this sched _ _ _ _ i v Hrun)
        as (a & prev & Hev); [by rewrite list_lookup_fmap, Hv | done |].
      by exists a, prev.
    + intros Hret. destruct (Hdone Hret) as (ys & Hord & Hq' & Hperm). by exists ys.
Qed.

Lemma enqueue_steps_example :
  is_queue fresh_queue 1%positive 1%positive [] ∧
  trace (MPSC_Queue.enqueue 1%positive 7%Z) fresh_queue =
    [EvNew 2%positive; EvExchangeTail 1%positive (Some 2%positive);
     EvStoreNext (Some 1%positive) (Some 2%positive)] ∧
  ∃ ts m',
    interleave [0; 1; 0; 1; 1; 0]
      (MPSC_Queue.enqueue 1%positive <$> [1%Z; 2%Z]) fresh_queue = Ok ts m' ∧
    (∀ i, i < 2 → 3 ≤ turns_of i [0; 1; 0; 1; 1; 0] → ts !! i = Some (Ret tt)) ∧
    (∀ i, i < 2 → ts !! i = Some (Ret tt) →
          ∃ a prev,
            events_of i (interleave_log [0; 1; 0; 1; 1; 0]
                           (MPSC_Queue.enqueue 1%positive <$> [1%Z; 2%Z]) fresh_queue) =
              [EvNew a; EvExchangeTail 1%positive (Some a); EvStoreNext prev (Some a)]) ∧
    ((∀ t, t ∈ ts → t = Ret tt) →
     ∃ ys, ys = enqueued_by (λ i, [1%Z; 2%Z] !! i)
                  (interleave_log [0; 1; 0; 1; 1; 0]
                     (MPSC_Queue.enqueue 1%positive <$> [1%Z; 2%Z]) fresh_queue) ∧
           ys.*2 ≡ₚ [1%Z; 2%Z] ∧
           is_queue m' 1%positive 1%positive ([] ++ ys)).
Proof.
  split; [exact fresh_queue_is_queue |].
  pose proof (enqueue_steps Z fresh_queue 1%positive 1%positive [] 7%Z [1%Z; 2%Z]
                [0; 1; 0; 1; 1; 0] fresh_queue_is_queue) as (Hone & Hmany & _).
  split; [exact (proj1 Hone) | exact Hmany].
Defined.

(** The run of that example: both producers have returned, and the chain
    holds node 2 with value 1 and then node 3 with value 2, as the tail
    exchanges took place. *)
Example two_producers_run :
  ∃ m',
    interleave [0; 1; 0; 1; 1; 0]
      (MPSC_Queue.enqueue 1%positive <$> [1%Z; 2%Z]) fresh_queue =
      Ok [Ret tt; Ret tt] m' ∧
    events_of 0 (interleave_log [0; 1; 0; 1; 1; 0]
                   (MPSC_Queue.enqueue 1%positive <$> [1%Z; 2%Z]) fresh_queue) =
      [EvNew 2%positive; EvExchangeTail 1%positive (Some 2%positive);
       EvStoreNext (Some 1%positive) (Some 2%positive)] ∧
    events_of 1 (interleave_log [0; 1; 0; 1; 1; 0]
                   (MPSC_Queue.enqueue 1%positive <$> [1%Z; 2%Z]) fresh_queue) =
      [EvNew 3%positive; EvExchangeTail 1%positive (Some 3%positive);
       EvStoreNext (Some 2%positive) (Some 3%positive)] ∧
    enqueued_by (λ i, [1%Z; 2%Z] !! i)
      (interleave_log [0; 1; 0; 1; 1; 0]
         (MPSC_Queue.enqueue 1%positive <$> [1%Z; 2%Z]) fresh_queue) =
      [(2%positive, 1%Z); (3%positive, 2%Z)] ∧
    is_queue m' 1%positive 1%positive [(2%positive, 1%Z); (3%positive, 2%Z)].
Proof.
  eexists. split; [vm_compute; reflexivity |].
  split; [vm_compute; reflexivity |]. split; [vm_compute; reflexivity |].
  split; [vm_compute; reflexivity |].
  split; [reflexivity |]. simpl. repeat split; reflexivity.
Qed.

(** C7, as stated, fails once the chain is longer than an [int] can count:
    on the quiescent queue that holds [2^31] elements [size_approx] returns
    [-2^31], which is neither the number of elements nor non-negative. *)
Lemma size_approx_overflows :
  (∃ xs, is_queue big_queue 1%positive 1%positive xs ∧
         Z.of_nat (length xs) = 2147483648%Z) ∧
  run (MPSC_Queue.size_approx (Z.to_nat (2 ^ 31)) 1%positive) big_queue =
    Ok (-2147483648)%Z big_queue.
Proof.
  unfold big_queue.
  destruct (queue_of_zeros_is_queue (Z.to_nat (2 ^ 31))) as (xs & Hq & Hlen).
  split.
  - exists xs. split; [exact Hq |]. rewrite Hlen. by rewrite Z2Nat.id.
  - rewrite (mpsc_size_approx_spec _ _ _ _ _ Hq) by (by rewrite Hlen).
    rewrite iter_int_incr, Hlen, Z2Nat.id by done. done.
Qed.

(** C7, amended.  [size_approx] takes a snapshot of [tail] and walks the
    chain from [head], counting one per link, until it arrives at the
    snapshot or at a null next-link, where it stops and returns the count
    so far rather than failing.  On a quiescent queue holding [n] elements,
    [n] at most [INT_MAX], it returns exactly [n], which is not negative;
    and so it does when the snapshot is a node not yet linked into the
    chain. *)
Theorem size_approx_exact_within_int (T : Type) (m : State T) (this : qref)
    (s : addr) (xs : list (addr * T)) (t : ptr) (fuel : nat) :
  objs m !! this = Some (mkQueue t (Some s)) →
  lseg (nodes m) s None xs →
  t = Some (last_addr s xs) ∨ (∀ b, b ∈ s :: xs.*1 → t ≠ Some b) →
  length xs < fuel →
  (Z.of_nat (length xs) ≤ INT_MAX)%Z →
  run (MPSC_Queue.size_approx fuel this) m = Ok (Z.of_nat (length xs)) m ∧
  run (MPMC_Queue.size_approx fuel this) m = Ok (Z.of_nat (length xs)) m ∧
  (0 ≤ Z.of_nat (length xs))%Z.
Proof.
  intros Hobj Hch Ht Hfuel Hmax.
  assert (run (MPSC_Queue.size_approx fuel this) m = Ok (Z.of_nat (length xs)) m) as Hrun.
  { unfold MPSC_Queue.size_approx. prog_simpl.
    rewrite (exec_LoadHead _ _ _ Hobj). prog_simpl.
    rewrite (exec_LoadTail _ _ _ Hobj). prog_simpl.
    assert (Nat.iter (length xs) int_incr 0%Z = Z.of_nat (length xs)) as <-.
    { rewrite iter_int_incr. apply int_wrap_small. unfold INT_MIN. lia. }
    destruct Ht as [-> | Ht].
    - eapply mpsc_size_loop_spec; [exact Hch | lia].
    - by eapply mpsc_size_loop_early. }
  split; [exact Hrun |]. split; [exact Hrun | lia].
Qed.

Lemma size_approx_exact_within_int_example :
  objs queue_123 !! 1%positive = Some (mkQueue (Some 4%positive) (Some 1%positive)) ∧
  lseg (nodes queue_123) 1%positive None chain_123 ∧
  length chain_123 < 4 ∧
  (Z.of_nat (length chain_123) ≤ INT_MAX)%Z ∧
  run (MPSC_Queue.size_approx 4 1%positive) queue_123 = Ok 3%Z queue_123.
Proof.
  split; [reflexivity |].
  split; [exact (iq_chain _ _ _ _ queue_123_is_queue) |].
  split; [simpl; lia |]. split; [vm_compute; discriminate |].
  refine (proj1 (size_approx_exact_within_int Z queue_123 1%positive 1%positive
                   chain_123 (Some 4%positive) 4 eq_refl
                   (iq_chain _ _ _ _ queue_123_is_queue) (or_introl eq_refl)
                   (le_n 4) _)).
  vm_compute; discriminate.
Defined.




(** C9. Destruction of a quiescent queue walks the chain from [head] along
    the next-links and releases every node it arrives at, the sentinel
    included, each exactly once and no other: the released nodes are the
    nodes of the chain, in order and without repetition, none of them is
    live afterwards, and every other node is left as it was.  This includes
    the chain that is the sentinel alone.  On a moved-from object, whose
    [head] is null, destruction releases nothing and changes nothing. *)
Theorem destroy_releases_every_node_once (T : Type) (m : State T) (this : qref)
    (s : addr) (xs : list (addr * T)) (fuel : nat) (m0 : State T) (this0 : qref) :
  is_queue m this s xs →
  length xs < fuel →
  moved_from m0 this0 →
  (∃ m', run (MPSC_Queue.destroy fuel this) m = Ok tt m' ∧
         run (MPMC_Queue.destroy fuel this) m = Ok tt m' ∧
         deleted (trace (MPSC_Queue.destroy fuel this) m) = s :: xs.*1 ∧
         deleted (trace (MPMC_Queue.destroy fuel this) m) = s :: xs.*1 ∧
         NoDup (s :: xs.*1) ∧
         (∀ b, reaches (nodes m) s b → b ∈ s :: xs.*1 ∧ nodes m' !! b = None) ∧
         (∀ b, b ∉ s :: xs.*1 → nodes m' !! b = nodes m !! b)) ∧
  (run (MPSC_Queue.destroy fuel this0) m0 = Ok tt m0 ∧
   run (MPMC_Queue.destroy fuel this0) m0 = Ok tt m0 ∧
   deleted (trace (MPSC_Queue.destroy fuel this0) m0) = [] ∧
   deleted (trace (MPMC_Queue.destroy fuel this0) m0) = []).
Proof.
  intros Hq Hfuel Hmoved. split.
  - destruct (mpsc_clean_nodes_spec _ fuel _ _ _ Hq Hfuel) as (m' & Hrun & Htr & Hn & _).
    exists m'. pose proof (iq_chain _ _ _ _ Hq) as Hch.
    split; [done |]. split; [done |]. split; [done |]. split; [done |].
    split; [by eapply lseg_NoDup |]. split.
    + intros b Hb. apply (lseg_reaches _ _ _ _ _ Hch) in Hb.
      split; [done |]. rewrite Hn. by rewrite decide_True.
    + intros b Hb. rewrite Hn. by rewrite decide_False.
  - destruct (mpsc_clean_nodes_moved _ fuel _ Hmoved) as [Hrun Htr].
    repeat split; try done.
    + change (deleted (trace (MPSC_Queue.clean_nodes fuel this0) m0) = []).
      by rewrite Htr.
    + change (deleted (trace (MPSC_Queue.clean_nodes fuel this0) m0) = []).
      by rewrite Htr.
Qed.

Lemma destroy_releases_every_node_once_example :
  is_queue queue_123 1%positive 1%positive chain_123 ∧
  length chain_123 < 4 ∧
  moved_from moved_out_queue 1%positive ∧
  (∃ m', run (MPSC_Queue.destroy 4 1%positive) queue_123 = Ok tt m' ∧
         deleted (trace (MPSC_Queue.destroy 4 1%positive) queue_123) =
           [1%positive; 2%positive; 3%positive; 4%positive]).
Proof.
  split; [exact queue_123_is_queue |]. split; [simpl; lia |].
  split; [exact moved_out_queue_moved_from |].
  destruct (destroy_releases_every_node_once Z queue_123 1%positive 1%positive
              chain_123 4 moved_out_queue 1%positive queue_123_is_queue
              (le_n 4) moved_out_queue_moved_from)
    as [(m' & Hrun & _ & Htr & _) _].
  exists m'. split; [exact Hrun | exact Htr].
Defined.

(** C10. Move-assigning a queue object to itself is a no-op: whatever the
    state, no atomic action is performed, so head, tail, the nodes and the
    elements stay as they are. *)
Theorem self_move_assign_is_noop (T : Type) (m : State T) (fuel : nat) (this : qref) :
  run (MPSC_Queue.move_assign fuel this this) m = Ok tt m ∧
  trace (MPSC_Queue.move_assign fuel this this) m = [] ∧
  run (MPMC_Queue.move_assign fuel this this) m = Ok tt m ∧
  trace (MPMC_Queue.move_assign fuel this this) m = [].
Proof.
  unfold MPSC_Queue.move_assign, MPMC_Queue.move_assign.
  rewrite bool_decide_eq_false_2 by (intros Hne; by apply Hne).
  done.
Qed.

(** ** Further properties *)

(** X1. Any sequence of calls of [enqueue], [dequeue], [is_empty] and
    [size_approx] by one caller on a quiescent queue of either class
    returns, call by call, what a list used first-in-first-out returns
    ([dequeue] its oldest element or nothing, [is_empty] whether it is
    empty, [size_approx] its length counted in an [int]); no call faults,
    and the queue is left well formed, holding what the list holds. *)
Theorem calls_answered_as_by_a_list (T : Type) (m : State T) (this : qref) (s : addr)
    (xs : list (addr * T)) (rs : list (request T)) (fuel : nat) :
  is_queue m this s xs →
  length xs + length rs ≤ fuel →
  length (spurious m) < fuel →
  (∃ m' s' xs',
     run (serve_all (MPSC fuel) this rs) m = Ok (replies xs.*2 rs) m' ∧
     is_queue m' this s' xs' ∧ xs'.*2 = contents_after xs.*2 rs) ∧
  (∃ m' s' xs',
     run (serve_all (MPMC fuel) this rs) m = Ok (replies xs.*2 rs) m' ∧
     is_queue m' this s' xs' ∧ xs'.*2 = contents_after xs.*2 rs).
Proof.
  intros Hq Hfuel Hsp. split.
  - destruct (serve_all_frame (MPSC fuel) always fuel mpsc_q_enqueue mpsc_deq_empty_ok
                mpsc_q_dequeue (mpsc_q_is_empty always) (mpsc_q_size_approx always fuel)
                m this s xs rs I Hq Hfuel) as (m' & s' & xs' & Hrun & Hq' & Hc & _).
    by exists m', s', xs'.
  - destruct (serve_all_frame (MPMC fuel) (enough_fuel fuel) fuel (mpmc_q_enqueue fuel)
                (mpmc_deq_empty_ok fuel) (mpmc_q_dequeue fuel)
                (mpsc_q_is_empty (enough_fuel fuel))
                (mpsc_q_size_approx (enough_fuel fuel) fuel)
                m this s xs rs Hsp Hq Hfuel) as (m' & s' & xs' & Hrun & Hq' & Hc & _).
    by exists m', s', xs'.
Qed.

Lemma calls_answered_as_by_a_list_example :
  is_queue queue_123 1%positive 1%positive chain_123 ∧
  length chain_123 + 8 ≤ 11 ∧
  length (spurious queue_123) < 11 ∧
  ∃ m' s' xs',
    run (serve_all (MPSC 11) 1%positive
           [AskSize; DoDequeue; DoEnqueue 4%Z; AskEmpty; DoDequeue; DoDequeue;
            DoDequeue; DoDequeue]) queue_123 =
      Ok [Counted 3%Z; Item (Some 1%Z); Void; Emptiness false; Item (Some 2%Z);
          Item (Some 3%Z); Item (Some 4%Z); Item None] m' ∧
    is_queue m' 1%positive s' xs' ∧ xs'.*2 = [].
Proof.
  split; [exact queue_123_is_queue |]. split; [simpl; lia |]. split; [simpl; lia |].
  exact (proj1 (calls_answered_as_by_a_list Z queue_123 1%positive 1%positive chain_123
                  [AskSize; DoDequeue; DoEnqueue 4%Z; AskEmpty; DoDequeue; DoDequeue;
                   DoDequeue; DoDequeue] 11 queue_123_is_queue
                  (le_n 11) (Nat.lt_0_succ 10))).
Defined.

(** X2. A whole lifetime: the constructor, any sequence of calls by one
    caller, the destructor.  Every call returns what the list returns, and
    at the end the heap is exactly the heap before the constructor: every
    node the queue allocated has been released, no other node was touched,
    and no other queue object was written. *)
Theorem lifetime_returns_every_node (T : Type) (m0 : State T) (this : qref)
    (rs : list (request T)) (fuel : nat) :
  length rs < fuel →
  length (spurious m0) < fuel →
  (∃ m',
     run (_ ← MPSC_Queue.construct this;
          out ← serve_all (MPSC fuel) this rs;
          _ ← MPSC_Queue.destroy fuel this;
          Ret out) m0 = Ok (replies [] rs) m' ∧
     nodes m' = nodes m0 ∧ (∀ q, q ≠ this → objs m' !! q = objs m0 !! q)) ∧
  (∃ m',
     run (_ ← MPMC_Queue.construct this;
          out ← serve_all (MPMC fuel) this rs;
          _ ← MPMC_Queue.destroy fuel this;
          Ret out) m0 = Ok (replies [] rs) m' ∧
     nodes m' = nodes m0 ∧ (∀ q, q ≠ this → objs m' !! q = objs m0 !! q)).
Proof.
  intros Hfuel Hsp.
  destruct (mpsc_construct_spec m0 this) as (m1 & Hrun1 & Hq1 & [Ho1 Hn1] & Hsp1).
  set (s := fresh (dom (nodes m0))) in *.
  assert (owns (λ b, nodes m0 !! b) m1 (s :: ([] : list (addr * T)).*1)) as Hown.
  { split.
    - intros b ->%list_elem_of_singleton. apply not_elem_of_dom. apply is_fresh.
    - intros b Hb. by apply Hn1. }
  assert (∀ m2 s' xs' (out : list (reply T)),
            is_queue m2 this s' xs' → xs'.*2 = contents_after [] rs →
            owns (λ b, nodes m0 !! b) m2 (s' :: xs'.*1) →
            (∀ q, q ≠ this → objs m2 !! q = objs m1 !! q) →
            ∃ m', run (_ ← MPSC_Queue.destroy fuel this; Ret out) m2 = Ok out m' ∧
                  nodes m' = nodes m0 ∧ (∀ q, q ≠ this → objs m' !! q = objs m0 !! q))
    as Hend.
  { intros m2 s' xs' out Hq2 Hc [Hdead Hsame] Ho2.
    destruct (mpsc_clean_nodes_spec _ fuel _ _ _ Hq2) as (m' & Hrun & _ & Hn & Ho & _).
    { rewrite <- (length_fmap snd), Hc.
      pose proof (contents_after_length (@nil T) rs). simpl in *. lia. }
    exists m'. rewrite run_bind. unfold MPSC_Queue.destroy. rewrite Hrun.
    split; [done |]. split.
    - apply map_eq. intros b. rewrite Hn.
      destruct (decide (b ∈ s' :: xs'.*1)) as [Hin | Hin];
        [symmetry; by apply Hdead | by apply Hsame].
    - intros q Hne. rewrite Ho, (Ho2 q Hne). apply Ho1.
      by intros ->%list_elem_of_singleton. }
  split.
  - destruct (serve_all_spec (MPSC fuel) always fuel mpsc_q_enqueue mpsc_deq_empty_ok
                mpsc_q_dequeue (mpsc_q_is_empty always) (mpsc_q_size_approx always fuel)
                (λ b, nodes m0 !! b) m1 this s [] rs I Hq1 Hown)
      as (m2 & s' & xs' & Hrun2 & _ & Hq2 & Hc & Hown2 & Ho2); [simpl; lia |].
    destruct (Hend m2 s' xs' (replies [] rs) Hq2 Hc Hown2 Ho2) as (m' & Hrun & Hrest).
    exists m'. split; [| done]. by rewrite run_bind, Hrun1, run_bind, Hrun2.
  - destruct (serve_all_spec (MPMC fuel) (enough_fuel fuel) fuel (mpmc_q_enqueue fuel)
                (mpmc_deq_empty_ok fuel) (mpmc_q_dequeue fuel)
                (mpsc_q_is_empty (enough_fuel fuel))
                (mpsc_q_size_approx (enough_fuel fuel) fuel)
                (λ b, nodes m0 !! b) m1 this s [] rs)
      as (m2 & s' & xs' & Hrun2 & _ & Hq2 & Hc & Hown2 & Ho2);
      [unfold enough_fuel; by rewrite Hsp1 | done | done | simpl; lia |].
    destruct (Hend m2 s' xs' (replies [] rs) Hq2 Hc Hown2 Ho2) as (m' & Hrun & Hrest).
    exists m'. split; [| done].
    change (@MPMC_Queue.construct T) with (@MPSC_Queue.construct T).
    change (@MPMC_Queue.destroy T) with (@MPSC_Queue.destroy T).
    by rewrite run_bind, Hrun1, run_bind, Hrun2.
Qed.

Lemma lifetime_returns_every_node_example :
  length [DoEnqueue 1%Z; DoEnqueue 2%Z; DoDequeue; DoEnqueue 3%Z] < 5 ∧
  length (spurious queue_123) < 5 ∧
  ∃ m',
    run (_ ← MPSC_Queue.construct 2%positive;
         out ← serve_all (MPSC 5) 2%positive
                 [DoEnqueue 1%Z; DoEnqueue 2%Z; DoDequeue; DoEnqueue 3%Z];
         _ ← MPSC_Queue.destroy 5 2%positive;
         Ret out) queue_123 = Ok [Void; Void; Item (Some 1%Z); Void] m' ∧
    nodes m' = nodes queue_123 ∧
    (∀ q, q ≠ 2%positive → objs m' !! q = objs queue_123 !! q).
Proof.
  split; [simpl; lia |]. split; [simpl; lia |].
  exact (proj1 (lifetime_returns_every_node Z queue_123 2%positive
                  [DoEnqueue 1%Z; DoEnqueue 2%Z; DoDequeue; DoEnqueue 3%Z] 5
                  (le_n 5) (Nat.lt_0_succ 4))).
Defined.

(** X3. The loop of the usage example,
    [while (!queue.is_empty()) { auto item = queue.dequeue(); ... }], run
    by one caller on a quiescent queue, ends after as many rounds as the
    queue holds elements, has received every element, each once and oldest
    first, and leaves the queue empty, its last node being the sentinel. *)
Theorem drain_loop_returns_all (T : Type) (m : State T) (this : qref) (s : addr)
    (xs : list (addr * T)) (fuel : nat) :
  is_queue m this s xs →
  length xs < fuel →
  length (spurious m) < fuel →
  (∃ m', run (drain_loop (MPSC fuel) fuel this) m = Ok xs.*2 m' ∧
         is_queue m' this (last_addr s xs) []) ∧
  (∃ m', run (drain_loop (MPMC fuel) fuel this) m = Ok xs.*2 m' ∧
         is_queue m' this (last_addr s xs) []).
Proof.
  intros Hq Hfuel Hsp. split.
  - destruct (drain_loop_spec (MPSC fuel) always mpsc_q_dequeue (mpsc_q_is_empty always)
                m fuel this s xs I Hq Hfuel) as (m' & Hrun & _ & Hq').
    by exists m'.
  - destruct (drain_loop_spec (MPMC fuel) (enough_fuel fuel) (mpmc_q_dequeue fuel)
                (mpsc_q_is_empty (enough_fuel fuel))
                m fuel this s xs Hsp Hq Hfuel) as (m' & Hrun & _ & Hq').
    by exists m'.
Qed.

Lemma drain_loop_returns_all_example :
  is_queue queue_123 1%positive 1%positive chain_123 ∧
  length chain_123 < 4 ∧
  length (spurious queue_123) < 4 ∧
  ∃ m', run (drain_loop (MPSC 4) 4 1%positive) queue_123 = Ok [1%Z; 2%Z; 3%Z] m' ∧
        is_queue m' 1%positive 4%positive [].
Proof.
  split; [exact queue_123_is_queue |]. split; [simpl; lia |]. split; [simpl; lia |].
  exact (proj1 (drain_loop_returns_all Z queue_123 1%positive 1%positive chain_123 4
                  queue_123_is_queue (le_n 4) (Nat.lt_0_succ 3))).
Defined.

(** X4. Calls on one queue leave every other queue alone: when the chains
    of two quiescent queues share no node, any sequence of calls by one
    caller on the first leaves the second queue object and every node of
    its chain as they were, so that the second still holds its elements,
    and the two chains still share no node. *)
Theorem calls_leave_other_queues_alone (T : Type) (m : State T) (this q : qref)
    (s s0 : addr) (xs ys : list (addr * T)) (rs : list (request T)) (fuel : nat) :
  is_queue m this s xs →
  is_queue m q s0 ys →
  q ≠ this →
  (∀ b, b ∈ s0 :: ys.*1 → b ∉ s :: xs.*1) →
  length xs + length rs ≤ fuel →
  length (spurious m) < fuel →
  (∃ out m' s' xs',
     run (serve_all (MPSC fuel) this rs) m = Ok out m' ∧
     is_queue m' this s' xs' ∧ is_queue m' q s0 ys ∧
     (∀ b, b ∈ s0 :: ys.*1 → nodes m' !! b = nodes m !! b ∧ b ∉ s' :: xs'.*1)) ∧
  (∃ out m' s' xs',
     run (serve_all (MPMC fuel) this rs) m = Ok out m' ∧
     is_queue m' this s' xs' ∧ is_queue m' q s0 ys ∧
     (∀ b, b ∈ s0 :: ys.*1 → nodes m' !! b = nodes m !! b ∧ b ∉ s' :: xs'.*1)).
Proof.
  intros Hq Hother Hne Hdisj Hfuel Hsp.
  assert (∀ (m' : State T) (s' : addr) (xs' : list (addr * T)),
            (∀ q, q ≠ this → objs m' !! q = objs m !! q) →
            (∀ b n, b ∉ s :: xs.*1 → nodes m !! b = Some n → nodes m' !! b = Some n) →
            (∀ b n, b ∉ s :: xs.*1 → nodes m !! b = Some n → b ∉ s' :: xs'.*1) →
            is_queue m' q s0 ys ∧
            (∀ b, b ∈ s0 :: ys.*1 → nodes m' !! b = nodes m !! b ∧ b ∉ s' :: xs'.*1))
    as Hframe.
  { intros m' s' xs' Ho Hkeep Hout.
    assert (∀ b, b ∈ s0 :: ys.*1 → nodes m' !! b = nodes m !! b ∧ b ∉ s' :: xs'.*1) as Hb.
    { intros b Hb. destruct (lseg_live _ _ _ _ _ (iq_chain _ _ _ _ Hother) Hb) as [n Hn].
      split; [| by eapply Hout; [apply Hdisj |]].
      rewrite Hn. eapply Hkeep; [by apply Hdisj | done]. }
    split; [| done]. destruct Hother as [Hobj Hch]. split.
    - by rewrite Ho.
    - eapply lseg_agree; [| exact Hch]. intros b Hin. by apply Hb. }
  split.
  - destruct (serve_all_frame (MPSC fuel) always fuel mpsc_q_enqueue mpsc_deq_empty_ok
                mpsc_q_dequeue (mpsc_q_is_empty always) (mpsc_q_size_approx always fuel)
                m this s xs rs I Hq Hfuel)
      as (m' & s' & xs' & Hrun & Hq' & _ & Ho & Hkeep & Hout).
    exists (replies xs.*2 rs), m', s', xs'. split; [done |]. split; [done |].
    eapply Hframe; eauto.
  - destruct (serve_all_frame (MPMC fuel) (enough_fuel fuel) fuel (mpmc_q_enqueue fuel)
                (mpmc_deq_empty_ok fuel) (mpmc_q_dequeue fuel)
                (mpsc_q_is_empty (enough_fuel fuel))
                (mpsc_q_size_approx (enough_fuel fuel) fuel)
                m this s xs rs Hsp Hq Hfuel)
      as (m' & s' & xs' & Hrun & Hq' & _ & Ho & Hkeep & Hout).
    exists (replies xs.*2 rs), m', s', xs'. split; [done |]. split; [done |].
    eapply Hframe; eauto.
Qed.

Lemma calls_leave_other_queues_alone_example :
  is_queue two_queues 1%positive 1%positive chain_123 ∧
  is_queue two_queues 2%positive 5%positive [] ∧
  2%positive ≠ 1%positive ∧
  (∀ b : addr, b ∈ 5%positive :: ([] : list (addr * Z)).*1 → b ∉ 1%positive :: chain_123.*1) ∧
  length chain_123 + 2 ≤ 5 ∧
  length (spurious two_queues) < 5 ∧
  ∃ out m' s' xs',
    run (serve_all (MPSC 5) 1%positive [DoDequeue; DoEnqueue 9%Z]) two_queues = Ok out m' ∧
    is_queue m' 1%positive s' xs' ∧ is_queue m' 2%positive 5%positive [] ∧
    (∀ b : addr, b ∈ 5%positive :: ([] : list (addr * Z)).*1 →
       nodes m' !! b = nodes two_queues !! b ∧ b ∉ s' :: xs'.*1).
Proof.
  assert (2%positive ≠ 1%positive) as Hne by discriminate.
  assert (∀ b : addr, b ∈ 5%positive :: ([] : list (addr * Z)).*1 →
            b ∉ 1%positive :: chain_123.*1) as Hdisj.
  { intros b Hb. apply list_elem_of_singleton in Hb as ->.
    apply not_elem_of_cons. split; [discriminate |].
    simpl. rewrite !not_elem_of_cons. repeat split; try discriminate.
    apply not_elem_of_nil. }
  split; [exact two_queues_first |]. split; [exact two_queues_second |].
  split; [exact Hne |]. split; [exact Hdisj |].
  split; [simpl; lia |]. split; [simpl; lia |].
  exact (proj1 (calls_leave_other_queues_alone Z two_queues 1%positive 2%positive
                  1%positive 5%positive chain_123 [] [DoDequeue; DoEnqueue 9%Z] 5
                  two_queues_first two_queues_second Hne Hdisj (le_n 5)
                  (Nat.lt_0_succ 4))).
Defined.



(** X5. Move assignment releases what the destination held: when [this]
    and [other] are quiescent queues whose chains share no node,
    [this = std::move(other)] deletes every node of the chain of [this],
    the sentinel included, each once and in chain order, and no node of
    the chain of [other], which [this] then holds unchanged; every node
    outside the old chain of [this] is as it was. *)
Theorem move_assign_releases_destination (T : Type) (m : State T) (this other : qref)
    (s s' : addr) (xs ys : list (addr * T)) (fuel : nat) :
  this ≠ other →
  is_queue m this s xs →
  is_queue m other s' ys →
  (∀ b, b ∈ s :: xs.*1 → b ∉ s' :: ys.*1) →
  length xs < fuel →
  ∃ m',
    run (MPSC_Queue.move_assign fuel this other) m = Ok tt m' ∧
    run (MPMC_Queue.move_assign fuel this other) m = Ok tt m' ∧
    deleted (trace (MPSC_Queue.move_assign fuel this other) m) = s :: xs.*1 ∧
    deleted (trace (MPMC_Queue.move_assign fuel this other) m) = s :: xs.*1 ∧
    NoDup (s :: xs.*1) ∧
    (∀ b, b ∈ s :: xs.*1 → nodes m' !! b = None) ∧
    (∀ b, b ∉ s :: xs.*1 → nodes m' !! b = nodes m !! b) ∧
    is_queue m' this s' ys.
Proof.
  intros Hne Hq Hother Hdisj Hfuel.
  destruct (mpsc_clean_nodes_spec _ fuel _ _ _ Hq Hfuel) as (m1 & Hclean & Htr & Hn & Ho & _).
  assert (is_queue m1 other s' ys) as Hother1.
  { destruct Hother as [Hobj Hch]. split; [by rewrite Ho |].
    eapply lseg_agree; [| exact Hch]. intros b Hb. rewrite Hn.
    rewrite decide_False; [done |]. intros Hin. by apply (Hdisj b). }
  destruct (mpsc_move_assign_after_clean _ _ _ _ _ _ _ Hne Hclean Hother1)
    as (m' & Hrun & Hq' & _ & Hnodes & _).
  destruct (move_assign_deleted m fuel this other Hne) as [Hd1 Hd2].
  exists m'. rewrite mpmc_move_assign_run, Hd1, Hd2, Htr.
  split; [done |]. split; [done |]. split; [done |]. split; [done |].
  split; [by eapply lseg_NoDup, iq_chain |].
  split; [| split; [| done]]; intros b Hb; rewrite Hnodes, Hn.
  - by rewrite decide_True.
  - by rewrite decide_False.
Qed.

Lemma move_assign_releases_destination_example :
  2%positive ≠ 1%positive ∧
  is_queue two_queues 2%positive 5%positive [] ∧
  is_queue two_queues 1%positive 1%positive chain_123 ∧
  (∀ b : addr, b ∈ 5%positive :: ([] : list (addr * Z)).*1 → b ∉ 1%positive :: chain_123.*1) ∧
  length ([] : list (addr * Z)) < 1 ∧
  ∃ m',
    run (MPSC_Queue.move_assign 1 2%positive 1%positive) two_queues = Ok tt m' ∧
    run (MPMC_Queue.move_assign 1 2%positive 1%positive) two_queues = Ok tt m' ∧
    deleted (trace (MPSC_Queue.move_assign 1 2%positive 1%positive) two_queues) =
      [5%positive] ∧
    deleted (trace (MPMC_Queue.move_assign 1 2%positive 1%positive) two_queues) =
      [5%positive] ∧
    NoDup [5%positive] ∧
    (∀ b : addr, b ∈ [5%positive] → nodes m' !! b = None) ∧
    (∀ b : addr, b ∉ [5%positive] → nodes m' !! b = nodes two_queues !! b) ∧
    is_queue m' 2%positive 1%positive chain_123.
Proof.
  assert (2%positive ≠ 1%positive) as Hne by discriminate.
  assert (∀ b : addr, b ∈ 5%positive :: ([] : list (addr * Z)).*1 →
            b ∉ 1%positive :: chain_123.*1) as Hdisj.
  { intros b Hb. apply list_elem_of_singleton in Hb as ->.
    apply not_elem_of_cons. split; [discriminate |].
    simpl. rewrite !not_elem_of_cons. repeat split; try discriminate.
    apply not_elem_of_nil. }
  split; [exact Hne |]. split; [exact two_queues_second |].
  split; [exact two_queues_first |]. split; [exact Hdisj |]. split; [simpl; lia |].
  exact (move_assign_releases_destination Z two_queues 2%positive 1%positive
           5%positive 1%positive [] chain_123 1 Hne two_queues_second two_queues_first
           Hdisj (le_n 1)).
Defined.

(** X6. [MPSC_Queue::dequeue] is for one consumer only.  On every
    quiescent queue that holds an element, two threads calling [dequeue]
    can interleave so that both read the same [head] before either deletes
    it, and the second [delete] releases a node that is no longer live.
    They can also interleave without any fault so that one call returns the
    element and the other, which found its payload moved out, returns
    nothing, after which [head] is left pointing to a node that has been
    deleted. *)
Theorem mpsc_two_consumers_double_free (T : Type) (m : State T) (this : qref)
    (s a : addr) (v : T) (xs : list (addr * T)) :
  is_queue m this s ((a, v) :: xs) →
  interleave [0; 0; 0; 0; 1; 1; 1; 1; 0; 1]
    [MPSC_Queue.dequeue this; MPSC_Queue.dequeue this] m = Fault (InvalidFree s) ∧
  ∃ m', interleave [0; 0; 0; 1; 1; 1; 1; 1; 1; 0; 0; 0]
          [MPSC_Queue.dequeue this; MPSC_Queue.dequeue this] m =
          Ok [Ret (Some v); Ret None] m' ∧
        (∃ t, objs m' !! this = Some (mkQueue t (Some a))) ∧
        nodes m' !! a = None ∧
        run (MPSC_Queue.is_empty this) m' = Fault (UseAfterFree a).
Proof.
  intros [Hobj Hch].
  pose proof (lseg_not_in _ _ _ _ Hch) as Hs.
  destruct Hch as [Hhead Hch]. pose proof (lseg_lookup _ _ _ _ Hch) as Ha.
  assert (s ≠ a) as Hsa.
  { intros ->. apply Hs. simpl. apply elem_of_cons. by left. }
  unfold MPSC_Queue.dequeue. split.
  - turn ltac:(apply exec_LoadHead; exact Hobj).
    turn ltac:(apply exec_LoadNext; exact Hhead).
    turn ltac:(apply exec_MoveData; exact Ha).
    turn ltac:(apply exec_LoadHead; exact Hobj).
    turn ltac:(apply exec_LoadHead; exact Hobj).
    turn ltac:(apply exec_LoadNext; simpl; rewrite lookup_insert_ne by done; exact Hhead).
    turn ltac:(apply exec_MoveData; simpl; apply lookup_insert_eq).
    turn ltac:(apply exec_LoadHead; exact Hobj).
    turn ltac:(eapply exec_DeleteNode; simpl; rewrite !lookup_insert_ne by done; exact Hhead).
    eapply interleave_turn_fault; [reflexivity |].
    apply exec_dead_DeleteNode. simpl. apply lookup_delete_eq.
  - turn ltac:(apply exec_LoadHead; exact Hobj).
    turn ltac:(apply exec_LoadNext; exact Hhead).
    turn ltac:(apply exec_MoveData; exact Ha).
    turn ltac:(apply exec_LoadHead; exact Hobj).
    turn ltac:(apply exec_LoadNext; simpl; rewrite lookup_insert_ne by done; exact Hhead).
    turn ltac:(apply exec_MoveData; simpl; apply lookup_insert_eq).
    turn ltac:(apply exec_LoadHead; exact Hobj).
    turn ltac:(eapply exec_DeleteNode; simpl; rewrite !lookup_insert_ne by done; exact Hhead).
    turn ltac:(apply exec_StoreHead).
    turn ltac:(apply exec_LoadHead; simpl; apply lookup_insert_eq).
    turn ltac:(eapply exec_DeleteNode; simpl; rewrite lookup_delete_ne by done;
               apply lookup_insert_eq).
    turn ltac:(apply exec_StoreHead).
    eexists. split; [reflexivity |]. simpl. rewrite Hobj. simpl.
    split; [| split].
    + eexists. apply lookup_insert_eq.
    + apply lookup_delete_eq.
    + unfold read_obj. simpl. rewrite lookup_insert_eq. simpl.
      by rewrite lookup_delete_eq.
Qed.

Lemma mpsc_two_consumers_double_free_example :
  is_queue queue_123 1%positive 1%positive chain_123 ∧
  interleave [0; 0; 0; 0; 1; 1; 1; 1; 0; 1]
    [MPSC_Queue.dequeue 1%positive; MPSC_Queue.dequeue 1%positive] queue_123 =
  Fault (InvalidFree 1%positive).
Proof.
  split; [exact queue_123_is_queue |].
  exact (proj1 (mpsc_two_consumers_double_free Z queue_123 1%positive 1%positive
                  2%positive 1%Z [(3%positive, 2%Z); (4%positive, 3%Z)]
                  queue_123_is_queue)).
Defined.

(** X7. [is_empty] and [size_approx] are not safe against a [dequeue] that
    runs at the same time.  On every quiescent queue that holds an
    element, of either class, a thread calling [is_empty] or [size_approx]
    can read [head], a thread calling [dequeue] can then run its whole call,
    which deletes that node, and the first thread then loads the next-link
    of the node that is no longer live. *)
Theorem queries_race_with_dequeue (T : Type) (m : State T) (this : qref)
    (s a : addr) (v : T) (xs : list (addr * T)) (fuel : nat) :
  is_queue m this s ((a, v) :: xs) →
  leading_failures (spurious m) = 0 →
  interleave [0; 1; 1; 1; 1; 1; 1; 0]
    [serve (MPSC (S fuel)) this AskEmpty; serve (MPSC (S fuel)) this DoDequeue] m =
    Fault (UseAfterFree s) ∧
  interleave [0; 0; 1; 1; 1; 1; 1; 1; 0]
    [serve (MPSC (S fuel)) this AskSize; serve (MPSC (S fuel)) this DoDequeue] m =
    Fault (UseAfterFree s) ∧
  interleave [0; 1; 1; 1; 1; 1; 0]
    [serve (MPMC (S fuel)) this AskEmpty; serve (MPMC (S fuel)) this DoDequeue] m =
    Fault (UseAfterFree s) ∧
  interleave [0; 0; 1; 1; 1; 1; 1; 0]
    [serve (MPMC (S fuel)) this AskSize; serve (MPMC (S fuel)) this DoDequeue] m =
    Fault (UseAfterFree s).
Proof.
  intros [Hobj Hch] Hsp.
  pose proof (lseg_not_in _ _ _ _ Hch) as Hs.
  destruct Hch as [Hhead Hch]. pose proof (lseg_lookup _ _ _ _ Hch) as Ha.
  assert (s ≠ a) as Hsa.
  { intros ->. apply Hs. simpl. apply elem_of_cons. by left. }
  assert (Some s ≠ Some (last_addr a xs)) as Hlast.
  { intros [= Heq]. apply Hs. rewrite Heq. apply (last_addr_in a xs). }
  unfold serve, MPSC, MPMC, q_is_empty, q_size_approx, q_dequeue.
  unfold MPSC_Queue.is_empty, MPMC_Queue.is_empty, MPSC_Queue.size_approx,
    MPMC_Queue.size_approx, MPSC_Queue.dequeue.
  cbn [MPMC_Queue.dequeue].
  split; [| split; [| split]].
  - turn ltac:(apply exec_LoadHead; exact Hobj).
    turn ltac:(apply exec_LoadHead; exact Hobj).
    turn ltac:(apply exec_LoadNext; exact Hhead).
    turn ltac:(apply exec_MoveData; exact Ha).
    turn ltac:(apply exec_LoadHead; exact Hobj).
    turn ltac:(eapply exec_DeleteNode; simpl; rewrite lookup_insert_ne by done; exact Hhead).
    turn ltac:(apply exec_StoreHead).
    eapply interleave_turn_fault; [reflexivity |].
    apply exec_dead_LoadNext. simpl. apply lookup_delete_eq.
  - turn ltac:(apply exec_LoadHead; exact Hobj).
    turn ltac:(apply exec_LoadTail; exact Hobj).
    turn ltac:(apply exec_LoadHead; exact Hobj).
    turn ltac:(apply exec_LoadNext; exact Hhead).
    turn ltac:(apply exec_MoveData; exact Ha).
    turn ltac:(apply exec_LoadHead; exact Hobj).
    turn ltac:(eapply exec_DeleteNode; simpl; rewrite lookup_insert_ne by done; exact Hhead).
    turn ltac:(apply exec_StoreHead).
    cbn [MPSC_Queue.size_loop last_addr]. rewrite bool_decide_eq_false_2 by done.
    cbn [mbind prog_bind bind act].
    eapply interleave_turn_fault; [reflexivity |].
    apply exec_dead_LoadNext. simpl. apply lookup_delete_eq.
  - turn ltac:(apply exec_LoadHead; exact Hobj).
    turn ltac:(apply exec_LoadHead; exact Hobj).
    turn ltac:(apply exec_LoadNext; exact Hhead).
    turn ltac:(eapply exec_CasHead_ok; [exact Hobj | done | exact Hsp]).
    turn ltac:(apply exec_MoveData; exact Ha).
    turn ltac:(eapply exec_DeleteNode; simpl; rewrite lookup_insert_ne by done; exact Hhead).
    eapply interleave_turn_fault; [reflexivity |].
    apply exec_dead_LoadNext. simpl. apply lookup_delete_eq.
  - turn ltac:(apply exec_LoadHead; exact Hobj).
    turn ltac:(apply exec_LoadTail; exact Hobj).
    turn ltac:(apply exec_LoadHead; exact Hobj).
    turn ltac:(apply exec_LoadNext; exact Hhead).
    turn ltac:(eapply exec_CasHead_ok; [exact Hobj | done | exact Hsp]).
    turn ltac:(apply exec_MoveData; exact Ha).
    turn ltac:(eapply exec_DeleteNode; simpl; rewrite lookup_insert_ne by done; exact Hhead).
    cbn [MPMC_Queue.size_loop last_addr]. rewrite bool_decide_eq_false_2 by done.
    cbn [mbind prog_bind bind act].
    eapply interleave_turn_fault; [reflexivity |].
    apply exec_dead_LoadNext. simpl. apply lookup_delete_eq.
Qed.

Lemma queries_race_with_dequeue_example :
  is_queue queue_123 1%positive 1%positive chain_123 ∧
  leading_failures (spurious queue_123) = 0 ∧
  interleave [0; 1; 1; 1; 1; 1; 1; 0]
    [serve (MPSC 1) 1%positive AskEmpty; serve (MPSC 1) 1%positive DoDequeue] queue_123 =
    Fault (UseAfterFree 1%positive).
Proof.
  split; [exact queue_123_is_queue |]. split; [reflexivity |].
  exact (proj1 (queries_race_with_dequeue Z queue_123 1%positive 1%positive
                  2%positive 1%Z [(3%positive, 2%Z); (4%positive, 3%Z)] 0
                  queue_123_is_queue eq_refl)).
Defined.

(** X8. Any number of threads calling [MPMC_Queue::enqueue] concurrently,
    thread [i] enqueuing [vs !! i], under any schedule of their atomic
    actions: no action faults; a call has returned once its thread has had
    four turns, whatever the others did; and once all calls have returned
    the queue is at rest and holds, behind what it held, one element for
    each tail exchange of the run, in the order in which the exchanges took
    place: the node that exchange made the tail, with the value of the
    thread that performed it ([enqueued_by]).  These are the values of
    [vs], each once; [size_approx] then counts them all and the loop of the
    usage example returns them in that order. *)
Theorem mpmc_enqueue_any_schedule (T : Type) (m : State T) (this : qref) (s : addr)
    (xs : list (addr * T)) (vs : list T) (sched : list nat) (fuel : nat) :
  is_queue m this s xs →
  length xs + length vs < fuel →
  length (spurious m) < fuel →
  ∃ ts m',
    interleave sched (MPMC_Queue.enqueue this <$> vs) m = Ok ts m' ∧
    (∀ i, i < length vs → 4 ≤ turns_of i sched → ts !! i = Some (Ret tt)) ∧
    ((∀ t, t ∈ ts → t = Ret tt) →
     ∃ ys, ys = enqueued_by (λ i, vs !! i)
                  (interleave_log sched (MPMC_Queue.enqueue this <$> vs) m) ∧
           ys.*2 ≡ₚ vs ∧
           is_queue m' this s (xs ++ ys) ∧
           run (MPMC_Queue.size_approx fuel this) m' =
             Ok (int_wrap (Z.of_nat (length xs + length vs))) m' ∧
           ∃ m'', run (drain_loop (MPMC fuel) fuel this) m' = Ok (xs.*2 ++ ys.*2) m'').
Proof.
  intros Hq Hfuel Hsp.
  destruct (mpmc_producers_schedule this sched m s xs vs Hq)
    as (ts & m' & Hrun & Hsp' & Hfair & Hdone).
  exists ts, m'. split; [done |]. split; [done |]. intros Hret.
  destruct (Hdone Hret) as (ys & Hord & Hq' & Hperm).
  assert (length (xs ++ ys) = length xs + length vs) as Hlen.
  { rewrite length_app, <- (length_fmap snd ys). by rewrite Hperm. }
  exists ys. split; [done |]. split; [done |]. split; [done |]. split.
  - rewrite <- Hlen.
    apply (mpsc_q_size_approx (enough_fuel fuel) fuel m' this s (xs ++ ys));
      [unfold enough_fuel; by rewrite Hsp' | done | lia].
  - destruct (drain_loop_spec (MPMC fuel) (enough_fuel fuel) (mpmc_q_dequeue fuel)
                (mpsc_q_is_empty (enough_fuel fuel)) m' fuel this s (xs ++ ys))
      as (m'' & Hdrain & _); [unfold enough_fuel; by rewrite Hsp' | done | lia |].
    exists m''. by rewrite Hdrain, fmap_app.
Qed.

Lemma mpmc_enqueue_any_schedule_example :
  is_queue fresh_queue 1%positive 1%positive [] ∧
  length ([] : list (addr * Z)) + length [1%Z; 2%Z; 3%Z] < 4 ∧
  length (spurious fresh_queue) < 4 ∧
  ∃ ts m',
    interleave [0; 1; 2; 2; 2; 1; 1; 0; 0; 0; 1; 2]
      (MPMC_Queue.enqueue 1%positive <$> [1%Z; 2%Z; 3%Z]) fresh_queue = Ok ts m' ∧
    (∀ i, i < 3 → 4 ≤ turns_of i [0; 1; 2; 2; 2; 1; 1; 0; 0; 0; 1; 2] →
          ts !! i = Some (Ret tt)) ∧
    ((∀ t, t ∈ ts → t = Ret tt) →
     ∃ ys, ys = enqueued_by (λ i, [1%Z; 2%Z; 3%Z] !! i)
                  (interleave_log [0; 1; 2; 2; 2; 1; 1; 0; 0; 0; 1; 2]
                     (MPMC_Queue.enqueue 1%positive <$> [1%Z; 2%Z; 3%Z]) fresh_queue) ∧
           ys.*2 ≡ₚ [1%Z; 2%Z; 3%Z] ∧
           is_queue m' 1%positive 1%positive ([] ++ ys) ∧
           run (MPMC_Queue.size_approx 4 1%positive) m' =
             Ok (int_wrap (Z.of_nat (length ([] : list (addr * Z)) + 3))) m' ∧
           ∃ m'', run (drain_loop (MPMC 4) 4 1%positive) m' = Ok ([] ++ ys.*2) m'').
Proof.
  split; [exact fresh_queue_is_queue |]. split; [simpl; lia |]. split; [simpl; lia |].
  exact (mpmc_enqueue_any_schedule Z fresh_queue 1%positive 1%positive []
           [1%Z; 2%Z; 3%Z] [0; 1; 2; 2; 2; 1; 1; 0; 0; 0; 1; 2] 4
           fresh_queue_is_queue (le_n 4) (Nat.lt_0_succ 3)).
Defined.

(** The run of that example: the third thread exchanges the tail first,
    then the second, then the first, and the loop returns 3, 2, 1. *)
Example mpmc_three_producers_run :
  ∃ m' m'',
    interleave [0; 1; 2; 2; 2; 1; 1; 0; 0; 0; 1; 2]
      (MPMC_Queue.enqueue 1%positive <$> [1%Z; 2%Z; 3%Z]) fresh_queue =
      Ok [Ret tt; Ret tt; Ret tt] m' ∧
    enqueued_by (λ i, [1%Z; 2%Z; 3%Z] !! i)
      (interleave_log [0; 1; 2; 2; 2; 1; 1; 0; 0; 0; 1; 2]
         (MPMC_Queue.enqueue 1%positive <$> [1%Z; 2%Z; 3%Z]) fresh_queue) =
      [(4%positive, 3%Z); (3%positive, 2%Z); (2%positive, 1%Z)] ∧
    run (drain_loop (MPMC 4) 4 1%positive) m' = Ok [3%Z; 2%Z; 1%Z] m''.
Proof.
  eexists _, _. split; [vm_compute; reflexivity |]. split; vm_compute; reflexivity.
Qed.

(** X9. [MPMC_Queue] with one consumer.  Thread 0 making [k] calls of
    [dequeue] while threads 1, 2, ... call [enqueue], thread [S i] with
    [vs !! i], under any schedule of their atomic actions and whatever
    spurious failures the compare-and-swap meets, each call having more
    attempts than there are failures in store: no action faults; every
    thread returns within its own turns, whatever the others do: a producer
    once it has had four, the consumer once it has had five for each
    [dequeue] and three more for every spurious failure; and once all calls
    have returned, the elements the consumer received, followed by those
    the queue still holds, are the elements the queue held at first
    followed by the enqueued values, each once, in the order of the tail
    exchanges, each exchange counting with the value of the thread that
    performed it ([enqueued_by]). *)
Theorem mpmc_single_consumer_any_schedule (T : Type) (m : State T) (this : qref)
    (s : addr) (xs : list (addr * T)) (vs : list T) (sched : list nat) (k fuel : nat) :
  is_queue m this s xs →
  length (spurious m) < fuel →
  ∃ ts m',
    interleave sched
      (dequeue_n (MPMC_Queue.dequeue fuel) this k
       :: ((λ v, _ ← MPMC_Queue.enqueue this v; Ret []) <$> vs)) m = Ok ts m' ∧
    (5 * k + 3 * length (spurious m) ≤ turns_of 0 sched →
     ∃ rs, ts !! 0 = Some (Ret rs)) ∧
    (∀ i, i < length vs → 4 ≤ turns_of (S i) sched → ts !! S i = Some (Ret [])) ∧
    ((∀ t, t ∈ ts → ∃ rs, t = Ret rs) →
     ∃ rs ys s' rest,
       ts !! 0 = Some (Ret rs) ∧
       ys = enqueued_by (behind_consumer vs)
              (interleave_log sched
                 (dequeue_n (MPMC_Queue.dequeue fuel) this k
                  :: ((λ v, _ ← MPMC_Queue.enqueue this v; Ret []) <$> vs)) m) ∧
       ys.*2 ≡ₚ vs ∧
       omap id rs ++ rest.*2 = xs.*2 ++ ys.*2 ∧
       is_queue m' this s' rest).
Proof. intros Hq Hfuel. by apply (mpmc_one_consumer_schedule this fuel sched m s). Qed.

Lemma mpmc_single_consumer_any_schedule_example :
  is_queue queue_123_one_failure 1%positive 1%positive chain_123 ∧
  length (spurious queue_123_one_failure) < 2 ∧
  ∃ ts m',
    interleave [1; 0; 0; 1; 0; 0; 0; 1; 0; 0; 0; 1]
      (dequeue_n (MPMC_Queue.dequeue 2) 1%positive 1
       :: ((λ v, _ ← MPMC_Queue.enqueue 1%positive v; Ret []) <$> [4%Z]))
      queue_123_one_failure = Ok ts m' ∧
    (5 * 1 + 3 * length (spurious queue_123_one_failure) ≤
       turns_of 0 [1; 0; 0; 1; 0; 0; 0; 1; 0; 0; 0; 1] →
     ∃ rs, ts !! 0 = Some (Ret rs)) ∧
    (∀ i, i < 1 → 4 ≤ turns_of (S i) [1; 0; 0; 1; 0; 0; 0; 1; 0; 0; 0; 1] →
          ts !! S i = Some (Ret [])) ∧
    ((∀ t, t ∈ ts → ∃ rs, t = Ret rs) →
     ∃ rs ys s' rest,
       ts !! 0 = Some (Ret rs) ∧
       ys = enqueued_by (behind_consumer [4%Z])
              (interleave_log [1; 0; 0; 1; 0; 0; 0; 1; 0; 0; 0; 1]
                 (dequeue_n (MPMC_Queue.dequeue 2) 1%positive 1
                  :: ((λ v, _ ← MPMC_Queue.enqueue 1%positive v; Ret []) <$> [4%Z]))
                 queue_123_one_failure) ∧
       ys.*2 ≡ₚ [4%Z] ∧
       omap id rs ++ rest.*2 = chain_123.*2 ++ ys.*2 ∧
       is_queue m' 1%positive s' rest).
Proof.
  split; [exact queue_123_one_failure_is_queue |]. split; [simpl; lia |].
  exact (mpmc_single_consumer_any_schedule Z queue_123_one_failure 1%positive
           1%positive chain_123 [4%Z] [1; 0; 0; 1; 0; 0; 0; 1; 0; 0; 0; 1] 1 2
           queue_123_one_failure_is_queue (le_n 2)).
Defined.

(** The run of that example: the consumer meets the spurious failure,
    retries and receives 1, while the producer enqueues 4. *)
Example mpmc_single_consumer_retry :
  ∃ m',
    interleave [1; 0; 0; 1; 0; 0; 0; 1; 0; 0; 0; 1]
      (dequeue_n (MPMC_Queue.dequeue 2) 1%positive 1
       :: ((λ v, _ ← MPMC_Queue.enqueue 1%positive v; Ret []) <$> [4%Z]))
      queue_123_one_failure = Ok [Ret [Some 1%Z]; Ret []] m' ∧
    enqueued_by (behind_consumer [4%Z])
      (interleave_log [1; 0; 0; 1; 0; 0; 0; 1; 0; 0; 0; 1]
         (dequeue_n (MPMC_Queue.dequeue 2) 1%positive 1
          :: ((λ v, _ ← MPMC_Queue.enqueue 1%positive v; Ret []) <$> [4%Z]))
         queue_123_one_failure) = [(5%positive, 4%Z)] ∧
    is_queue m' 1%positive 2%positive
      [(3%positive, 2%Z); (4%positive, 3%Z); (5%positive, 4%Z)].
Proof.
  eexists. split; [vm_compute; reflexivity |]. split; [vm_compute; reflexivity |].
  split; [reflexivity |]. simpl. repeat split; reflexivity.
Qed.



(** The run of that example: thread 1 has exchanged the tail and not yet
    linked its node when [size_approx] takes that node as its snapshot of
    the tail; the loop walks the three linked elements and stops at the
    null next-link, having counted the three elements the queue held. *)
Example queries_among_producers_run :
  ∃ m',
    interleave [1; 1; 0; 0; 0; 0; 0; 0; 2; 2; 1; 3; 3; 3]
      (serve (MPSC 6) 1%positive <$> [AskSize; DoEnqueue 4%Z; AskEmpty; DoEnqueue 5%Z])
      queue_123 =
    Ok [Ret (Counted 3%Z); Ret Void; Ret (Emptiness false); Ret Void] m'.
Proof. eexists. vm_compute. reflexivity. Qed.



(** X12. The loop of the usage example in the consumer thread of an
    [MPSC_Queue], [while (!queue.is_empty()) { item = queue.dequeue(); ... }],
    run as thread 0 while threads 1, 2, ... call [enqueue], thread [S i]
    with [vs !! i], under any schedule of their atomic actions: no action
    faults; every thread returns within its own turns, whatever the others
    do: the loop has ended once the consumer has had eight turns for each
    of the rounds it may make, and a producer has returned once it has had
    three; and once all threads have returned, the items the loop
    received, followed by the elements the queue still holds, are the
    elements the queue held at first followed by the enqueued values, each
    once, in the order of the tail exchanges, each exchange counting with
    the value of the thread that performed it ([enqueued_by]). *)
Theorem consumer_loop_any_schedule (T : Type) (m : State T) (this : qref) (s : addr)
    (xs : list (addr * T)) (vs : list T) (sched : list nat) (fuel size_fuel : nat) :
  is_queue m this s xs →
  length xs + length vs < fuel →
  ∃ ts m',
    interleave sched
      (drain_loop (MPSC size_fuel) fuel this
       :: ((λ v, _ ← MPSC_Queue.enqueue this v; Ret []) <$> vs)) m = Ok ts m' ∧
    (8 * fuel ≤ turns_of 0 sched → ∃ out, ts !! 0 = Some (Ret out)) ∧
    (∀ i, i < length vs → 3 ≤ turns_of (S i) sched → ts !! S i = Some (Ret [])) ∧
    ((∀ t, t ∈ ts → ∃ out, t = Ret out) →
     ∃ out ys s' rest,
       ts !! 0 = Some (Ret out) ∧
       ys = enqueued_by (behind_consumer vs)
              (interleave_log sched
                 (drain_loop (MPSC size_fuel) fuel this
                  :: ((λ v, _ ← MPSC_Queue.enqueue this v; Ret []) <$> vs)) m) ∧
       ys.*2 ≡ₚ vs ∧
       out ++ rest.*2 = xs.*2 ++ ys.*2 ∧
       is_queue m' this s' rest).
Proof. intros Hq Hfuel. by apply (loop_schedule this size_fuel sched m s). Qed.

Lemma consumer_loop_any_schedule_example :
  is_queue queue_123 1%positive 1%positive chain_123 ∧
  length chain_123 + length [4%Z] < 5 ∧
  ∃ ts m',
    interleave ([0; 0; 1; 0; 1; 0; 0; 0; 1] ++ replicate 30 0)
      (drain_loop (MPSC 0) 5 1%positive
       :: ((λ v, _ ← MPSC_Queue.enqueue 1%positive v; Ret []) <$> [4%Z]))
      queue_123 = Ok ts m' ∧
    ((∀ t, t ∈ ts → ∃ out, t = Ret out) →
     ∃ out ys s' rest,
       ts !! 0 = Some (Ret out) ∧
       ys = enqueued_by (behind_consumer [4%Z])
              (interleave_log ([0; 0; 1; 0; 1; 0; 0; 0; 1] ++ replicate 30 0)
                 (drain_loop (MPSC 0) 5 1%positive
                  :: ((λ v, _ ← MPSC_Queue.enqueue 1%positive v; Ret []) <$> [4%Z]))
                 queue_123) ∧
       ys.*2 ≡ₚ [4%Z] ∧
       out ++ rest.*2 = chain_123.*2 ++ ys.*2 ∧
       is_queue m' 1%positive s' rest).
Proof.
  split; [exact queue_123_is_queue |]. split; [simpl; lia |].
  destruct (consumer_loop_any_schedule Z queue_123 1%positive 1%positive chain_123 [4%Z]
              ([0; 0; 1; 0; 1; 0; 0; 0; 1] ++ replicate 30 0) 5 0 queue_123_is_queue (le_n 5))
    as (ts & m' & Hrun & _ & _ & Hdone).
  exists ts, m'. split; [exact Hrun | exact Hdone].
Defined.

(** The run of that example: the producer enqueues 4 while the consumer
    is in its first rounds, and the loop receives all four elements. *)
Example consumer_loop_run :
  ∃ m',
    interleave ([0; 0; 1; 0; 1; 0; 0; 0; 1] ++ replicate 30 0)
      (drain_loop (MPSC 0) 5 1%positive
       :: ((λ v, _ ← MPSC_Queue.enqueue 1%positive v; Ret []) <$> [4%Z]))
      queue_123 = Ok [Ret [1%Z; 2%Z; 3%Z; 4%Z]; Ret []] m'.
Proof. eexists. vm_compute. reflexivity. Qed.
